(** * DeepSeekService: a shallow embedding of app/services/deepseek.server.js

    The development follows the source file top to bottom: the string
    helpers and the JavaScript built-ins the service relies on
    ([JSON.parse], [JSON.stringify], [String], [parseInt], SHA-1), the
    Redis store it talks to, the module-level helpers ([buildCacheKey],
    [extractJsonFromText], ...) and finally the methods of the class.

    Conventions.  A JavaScript string is represented by the bytes of its
    (generalised) UTF-8 encoding, as a Rocq [string]; every delimiter the
    service looks for is ASCII, so positions of delimiters correspond.
    Times, delays and the integers of the store are [Z]; the numbers the
    service compares with its limits are doubles, [JsNumber].
    Asynchronous code is written in a state-and-exception monad over an
    explicit [World].

    The in-memory history of app/services/history.server.ts follows the
    service, in the module [History]: its store is threaded explicitly
    through the functions that read and replace it. *)

From Stdlib Require Import ZArith Ascii String List DecimalString DecimalZ.
From Stdlib Require Import Sorted Permutation.
From stdpp Require Import base option list strings gmap.

Local Open Scope string_scope.
Local Open Scope Z_scope.

(* ===================================================================== *)
(** ** Strings as the source uses them *)
(* ===================================================================== *)

Module JsString.

Definition chars (s : string) : list ascii := list_ascii_of_string s.
Definition of_chars (l : list ascii) : string := string_of_list_ascii l.

Definition code (c : ascii) : Z := Z.of_nat (nat_of_ascii c).
Definition chr (z : Z) : ascii := ascii_of_nat (Z.to_nat z).

(** The double quote, as a string. *)
Definition dq : string := String "034" EmptyString.

(** [s.indexOf(c)] for a one-character needle; [None] stands for -1. *)
Fixpoint indexOf (c : ascii) (s : string) : option nat :=
  match s with
  | EmptyString => None
  | String a r => if Ascii.eqb a c then Some 0%nat else S <$> indexOf c r
  end.

(** [s.lastIndexOf(c)]. *)
Fixpoint lastIndexOf (c : ascii) (s : string) : option nat :=
  match s with
  | EmptyString => None
  | String a r =>
      match lastIndexOf c r with
      | Some i => Some (S i)
      | None => if Ascii.eqb a c then Some 0%nat else None
      end
  end.

(** [s.slice(a, b)] for [0 <= a], [0 <= b]. *)
Definition slice (s : string) (a b : nat) : string := substring a (b - a) s.

(** [s.slice(0, n)]. *)
Definition take (n : nat) (s : string) : string := substring 0 n s.

(** The suffix [s.slice(n)]. *)
Fixpoint drop (n : nat) (s : string) : string :=
  match n, s with
  | O, _ => s
  | S n', String _ r => drop n' r
  | S _, EmptyString => EmptyString
  end.

(** [parts.join(sep)]. *)
Fixpoint join (sep : string) (parts : list string) : string :=
  match parts with
  | [] => ""
  | [p] => p
  | p :: rest => p +:+ sep +:+ join sep rest
  end.

(** [s.replace(/\n/g, " ")]. *)
Fixpoint newlines_to_spaces (s : string) : string :=
  match s with
  | EmptyString => EmptyString
  | String a r =>
      String (if Ascii.eqb a "010" then " "%char else a) (newlines_to_spaces r)
  end.

(** [s.replace(/```(json)?/g, "")]: every run of three backquotes is
    removed, together with a directly following [json]. *)
Fixpoint strip_fences (s : string) : string :=
  match s with
  | EmptyString => EmptyString
  | String a r =>
      match r with
      | String b (String c r3) =>
          if Ascii.eqb a "`" && Ascii.eqb b "`" && Ascii.eqb c "`" then
            match r3 with
            | String j (String s' (String o (String n r7))) =>
                if Ascii.eqb j "j" && Ascii.eqb s' "s" && Ascii.eqb o "o"
                   && Ascii.eqb n "n"
                then strip_fences r7
                else strip_fences r3
            | _ => strip_fences r3
            end
          else String a (strip_fences r)
      | _ => String a (strip_fences r)
      end
  end.

(** White space and line terminators of ECMAScript, by their UTF-8
    bytes: the one-byte ones, U+00A0, and the three-byte ones (U+1680,
    U+2000..U+200A, U+2028, U+2029, U+202F, U+205F, U+3000, U+FEFF). *)
Definition ws1 (a : ascii) : bool :=
  let n := code a in
  (9 <=? n) && (n <=? 13) || (n =? 32).

Definition ws2 (a b : ascii) : bool :=
  (code a =? 194) && (code b =? 160).

Definition ws3 (a b c : ascii) : bool :=
  let x := code a in let y := code b in let z := code c in
  (x =? 225) && (y =? 154) && (z =? 128)
  || (x =? 226) && (y =? 128) && ((128 <=? z) && (z <=? 138))
  || (x =? 226) && (y =? 128) && ((z =? 168) || (z =? 169) || (z =? 175))
  || (x =? 226) && (y =? 129) && (z =? 159)
  || (x =? 227) && (y =? 128) && (z =? 128)
  || (x =? 239) && (y =? 187) && (z =? 191).

Fixpoint trimStart_chars (l : list ascii) : list ascii :=
  match l with
  | a :: r =>
      if ws1 a then trimStart_chars r
      else match r with
           | b :: r2 =>
               if ws2 a b then trimStart_chars r2
               else match r2 with
                    | c :: r3 => if ws3 a b c then trimStart_chars r3 else l
                    | [] => l
                    end
           | [] => l
           end
  | [] => []
  end.

(** The same from the right end, on the reversed list. *)
Fixpoint trimEnd_rev (l : list ascii) : list ascii :=
  match l with
  | a :: r =>
      if ws1 a then trimEnd_rev r
      else match r with
           | b :: r2 =>
               if ws2 b a then trimEnd_rev r2
               else match r2 with
                    | c :: r3 => if ws3 c b a then trimEnd_rev r3 else l
                    | [] => l
                    end
           | [] => l
           end
  | [] => []
  end.

(** [s.trim()]. *)
Definition trim (s : string) : string :=
  of_chars (rev (trimEnd_rev (rev (trimStart_chars (chars s))))).

(** Decimal rendering of an integer, [String(n)] for an integral [n]. *)
Definition of_Z (z : Z) : string := NilZero.string_of_int (Z.to_int z).

(** The integer of which a text is the decimal rendering, if any. *)
Definition to_Z (s : string) : option Z :=
  match NilZero.int_of_string s with
  | Some d => let z := Z.of_int d in
              if String.eqb (of_Z z) s then Some z else None
  | None => None
  end.

Definition is_digit (a : ascii) : bool :=
  (48 <=? code a) && (code a <=? 57).

Definition digit_val (a : ascii) : Z := code a - 48.

Fixpoint span_digits (l : list ascii) : list ascii * list ascii :=
  match l with
  | a :: r =>
      if is_digit a then let '(ds, rest) := span_digits r in (a :: ds, rest)
      else ([], l)
  | [] => ([], [])
  end.

Definition digits_val (ds : list ascii) : Z :=
  fold_left (fun acc d => 10 * acc + digit_val d) ds 0.

(** A JavaScript number whose value is an integer, an infinity or NaN:
    the numbers this service computes with.  (Negative zero is not told
    apart from zero: the service only compares, subtracts and prints.) *)
Inductive JsNumber : Type :=
| NaN
| Finite (z : Z)
| Infinite (negative : bool).

(** The largest integer up to which every integer is a double. *)
Definition MAX_EXACT : Z := 2 ^ 53.

(** The number an integer becomes when it is read or computed: the
    nearest double, a tie going to the even significand, and an infinity
    from 2^1024 - 2^970 on. *)
Definition round_double (z : Z) : JsNumber :=
  let a := Z.abs z in
  if a <? MAX_EXACT then Finite z
  else
    let e := Z.log2 a - 52 in
    let q := a / 2 ^ e in
    let r := a mod 2 ^ e in
    let half := 2 ^ (e - 1) in
    let q' := if (half <? r) || ((r =? half) && Z.odd q) then q + 1 else q in
    let m := q' * 2 ^ e in
    if 2 ^ 1024 <=? m then Infinite (z <? 0) else Finite (Z.sgn z * m).

(** [String(v)] for a double [v] of integer value from 2^53 on.  The
    decimals that read back as [v] are those of the interval half-way to
    the two neighbouring doubles, its ends included when the significand
    of [v] is even; [lo2] and [hi2] are twice its ends.  The digits
    printed are those of the decimal with the fewest digits in that
    interval, which is a multiple of the largest power of ten that has a
    multiple there: the one closest to [v], and of two equally close, the
    one with the even last digit. *)
Fixpoint shortest_from (p : nat) (v lo2 hi2 : Z) (closed : bool) : Z * nat :=
  let step := 10 ^ Z.of_nat p in
  let c1 := v / step * step in
  let c2 := c1 + step in
  let inside (c : Z) :=
    if closed then (lo2 <=? 2 * c) && (2 * c <=? hi2)
    else (lo2 <? 2 * c) && (2 * c <? hi2) in
  let found :=
    match inside c1, inside c2 with
    | true, true =>
        if v - c1 <? c2 - v then Some c1
        else if c2 - v <? v - c1 then Some c2
        else if Z.even (c1 / step) then Some c1 else Some c2
    | true, false => Some c1
    | false, true => Some c2
    | false, false => None
    end in
  match found, p with
  | Some c, _ => (c, p)
  | None, S p' => shortest_from p' v lo2 hi2 closed
  | None, O => (v, O)
  end.

Definition shortest (v : Z) : Z * nat :=
  let e := Z.log2 v - 52 in
  let m := v / 2 ^ e in
  let below := if m =? 2 ^ 52 then 2 ^ (e - 1) else 2 ^ e in
  shortest_from (Z.to_nat ((Z.log2 v + 2) * 31 / 100 + 1)) v
                (2 * v - below) (2 * v + 2 ^ e) (Z.even m).

(** Up to 21 digits the number is printed in full, the digits that are
    not needed being zeros; beyond, with an exponent. *)
Definition big_to_string (v : Z) : string :=
  let '(c, p) := shortest v in
  let all := of_Z c in
  let n := Z.of_nat (String.length all) in
  if n <=? 21 then all
  else
    match of_Z (c / 10 ^ Z.of_nat p) with
    | String d EmptyString => String d ("e+" +:+ of_Z (n - 1))
    | String d rest => String d ("." +:+ rest +:+ "e+" +:+ of_Z (n - 1))
    | EmptyString => ""
    end.

(** [parseInt(s, 10)]: leading white space, an optional sign, then the
    longest run of digits, read as a number; NaN without a digit. *)
Definition parseInt (s : string) : JsNumber :=
  let l := trimStart_chars (chars s) in
  let '(neg, l1) :=
    match l with
    | "-"%char :: r => (true, r)
    | "+"%char :: r => (false, r)
    | _ => (false, l)
    end in
  match span_digits l1 with
  | ([], _) => NaN
  | (ds, _) => round_double (if neg : bool then - digits_val ds else digits_val ds)
  end.

End JsString.

(* ===================================================================== *)
(** ** JSON values and [JSON.parse] *)
(* ===================================================================== *)

Module Json.
Import JsString.

(** A value as [JSON.parse] builds it.  A number keeps its lexeme: the
    conversions that depend on IEEE-754 arithmetic belong to the
    platform.  An object lists its own properties in enumeration order.
    An array carries, besides its elements, the named properties that
    were assigned to it afterwards ([JSON.parse] creates none). *)
#[warnings="-register-all"]
Inductive JSON : Type :=
| JNull
| JBool (b : bool)
| JNum (lexeme : string)
| JStr (s : string)
| JArr (elems : list JSON) (props : list (string * JSON))
| JObj (members : list (string * JSON)).

(** *** Objects: own properties in enumeration order *)

(** A canonical array index: the decimal rendering of an integer in
    0 .. 2^32 - 2.  Such keys enumerate first, in ascending order. *)
Definition array_index (k : string) : option Z :=
  match span_digits (chars k) with
  | ([], _) => None
  | (ds, []) =>
      let n := digits_val ds in
      if String.eqb (of_Z n) k && (n <? 4294967295) then Some n else None
  | (_, _ :: _) => None
  end.

Fixpoint lookup_key {A} (k : string) (m : list (string * A)) : option A :=
  match m with
  | [] => None
  | (k', v) :: r => if String.eqb k' k then Some v else lookup_key k r
  end.

Fixpoint replace_key {A} (k : string) (v : A) (m : list (string * A)) :=
  match m with
  | [] => []
  | (k', v') :: r =>
      if String.eqb k' k then (k', v) :: r else (k', v') :: replace_key k v r
  end.

(** Place of a new index key [n]: before the first entry that is not an
    index or is a larger index. *)
Fixpoint insert_index {A} (n : Z) (k : string) (v : A) (m : list (string * A)) :=
  match m with
  | [] => [(k, v)]
  | (k', v') :: r =>
      match array_index k' with
      | Some n' =>
          if n' <? n then (k', v') :: insert_index n k v r
          else (k, v) :: m
      | None => (k, v) :: m
      end
  end.

(** [obj[k] = v] on a plain object. *)
Definition obj_set {A} (k : string) (v : A) (m : list (string * A)) :=
  match lookup_key k m with
  | Some _ => replace_key k v m
  | None =>
      match array_index k with
      | Some n => insert_index n k v m
      | None => (m ++ [(k, v)])%list
      end
  end.

(** *** Lexical analysis *)

Inductive token : Type :=
| TLBrace | TRBrace | TLBrack | TRBrack | TColon | TComma
| TString (s : string)
| TBare (l : list ascii).

(** Inside a string literal: a raw byte, or a UTF-16 unit from an
    escape of the form backslash-u. *)
Inductive str_item : Type :=
| IByte (a : ascii)
| IUnit (u : Z).

Inductive lex_mode : Type :=
| LDefault
| LBare (acc : list ascii)
| LStr (acc : list str_item)
| LEsc (acc : list str_item)
| LUni (acc : list str_item) (digits : list ascii).

Definition is_json_ws (a : ascii) : bool :=
  let n := code a in (n =? 32) || (n =? 9) || (n =? 10) || (n =? 13).

Definition is_alpha (a : ascii) : bool :=
  let n := code a in
  (65 <=? n) && (n <=? 90) || (97 <=? n) && (n <=? 122).

(** Characters of a literal name or a number. *)
Definition is_bare (a : ascii) : bool :=
  is_digit a || is_alpha a
  || (code a =? 43) || (code a =? 45) || (code a =? 46).

Definition hex_val (a : ascii) : option Z :=
  let n := code a in
  if (48 <=? n) && (n <=? 57) then Some (n - 48)
  else if (97 <=? n) && (n <=? 102) then Some (n - 87)
  else if (65 <=? n) && (n <=? 70) then Some (n - 55)
  else None.

Fixpoint hex_digits_val (ds : list ascii) (acc : Z) : option Z :=
  match ds with
  | [] => Some acc
  | d :: r => h ← hex_val d; hex_digits_val r (16 * acc + h)
  end.

(** UTF-8 bytes of a code point (also of a lone surrogate, which keeps
    its three-byte form). *)
Definition utf8_encode (cp : Z) : list ascii :=
  if cp <? 128 then [chr cp]
  else if cp <? 2048 then
    [chr (192 + cp / 64); chr (128 + cp mod 64)]
  else if cp <? 65536 then
    [chr (224 + cp / 4096); chr (128 + (cp / 64) mod 64); chr (128 + cp mod 64)]
  else
    [chr (240 + cp / 262144); chr (128 + (cp / 4096) mod 64);
     chr (128 + (cp / 64) mod 64); chr (128 + cp mod 64)].

Definition is_high_surrogate (u : Z) : bool := (55296 <=? u) && (u <=? 56319).
Definition is_low_surrogate (u : Z) : bool := (56320 <=? u) && (u <=? 57343).

Fixpoint decode_items (l : list str_item) : list ascii :=
  match l with
  | [] => []
  | IByte a :: r => a :: decode_items r
  | IUnit u :: r =>
      match r with
      | IUnit u' :: r' =>
          if is_high_surrogate u && is_low_surrogate u' then
            (utf8_encode (65536 + (u - 55296) * 1024 + (u' - 56320))
               ++ decode_items r')%list
          else (utf8_encode u ++ decode_items r)%list
      | _ => (utf8_encode u ++ decode_items r)%list
      end
  end.

Definition lex_default (a : ascii) : option (list token * lex_mode) :=
  if is_json_ws a then Some ([], LDefault)
  else if Ascii.eqb a "{" then Some ([TLBrace], LDefault)
  else if Ascii.eqb a "}" then Some ([TRBrace], LDefault)
  else if Ascii.eqb a "[" then Some ([TLBrack], LDefault)
  else if Ascii.eqb a "]" then Some ([TRBrack], LDefault)
  else if Ascii.eqb a ":" then Some ([TColon], LDefault)
  else if Ascii.eqb a "," then Some ([TComma], LDefault)
  else if Ascii.eqb a "034" then Some ([], LStr [])
  else if is_bare a then Some ([], LBare [a])
  else None.

Definition lex_escape (a : ascii) : option Z :=
  if Ascii.eqb a "034" then Some 34
  else if Ascii.eqb a "\" then Some 92
  else if Ascii.eqb a "/" then Some 47
  else if Ascii.eqb a "b" then Some 8
  else if Ascii.eqb a "f" then Some 12
  else if Ascii.eqb a "n" then Some 10
  else if Ascii.eqb a "r" then Some 13
  else if Ascii.eqb a "t" then Some 9
  else None.

Definition lex_step (m : lex_mode) (a : ascii) : option (list token * lex_mode) :=
  match m with
  | LDefault => lex_default a
  | LBare acc =>
      if is_bare a then Some ([], LBare (a :: acc))
      else '(toks, m') ← lex_default a; Some (TBare (rev acc) :: toks, m')
  | LStr acc =>
      if Ascii.eqb a "034" then
        Some ([TString (of_chars (decode_items (rev acc)))], LDefault)
      else if Ascii.eqb a "\" then Some ([], LEsc acc)
      else if code a <? 32 then None
      else Some ([], LStr (IByte a :: acc))
  | LEsc acc =>
      if Ascii.eqb a "u" then Some ([], LUni acc [])
      else z ← lex_escape a; Some ([], LStr (IByte (chr z) :: acc))
  | LUni acc ds =>
      match hex_val a with
      | None => None
      | Some _ =>
          if (length ds =? 3)%nat then
            u ← hex_digits_val (rev (a :: ds)) 0;
            Some ([], LStr (IUnit u :: acc))
          else Some ([], LUni acc (a :: ds))
      end
  end.

Fixpoint lex (m : lex_mode) (input : list ascii) : option (list token) :=
  match input with
  | [] =>
      match m with
      | LDefault => Some []
      | LBare acc => Some [TBare (rev acc)]
      | _ => None
      end
  | a :: r =>
      '(toks, m') ← lex_step m a;
      rest ← lex m' r;
      Some (toks ++ rest)%list
  end.

(** *** Numbers and literal names *)

Definition nonempty_digits (l : list ascii) : option (list ascii) :=
  match span_digits l with
  | ([], _) => None
  | (_, rest) => Some rest
  end.

(** The integer part: [0], or a non-zero digit followed by digits. *)
Definition number_int (l : list ascii) : option (list ascii) :=
  match l with
  | "0"%char :: r => Some r
  | _ => nonempty_digits l
  end.

Definition number_frac (l : list ascii) : option (list ascii) :=
  match l with
  | "."%char :: r => nonempty_digits r
  | _ => Some l
  end.

Definition number_exp (l : list ascii) : option (list ascii) :=
  match l with
  | a :: r =>
      if Ascii.eqb a "e" || Ascii.eqb a "E" then
        match r with
        | s :: r' =>
            if Ascii.eqb s "+" || Ascii.eqb s "-" then nonempty_digits r'
            else nonempty_digits r
        | [] => None
        end
      else Some l
  | [] => Some l
  end.

Definition is_number (l : list ascii) : bool :=
  let l1 := match l with "-"%char :: r => r | _ => l end in
  match (l2 ← number_int l1; l3 ← number_frac l2; number_exp l3) with
  | Some [] => true
  | _ => false
  end.

Definition bare_value (l : list ascii) : option JSON :=
  let s := of_chars l in
  if String.eqb s "null" then Some JNull
  else if String.eqb s "true" then Some (JBool true)
  else if String.eqb s "false" then Some (JBool false)
  else if is_number l then Some (JNum s)
  else None.

(** *** The grammar, as a machine over the tokens *)

Inductive frame : Type :=
| FArr (acc : list JSON)
| FObj (acc : list (string * JSON)) (key : option string).

Inductive pstate : Type :=
| SValue (stk : list frame)      (* a value must follow *)
| SArrStart (stk : list frame)   (* after an opening bracket *)
| SObjStart (stk : list frame)   (* after an opening brace *)
| SKey (stk : list frame)        (* after a comma inside an object *)
| SColon (stk : list frame)      (* after a member name *)
| SAfter (stk : list frame)      (* after a value inside a container *)
| SDone (v : JSON).              (* the whole text was one value *)

(** A finished value goes into the container on top of the stack. *)
Definition push_value (v : JSON) (stk : list frame) : option pstate :=
  match stk with
  | [] => Some (SDone v)
  | FArr acc :: r => Some (SAfter (FArr (v :: acc) :: r))
  | FObj acc (Some k) :: r => Some (SAfter (FObj (obj_set k v acc) None :: r))
  | FObj _ None :: _ => None
  end.

Definition start_value (t : token) (stk : list frame) : option pstate :=
  match t with
  | TLBrace => Some (SObjStart (FObj [] None :: stk))
  | TLBrack => Some (SArrStart (FArr [] :: stk))
  | TString s => push_value (JStr s) stk
  | TBare l => v ← bare_value l; push_value v stk
  | _ => None
  end.

Definition set_key (s : string) (stk : list frame) : option pstate :=
  match stk with
  | FObj acc None :: r => Some (SColon (FObj acc (Some s) :: r))
  | _ => None
  end.

Definition close_array (stk : list frame) : option pstate :=
  match stk with
  | FArr acc :: r => push_value (JArr (rev acc) []) r
  | _ => None
  end.

Definition close_object (stk : list frame) : option pstate :=
  match stk with
  | FObj acc None :: r => push_value (JObj acc) r
  | _ => None
  end.

Definition parse_step (st : pstate) (t : token) : option pstate :=
  match st with
  | SValue stk => start_value t stk
  | SArrStart stk =>
      match t with
      | TRBrack => close_array stk
      | _ => start_value t stk
      end
  | SObjStart stk =>
      match t with
      | TRBrace => close_object stk
      | TString s => set_key s stk
      | _ => None
      end
  | SKey stk =>
      match t with
      | TString s => set_key s stk
      | _ => None
      end
  | SColon stk =>
      match t with
      | TColon => Some (SValue stk)
      | _ => None
      end
  | SAfter stk =>
      match t, stk with
      | TComma, FArr _ :: _ => Some (SValue stk)
      | TComma, FObj _ None :: _ => Some (SKey stk)
      | TRBrack, _ => close_array stk
      | TRBrace, _ => close_object stk
      | _, _ => None
      end
  | SDone _ => None
  end.

Fixpoint parse_tokens (st : pstate) (ts : list token) : option JSON :=
  match ts with
  | [] => match st with SDone v => Some v | _ => None end
  | t :: r => st' ← parse_step st t; parse_tokens st' r
  end.

(** [JSON.parse(text)]; [None] stands for the SyntaxError it throws. *)
Definition parse (text : string) : option JSON :=
  ts ← lex LDefault (chars text);
  parse_tokens (SValue []) ts.

End Json.

(* ===================================================================== *)
(** ** SHA-1, as [crypto.createHash("sha1")] computes it *)
(* ===================================================================== *)

Module Sha1.
Import JsString.

Definition w32 (x : Z) : Z := x mod 4294967296.

Definition rotl (n x : Z) : Z :=
  w32 (Z.lor (Z.shiftl x n) (Z.shiftr x (32 - n))).

Definition not32 (x : Z) : Z := Z.lxor x 4294967295.

(** The text as the hash sees it: UTF-8, where a lone surrogate (bytes
    ED A0..BF xx in the generalised encoding) becomes U+FFFD. *)
Fixpoint utf8_bytes (l : list ascii) : list Z :=
  match l with
  | a :: r =>
      match r with
      | b :: _ :: r3 =>
          if (code a =? 237) && (160 <=? code b) then
            239 :: 191 :: 189 :: utf8_bytes r3
          else code a :: utf8_bytes r
      | _ => code a :: utf8_bytes r
      end
  | [] => []
  end.

(** Big-endian bytes of [x], [n] of them. *)
Fixpoint be_bytes (n : nat) (x : Z) : list Z :=
  match n with
  | O => []
  | S n' => (x / 256 ^ Z.of_nat n') mod 256 :: be_bytes n' x
  end.

(** The message, a 1 bit, zeros up to 56 mod 64, and the bit length. *)
Definition pad (msg : list Z) : list Z :=
  let len := Z.of_nat (length msg) in
  let zeros := Z.to_nat ((55 - len) mod 64) in
  (msg ++ 128 :: repeat 0 zeros ++ be_bytes 8 (8 * len))%list.

Fixpoint words (bytes : list Z) : list Z :=
  match bytes with
  | a :: b :: c :: d :: r =>
      (((a * 256 + b) * 256 + c) * 256 + d) :: words r
  | _ => []
  end.

Fixpoint blocks (fuel : nat) (ws : list Z) : list (list Z) :=
  match fuel, ws with
  | S f, _ :: _ => firstn 16 ws :: blocks f (skipn 16 ws)
  | _, _ => []
  end.

(** The message schedule, most recent word first. *)
Fixpoint schedule (n : nat) (rev_ws : list Z) : list Z :=
  match n with
  | O => rev_ws
  | S n' =>
      let w := rotl 1 (Z.lxor (Z.lxor (nth 2 rev_ws 0) (nth 7 rev_ws 0))
                              (Z.lxor (nth 13 rev_ws 0) (nth 15 rev_ws 0))) in
      schedule n' (w :: rev_ws)
  end.

Record state := mk_state { ha : Z; hb : Z; hc : Z; hd : Z; he : Z }.

Definition round_fk (t : Z) (b c d : Z) : Z * Z :=
  if t <? 20 then (Z.lor (Z.land b c) (Z.land (not32 b) d), 1518500249)
  else if t <? 40 then (Z.lxor (Z.lxor b c) d, 1859775393)
  else if t <? 60 then
    (Z.lor (Z.lor (Z.land b c) (Z.land b d)) (Z.land c d), 2400959708)
  else (Z.lxor (Z.lxor b c) d, 3395469782).

Definition round (st : state) (t w : Z) : state :=
  let '(f, k) := round_fk t (hb st) (hc st) (hd st) in
  let temp := w32 (rotl 5 (ha st) + f + he st + k + w) in
  mk_state temp (ha st) (rotl 30 (hb st)) (hc st) (hd st).

Fixpoint rounds (st : state) (t : Z) (ws : list Z) : state :=
  match ws with
  | [] => st
  | w :: r => rounds (round st t w) (t + 1) r
  end.

Definition compress (h : state) (block : list Z) : state :=
  let ws := rev (schedule 64 (rev block)) in
  let s := rounds h 0 ws in
  mk_state (w32 (ha h + ha s)) (w32 (hb h + hb s)) (w32 (hc h + hc s))
           (w32 (hd h + hd s)) (w32 (he h + he s)).

Definition initial : state :=
  mk_state 1732584193 4023233417 2562383102 271733878 3285377520.

Definition digest (msg : list Z) : state :=
  let ws := words (pad msg) in
  fold_left compress (blocks (length ws) ws) initial.

Definition hex_digit (n : Z) : ascii :=
  if n <? 10 then chr (48 + n) else chr (87 + n).

(** [n] lowercase hexadecimal digits of [x], most significant first. *)
Fixpoint hex (n : nat) (x : Z) : string :=
  match n with
  | O => EmptyString
  | S n' => String (hex_digit ((x / 16 ^ Z.of_nat n') mod 16)) (hex n' x)
  end.

(** [.digest("hex")]. *)
Definition hexdigest (s : string) : string :=
  let h := digest (utf8_bytes (chars s)) in
  hex 8 (ha h) +:+ hex 8 (hb h) +:+ hex 8 (hc h) +:+ hex 8 (hd h)
    +:+ hex 8 (he h).

End Sha1.

(* ===================================================================== *)
(** ** What the platform provides *)
(* ===================================================================== *)

(** A thrown JavaScript error: its [name] and its [message]. *)
Record JsError := mkError { err_name : string; err_message : string }.

Definition Error (msg : string) : JsError := mkError "Error" msg.
Definition TypeError (msg : string) : JsError := mkError "TypeError" msg.

(** The result of an evaluation that may throw. *)
Inductive Exc (A : Type) : Type :=
| Ok (a : A)
| Throw (e : JsError).
Arguments Ok {A} a.
Arguments Throw {A} e.

#[global] Instance Exc_ret : MRet Exc := fun A a => Ok a.
#[global] Instance Exc_bind : MBind Exc := fun A B f x =>
  match x with
  | Ok a => f a
  | Throw e => Throw e
  end.

(** The collaborators that are not part of this repository: the
    DOMPurify instance configured in app/utils/sanitize.server.js, the
    IEEE-754 reading of the number lexemes of JSON, the calendar
    arithmetic of [Date], and the conversion the Redis client makes of an
    integer reply into a number.  Of this conversion one fact is used:
    an integer below 2^53 in absolute value is returned exactly. *)
Class Platform := {
  (** [purify.sanitize(html, { ALLOWED_TAGS: [...], ALLOWED_ATTR: [] })] *)
  purify_sanitize : string -> string;
  (** is the number denoted by the lexeme neither zero nor NaN *)
  Number_truthy : string -> bool;
  (** is it finite *)
  Number_isFinite : string -> bool;
  (** [String(x)] for the number [x] denoted by the lexeme *)
  Number_toString : string -> string;
  (** [new Date(t).toISOString().slice(0, 7)] *)
  Date_isoMonth : Z -> string;
  (** [new Date(y, m + 2, 1).getTime()], for the local year [y] and month
      [m] of the instant [t] *)
  Date_monthAfterNext : Z -> Z;
  (** the JavaScript number the client returns for the integer reply [n] *)
  reply_number : Z -> JsString.JsNumber;
  reply_number_exact :
    forall n, Z.abs n < JsString.MAX_EXACT -> reply_number n = JsString.Finite n
}.

(* ===================================================================== *)
(** ** Operations of the language on JSON values *)
(* ===================================================================== *)

Module JsValue.
Import JsString Json.

Section WithPlatform.
Context `{Platform}.

(** ToBoolean. *)
Definition truthy (v : JSON) : bool :=
  match v with
  | JNull => false
  | JBool b => b
  | JNum lexeme => Number_truthy lexeme
  | JStr s => negb (String.eqb s "")
  | JArr _ _ | JObj _ => true
  end.

(** ToBoolean of a value that may be [undefined] ([None]). *)
Definition truthy_opt (o : option JSON) : bool :=
  match o with
  | Some v => truthy v
  | None => false
  end.

Definition cannot_convert : JsError :=
  TypeError "Cannot convert object to primitive value".

(** [String(v)].  A plain object renders as [[object Object]] unless
    it has an own [toString] property: a value read from JSON is never
    callable, and the conversion then throws a TypeError.  An array
    joins its elements with commas, [null] rendering as the empty
    string. *)
Fixpoint ToString (v : JSON) : Exc string :=
  match v with
  | JNull => Ok "null"
  | JBool b => Ok (if b then "true" else "false")
  | JNum lexeme => Ok (Number_toString lexeme)
  | JStr s => Ok s
  | JArr elems _ =>
      (fix go (l : list JSON) (first : bool) : Exc string :=
         match l with
         | [] => Ok ""
         | e :: r =>
             match (match e with JNull => Ok "" | _ => ToString e end) with
             | Throw err => Throw err
             | Ok s =>
                 match go r false with
                 | Throw err => Throw err
                 | Ok rest =>
                     Ok ((if first then "" else ",") +:+ s +:+ rest)
                 end
             end
         end) elems true
  | JObj members =>
      match lookup_key "toString" members with
      | Some _ => Throw cannot_convert
      | None => Ok "[object Object]"
      end
  end.

(** [String(v)] where [v] may be [undefined]. *)
Definition ToString_opt (o : option JSON) : Exc string :=
  match o with
  | Some v => ToString v
  | None => Ok "undefined"
  end.

(** The first character of a string, for [s[0]]. *)
Definition first_char (s : string) : option string :=
  match s with
  | EmptyString => None
  | String a _ =>
      let n := code a in
      let width : nat :=
        if n <? 192 then 1%nat else if n <? 224 then 2%nat
        else if n <? 240 then 3%nat else 4%nat in
      Some (JsString.take width s)
  end.

(** [v[k]] for the property names this service reads ([choices],
    [message], [content], [text], [rawText], [description], [socials],
    [id], [title], [metafields], [edges], [node], [key], [value] and
    the index [0]): none of them is defined on a prototype, so only own
    properties, array elements and string characters answer.  [None]
    stands for [undefined]. *)
Definition get_prop (v : JSON) (k : string) : option JSON :=
  match v with
  | JObj members => lookup_key k members
  | JArr elems props =>
      match array_index k with
      | Some n => nth_error elems (Z.to_nat n)
      | None => lookup_key k props
      end
  | JStr s =>
      if String.eqb k "0" then JStr <$> first_char s else None
  | _ => None
  end.

(** [o?.k]: [undefined] when [o] is [undefined] or [null]. *)
Definition opt_get (o : option JSON) (k : string) : option JSON :=
  match o with
  | Some v => get_prop v k
  | None => None
  end.

(** [k in v] for an object or array [v] and one of the names above. *)
Definition has_prop (k : string) (v : JSON) : bool :=
  match get_prop v k with
  | Some _ => true
  | None => false
  end.

(** [v[k] = x] for a name that is not an array index. *)
Definition set_prop (k : string) (x : JSON) (v : JSON) : JSON :=
  match v with
  | JObj members => JObj (obj_set k x members)
  | JArr elems props => JArr elems (obj_set k x props)
  | _ => v
  end.

(** *** [JSON.stringify] *)

Definition hex4 (u : Z) : string := Sha1.hex 4 u.

(** QuoteJSONString on the byte representation: the two-character
    escapes, [\u00xx] for the other control characters, and
    [\udxxx] for a lone surrogate. *)
Fixpoint quote_chars (l : list ascii) : list ascii :=
  match l with
  | [] => []
  | a :: r =>
      let n := code a in
      let esc (c : ascii) := "\"%char :: c :: quote_chars r in
      if n =? 34 then esc "034"%char
      else if n =? 92 then esc "\"%char
      else if n =? 8 then esc "b"%char
      else if n =? 12 then esc "f"%char
      else if n =? 10 then esc "n"%char
      else if n =? 13 then esc "r"%char
      else if n =? 9 then esc "t"%char
      else if n <? 32 then
        ("\"%char :: "u"%char :: chars (hex4 n) ++ quote_chars r)%list
      else
        match r with
        | b :: c :: r3 =>
            if (n =? 237) && (160 <=? code b) then
              let u := 53248 + (code b - 128) * 64 + (code c - 128) in
              ("\"%char :: "u"%char :: chars (hex4 u) ++ quote_chars r3)%list
            else a :: quote_chars r
        | _ => a :: quote_chars r
        end
  end.

Definition quote (s : string) : string :=
  dq +:+ of_chars (quote_chars (chars s)) +:+ dq.

(** [JSON.stringify(v)] for a value built from JSON text (no cycles,
    no functions, no [toJSON]); named properties of an array are not
    serialised. *)
Fixpoint stringify (v : JSON) : string :=
  match v with
  | JNull => "null"
  | JBool b => if b then "true" else "false"
  | JNum lexeme =>
      if Number_isFinite lexeme then Number_toString lexeme else "null"
  | JStr s => quote s
  | JArr elems _ =>
      "[" +:+ join "," (map stringify elems) +:+ "]"
  | JObj members =>
      "{" +:+ join ","
                (map (fun kv => quote (fst kv) +:+ ":" +:+ stringify (snd kv))
                     members)
          +:+ "}"
  end.

End WithPlatform.
End JsValue.

(* ===================================================================== *)
(** ** The Redis store *)
(* ===================================================================== *)

Module Redis.
Import JsString.

(** A key holds a string and, possibly, the instant (in milliseconds)
    at which it expires. *)
Record entry := mk_entry { value : string; expires : option Z }.

Inductive command : Type :=
| INCR (key : string)
| INCRBY (key : string) (increment : string)
| EXPIRE (key : string) (seconds : Z)
| GET (key : string)
| SETEX (key : string) (seconds : Z) (val : string).

Inductive reply : Type :=
| RInt (n : Z)
| RBulk (s : option string)
| RStatus.

(** A key is gone once the clock has passed the instant of its expiry. *)
Definition live (now : Z) (e : entry) : bool :=
  match expires e with
  | Some t => now <=? t
  | None => true
  end.

(** The entry of a key, if it has one that has not expired. *)
Definition lookup (now : Z) (db : gmap string entry) (key : string) : option entry :=
  match db !! key with
  | Some e => if live now e then Some e else None
  | None => None
  end.

Definition LLONG_MIN : Z := - 2 ^ 63.
Definition LLONG_MAX : Z := 2 ^ 63 - 1.

(** An integer as the store accepts it: the canonical decimal form of a
    signed 64-bit integer. *)
Definition string2ll (s : string) : option Z :=
  match to_Z s with
  | Some z => if (LLONG_MIN <=? z) && (z <=? LLONG_MAX) then Some z else None
  | None => None
  end.

Definition not_an_integer : JsError :=
  mkError "ReplyError" "ERR value is not an integer or out of range".

Definition would_overflow : JsError :=
  mkError "ReplyError" "ERR increment or decrement would overflow".

Definition invalid_expire : JsError :=
  mkError "ReplyError" "ERR invalid expire time in 'setex' command".

(** The value of a key is increased by [n]; a key without a live entry
    counts as 0 and gets no expiry, an entry keeps its own. *)
Definition incrby (now : Z) (key : string) (n : Z) (db : gmap string entry)
  : Exc (reply * gmap string entry) :=
  let old := lookup now db key in
  match string2ll (default "0" (value <$> old)) with
  | Some z =>
      if (n <? 0) && (z <? 0) && (n <? LLONG_MIN - z)
         || (0 <? n) && (0 <? z) && (LLONG_MAX - z <? n)
      then Throw would_overflow
      else Ok (RInt (z + n), <[key := mk_entry (of_Z (z + n)) (old ≫= expires)]> db)
  | None => Throw not_an_integer
  end.

Definition exec (now : Z) (c : command) (db : gmap string entry)
  : Exc (reply * gmap string entry) :=
  match c with
  | INCR key => incrby now key 1 db
  | INCRBY key increment =>
      match string2ll increment with
      | Some n => incrby now key n db
      | None => Throw not_an_integer
      end
  | EXPIRE key secs =>
      match lookup now db key with
      | None => Ok (RInt 0, db)
      | Some e =>
          if secs <=? 0 then Ok (RInt 1, delete key db)
          else Ok (RInt 1, <[key := mk_entry (value e) (Some (now + 1000 * secs))]> db)
      end
  | GET key => Ok (RBulk (value <$> lookup now db key), db)
  | SETEX key secs v =>
      if secs <=? 0 then Throw invalid_expire
      else Ok (RStatus, <[key := mk_entry v (Some (now + 1000 * secs))]> db)
  end.

End Redis.

(* ===================================================================== *)
(** ** The world the service runs in *)
(* ===================================================================== *)

(** A response of the upstream endpoint: its status, its body ([None]
    when reading the body fails), the time it takes to read the body once
    the response has arrived, and what a second [res.text()] yields once
    [res.json()] has rejected. *)
Record Response := mkResponse {
  res_status : Z;
  res_body : option string;
  res_body_latency : Z;
  res_text_again : Exc string
}.

Definition res_ok (r : Response) : bool :=
  (200 <=? res_status r) && (res_status r <=? 299).

(** How one [fetch] call ends, and after how many milliseconds. *)
Inductive FetchOutcome : Type :=
| FetchNever
| FetchRejects (latency : Z) (e : JsError)
| FetchResolves (latency : Z) (r : Response).

(** What the service does to the outside, in order. *)
Inductive Event : Type :=
| EvConnect (ok : bool)
| EvCommand (c : Redis.command) (ok : bool)
| EvFetch (url prompt : string)
| EvAbort
| EvSleep (ms : Z)
| EvWarn (label detail : string).

Record World := mkWorld {
  now : Z;                            (* the clock, in milliseconds *)
  redis_ready : bool;                 (* redis.status === "ready" *)
  redis_db : gmap string Redis.entry;
  connects : list (option JsError);   (* how the coming connect() calls end *)
  faults : list (option JsError);     (* which of the coming commands reject *)
  upstream : list FetchOutcome;       (* how the coming fetch calls end *)
  trace : list Event
}.

(** Asynchronous code: a computation reads and changes the world, and
    either returns or throws. *)
Definition M (A : Type) : Type := World -> Exc A * World.

#[global] Instance M_ret : MRet M := fun A a w => (Ok a, w).
#[global] Instance M_bind : MBind M := fun A B f m w =>
  match m w with
  | (Ok a, w') => f a w'
  | (Throw e, w') => (Throw e, w')
  end.

Definition throw {A} (e : JsError) : M A := fun w => (Throw e, w).

(** [try { body } catch (err) { handler }]. *)
Definition try_catch {A} (body : M A) (handler : JsError -> M A) : M A :=
  fun w =>
    match body w with
    | (Ok a, w') => (Ok a, w')
    | (Throw e, w') => handler e w'
    end.

Definition lift {A} (x : Exc A) : M A := fun w => (x, w).

Definition with_trace (ev : Event) (w : World) : World :=
  mkWorld (now w) (redis_ready w) (redis_db w) (connects w) (faults w)
          (upstream w) (trace w ++ [ev]).

Definition advance (ms : Z) (w : World) : World :=
  mkWorld (now w + ms) (redis_ready w) (redis_db w) (connects w) (faults w)
          (upstream w) (trace w).

Definition emit (ev : Event) : M unit := fun w => (Ok tt, with_trace ev w).

Definition Date_now : M Z := fun w => (Ok (now w), w).

(** The delay [setTimeout] really uses: 1 ms when the argument is below
    1 or above 2^31 - 1. *)
Definition timer_delay (ms : Z) : Z :=
  if (1 <=? ms) && (ms <=? 2147483647) then ms else 1.

(** [await sleep(ms)]. *)
Definition sleep (ms : Z) : M unit :=
  fun w => (Ok tt, advance (timer_delay ms) (with_trace (EvSleep ms) w)).

(** [console.warn(label, detail)]. *)
Definition console_warn (label detail : string) : M unit :=
  emit (EvWarn label detail).

Definition redis_status_ready : M bool := fun w => (Ok (redis_ready w), w).

(** [await redis.connect()]. *)
Definition redis_connect : M unit := fun w =>
  let rest := tail (connects w) in
  match head (connects w) with
  | Some (Some e) =>
      (Throw e,
       with_trace (EvConnect false)
         (mkWorld (now w) (redis_ready w) (redis_db w) rest (faults w)
                  (upstream w) (trace w)))
  | _ =>
      (Ok tt,
       with_trace (EvConnect true)
         (mkWorld (now w) true (redis_db w) rest (faults w)
                  (upstream w) (trace w)))
  end.

(** One command sent to the store.  A command that rejects because the
    connection failed leaves the data as it was. *)
Definition redis_call (c : Redis.command) : M Redis.reply := fun w =>
  let rest := tail (faults w) in
  let w1 := mkWorld (now w) (redis_ready w) (redis_db w) (connects w) rest
                    (upstream w) (trace w) in
  match head (faults w) with
  | Some (Some e) => (Throw e, with_trace (EvCommand c false) w1)
  | _ =>
      match Redis.exec (now w) c (redis_db w) with
      | Ok (r, db') =>
          (Ok r,
           with_trace (EvCommand c true)
             (mkWorld (now w) (redis_ready w) db' (connects w) rest
                      (upstream w) (trace w)))
      | Throw e => (Throw e, with_trace (EvCommand c false) w1)
      end
  end.

(** The number the client returns for a reply. *)
Definition reply_value `{Platform} (r : Redis.reply) : JsString.JsNumber :=
  match r with
  | Redis.RInt n => reply_number n
  | _ => JsString.Finite 0
  end.

Definition redis_incr `{Platform} (key : string) : M JsString.JsNumber :=
  r ← redis_call (Redis.INCR key);
  mret (reply_value r).

(** [redis.incrby(key, increment)]: the client sends the argument as
    the text [String(increment)]. *)
Definition redis_incrby `{Platform} (key : string) (increment : string)
  : M JsString.JsNumber :=
  r ← redis_call (Redis.INCRBY key increment);
  mret (reply_value r).

Definition redis_expire (key : string) (seconds : Z) : M unit :=
  _ ← redis_call (Redis.EXPIRE key seconds); mret tt.

Definition redis_get (key : string) : M (option string) :=
  r ← redis_call (Redis.GET key);
  mret (match r with Redis.RBulk s => s | _ => None end).

Definition redis_setex (key : string) (seconds : Z) (v : string) : M unit :=
  _ ← redis_call (Redis.SETEX key seconds v); mret tt.

(** [await res.text()] or [await res.json()], as far as time goes: the
    body is read after [fetch] has resolved, when the timer has been
    cleared. *)
Definition read_body (res : Response) : M (option string) :=
  fun w => (Ok (res_body res), advance (res_body_latency res) w).

Definition AbortError : JsError :=
  mkError "AbortError" "This operation was aborted".

Definition fetch_failed : JsError := TypeError "fetch failed".

(** [setTimeout(() => controller.abort(), timeout)] followed by
    [await fetch(url, { ..., signal: controller.signal })]: the call is
    aborted when the timer fires before it settles. *)
Definition fetch (url prompt : string) (timeout : Z) : M Response := fun w =>
  let w1 := with_trace (EvFetch url prompt)
              (mkWorld (now w) (redis_ready w) (redis_db w) (connects w)
                       (faults w) (tail (upstream w)) (trace w)) in
  let aborted := (Throw AbortError,
                  advance (timer_delay timeout) (with_trace EvAbort w1)) in
  match head (upstream w) with
  | None => (Throw fetch_failed, w1)
  | Some FetchNever => aborted
  | Some (FetchRejects latency e) =>
      if timer_delay timeout <=? latency then aborted
      else (Throw e, advance latency w1)
  | Some (FetchResolves latency r) =>
      if timer_delay timeout <=? latency then aborted
      else (Ok r, advance latency w1)
  end.

(* ===================================================================== *)
(** ** app/utils/sanitize.server.js *)
(* ===================================================================== *)

Section Sanitize.
Context `{Platform}.

(** [sanitizeHTML(html)]: the empty string for a falsy argument,
    otherwise what the configured purifier returns. *)
Definition sanitizeHTML (html : string) : string :=
  if String.eqb html "" then "" else purify_sanitize html.

End Sanitize.

(* ===================================================================== *)
(** ** app/services/deepseek.server.js: module level *)
(* ===================================================================== *)

Import JsString Json JsValue.

(** The variables of [process.env] the module reads. *)
Record Env := mkEnv {
  env_DEEPSEEK_API_KEY : option string;
  env_DEEPSEEK_BASE_URL : option string;
  env_MAX_REQUESTS_PER_MINUTE : option string;
  env_FREE_TIER_LIMIT : option string
}.

(** [a > b]: false when one of the two is NaN. *)
Definition num_gt (a b : JsNumber) : bool :=
  match a, b with
  | NaN, _ | _, NaN => false
  | Finite x, Finite y => y <? x
  | Infinite na, Infinite nb => negb na && nb
  | Infinite na, Finite _ => negb na
  | Finite _, Infinite nb => nb
  end.

(** [a === b]. *)
Definition num_eq (a b : JsNumber) : bool :=
  match a, b with
  | Finite x, Finite y => x =? y
  | Infinite na, Infinite nb => Bool.eqb na nb
  | _, _ => false
  end.

(** [a >= b]. *)
Definition num_ge (a b : JsNumber) : bool := num_gt a b || num_eq a b.

(** [a - b], rounded as every result is. *)
Definition num_sub (a b : JsNumber) : JsNumber :=
  match a, b with
  | NaN, _ | _, NaN => NaN
  | Finite x, Finite y => round_double (x - y)
  | Infinite na, Infinite nb => if Bool.eqb na nb then NaN else Infinite na
  | Infinite na, Finite _ => Infinite na
  | Finite _, Infinite nb => Infinite (negb nb)
  end.

(** [String(a)]: the decimal digits of an integer below 2^53 in
    absolute value; beyond, the shortest decimal that reads back as the
    number. *)
Definition num_str (a : JsNumber) : string :=
  match a with
  | NaN => "NaN"
  | Finite x =>
      if Z.abs x <? MAX_EXACT then of_Z x
      else (if x <? 0 then "-" else "") +:+ big_to_string (Z.abs x)
  | Infinite negative => if negative then "-Infinity" else "Infinity"
  end.

Definition DEEPSEEK_BASE (env : Env) : string :=
  default "https://api.deepseek.com" (env_DEEPSEEK_BASE_URL env).

Definition RATE_LIMIT_PER_MIN (env : Env) : JsNumber :=
  parseInt (default "30" (env_MAX_REQUESTS_PER_MINUTE env)).

Definition MONTHLY_LIMIT (env : Env) : JsNumber :=
  parseInt (default "150" (env_FREE_TIER_LIMIT env)).

(** [sha1(s)]: the first 12 hexadecimal digits of the SHA-1 digest. *)
Definition sha1 (s : string) : string :=
  slice (Sha1.hexdigest s) 0 12.

(** The argument of [buildCacheKey]; [keywords] may be null. *)
Record CacheKeyArgs := mkCacheKeyArgs {
  ck_productId : string;
  ck_vibe : string;
  ck_format : string;
  ck_keywords : option string;
  ck_includeSocials : bool
}.

Definition bool_str (b : bool) : string := if b then "true" else "false".

(** The text that is hashed. *)
Definition cacheKeyText (a : CacheKeyArgs) : string :=
  ck_productId a +:+ "|" +:+ ck_vibe a +:+ "|" +:+ ck_format a +:+ "|"
    +:+ default "" (ck_keywords a) +:+ "|" +:+ bool_str (ck_includeSocials a).

Definition buildCacheKey (a : CacheKeyArgs) : string :=
  let small := sha1 (cacheKeyText a) in
  "deepseek:cache:" +:+ small.

Definition rateLimitKey (shop : string) : string :=
  "deepseek:ratelimit:" +:+ shop.

(** [extractJsonFromText], over the parser it calls. *)
Section Extractor.
Variable JSON_parse : string -> option JSON.

(** The loop over [i], from [i] on: [rest] is [cleaned.slice(i)]. *)
Fixpoint scan_blocks (cleaned : string) (start : nat)
         (rest : string) (i : nat) (depth : Z) : option JSON :=
  match rest with
  | EmptyString => None
  | String ch rest' =>
      if Ascii.eqb ch "{" then scan_blocks cleaned start rest' (S i) (depth + 1)
      else if Ascii.eqb ch "}" then
        let depth' := depth - 1 in
        if depth' =? 0 then
          let candidate := slice cleaned start (i + 1) in
          match JSON_parse candidate with
          | Some v => Some v
          | None => scan_blocks cleaned start rest' (S i) depth'
          end
        else scan_blocks cleaned start rest' (S i) depth'
      else scan_blocks cleaned start rest' (S i) depth
  end.

(** [cleaned.match(/\{[\s\S]*\}/)]: from the first opening brace to the
    last closing brace after it. *)
Definition greedy_match (cleaned : string) : option string :=
  match indexOf "{" cleaned with
  | None => None
  | Some a =>
      match lastIndexOf "}" (drop a cleaned) with
      | Some b => Some (slice cleaned a (a + b + 1))
      | None => None
      end
  end.

Definition extractJsonFromText_with (text : string) : Exc JSON :=
  if String.eqb text "" then Throw (Error "Empty response")
  else
    let cleaned := trim (strip_fences text) in
    match JSON_parse cleaned with
    | Some v => Ok v
    | None =>
        match indexOf "{" cleaned with
        | None => Throw (Error "No JSON object found in AI response")
        | Some start =>
            match scan_blocks cleaned start (drop start cleaned) start 0 with
            | Some v => Ok v
            | None =>
                match greedy_match cleaned ≫= JSON_parse with
                | Some v => Ok v
                | None =>
                    Throw (Error "Could not extract valid JSON from AI response")
                end
            end
        end
    end.

End Extractor.

Definition extractJsonFromText : string -> Exc JSON :=
  extractJsonFromText_with Json.parse.

Section Service.
Context `{Platform}.

(** [`${key}: ${value}`] for one metafield node. *)
Definition metafield_line (e : JSON) : Exc JSON :=
  match e with
  | JNull => Throw (TypeError "Cannot read properties of null (reading 'node')")
  | _ =>
      let node := match get_prop e "node" with
                  | Some JNull | None => e
                  | Some n => n
                  end in
      match ToString_opt (get_prop node "key") with
      | Throw err => Throw err
      | Ok key =>
          match get_prop node "value" with
          | Some (JStr v) => Ok (JStr (key +:+ ": " +:+ v))
          | Some v => Ok (JStr (key +:+ ": " +:+ stringify v))
          | None => Ok (JStr (key +:+ ": " +:+ "undefined"))
          end
      end
  end.

Fixpoint map_exc {A B} (f : A -> Exc B) (l : list A) : Exc (list B) :=
  match l with
  | [] => Ok []
  | a :: r =>
      match f a with
      | Throw e => Throw e
      | Ok b => match map_exc f r with
                | Throw e => Throw e
                | Ok bs => Ok (b :: bs)
                end
      end
  end.

(** [normalizeMetafields(product)]; [None] is an absent product.  Any
    error inside is caught and gives the empty list. *)
Definition normalizeMetafields (product : option JSON) : list JSON :=
  if negb (truthy_opt product) then []
  else
    match opt_get product "metafields" with
    | Some (JArr items _) => items
    | mf =>
        match opt_get (match mf with Some JNull => None | _ => mf end) "edges" with
        | Some (JArr edges _) =>
            match map_exc metafield_line edges with
            | Ok lines => lines
            | Throw _ => []
            end
        | _ => []
        end
    end.

(** [arr.join(sep)]: null elements render as the empty string. *)
Fixpoint array_join (sep : string) (l : list JSON) : Exc string :=
  match l with
  | [] => Ok ""
  | e :: r =>
      match (match e with JNull => Ok "" | _ => ToString e end) with
      | Throw err => Throw err
      | Ok s =>
          match r with
          | [] => Ok s
          | _ => match array_join sep r with
                 | Throw err => Throw err
                 | Ok rest => Ok (s +:+ sep +:+ rest)
                 end
          end
      end
  end.

(** What [String(x)] gives for the properties every object literal
    inherits from [Object.prototype] (the rendering of a built-in
    function is V8's). *)
Definition native_function (name : string) : string :=
  "function " +:+ name +:+ "() { [native code] }".

Definition Object_prototype : list (string * string) :=
  [ ("constructor", native_function "Object");
    ("__defineGetter__", native_function "__defineGetter__");
    ("__defineSetter__", native_function "__defineSetter__");
    ("hasOwnProperty", native_function "hasOwnProperty");
    ("__lookupGetter__", native_function "__lookupGetter__");
    ("__lookupSetter__", native_function "__lookupSetter__");
    ("isPrototypeOf", native_function "isPrototypeOf");
    ("propertyIsEnumerable", native_function "propertyIsEnumerable");
    ("toString", native_function "toString");
    ("valueOf", native_function "valueOf");
    ("__proto__", "[object Object]");
    ("toLocaleString", native_function "toLocaleString") ].

(** [`${map[key] ?? fallback}`] for an object literal [map] of strings:
    own properties first, then the inherited ones. *)
Definition literal_lookup (map : list (string * string)) (key fallback : string) : string :=
  match lookup_key key map with
  | Some text => text
  | None =>
      match lookup_key key Object_prototype with
      | Some text => text
      | None => fallback
      end
  end.

Definition vibeMap : list (string * string) :=
  [ ("edgy", "Bold. Punchy. Minimal fluff.");
    ("minimalist", "Ultra concise. Functional. No adjectives.");
    ("roast", "Real Talk. Brutally honest. Persuasive, not rude.") ].

Definition formatMap : list (string * string) :=
  [ ("paragraph", "Return HTML paragraphs using <p> tags (2-3 short paragraphs).");
    ("bullets", "Return an unordered list using <ul><li> ... </li></ul> with 4-6 concise bullets.") ].

Definition vibe_edgy : string := "Bold. Punchy. Minimal fluff.".
Definition format_paragraph : string :=
  "Return HTML paragraphs using <p> tags (2-3 short paragraphs).".

Definition nl : string := String "010" EmptyString.

Definition socials_line : string :=
  "Also generate a 'socials' object with keys 'twitter' and 'instagram'.".

Definition return_line : string :=
  "RETURN: Only valid JSON object with exactly these keys:".

Definition json_shape : string :=
  "{" +:+ nl
  +:+ "  " +:+ dq +:+ "description" +:+ dq +:+ ": " +:+ dq
  +:+ "<p>HTML product description here...</p>" +:+ dq +:+ "," +:+ nl
  +:+ "  " +:+ dq +:+ "socials" +:+ dq +:+ ": { " +:+ dq +:+ "twitter" +:+ dq
  +:+ ": " +:+ dq +:+ "..." +:+ dq +:+ ", " +:+ dq +:+ "instagram" +:+ dq
  +:+ ": " +:+ dq +:+ "..." +:+ dq +:+ " }  // or null" +:+ nl
  +:+ "}".

Definition closing_line : string :=
  "Do NOT include Markdown fenced code blocks. Do NOT include any explanation text. Just return JSON.".

(** The argument of [buildPrompt]. *)
Record PromptArgs := mkPromptArgs {
  pa_product : option JSON;
  pa_vibe : string;
  pa_format : string;
  pa_keywords : option string;
  pa_includeSocials : bool
}.

Definition keywords_line (keywords : option string) : string :=
  match keywords with
  | Some k => if String.eqb k "" then "" else "SEO Keywords: " +:+ k
  | None => ""
  end.

(** The array [instructions] before [.filter(Boolean)]. *)
Definition instruction_lines (title metafields oldDescription : string)
           (a : PromptArgs) : list string :=
  [ "Title: " +:+ title;
    "Meta: " +:+ metafields;
    "Old Description: "
      +:+ (if String.eqb oldDescription "" then "None" else oldDescription);
    "Tone: " +:+ literal_lookup vibeMap (pa_vibe a) vibe_edgy;
    "Format: " +:+ literal_lookup formatMap (pa_format a) format_paragraph;
    keywords_line (pa_keywords a);
    (if pa_includeSocials a then socials_line else "");
    "";
    return_line;
    json_shape;
    closing_line ].

(** [.filter(Boolean)] on strings. *)
Definition filter_Boolean (l : list string) : list string :=
  List.filter (fun s => negb (String.eqb s "")) l.

(** The message of the TypeError for a call of [replace] on a value that
    has no such method (the wording is V8's, which prints the callee). *)
Definition not_a_function : string :=
  "(product?.description ?? " +:+ dq +:+ dq +:+ ").replace is not a function".

(** [(product?.description ?? "").replace(/\n/g, " ")]: only a string has
    a [replace] method. *)
Definition oldDescription_of (product : option JSON) : Exc string :=
  match opt_get product "description" with
  | Some JNull | None => Ok ""
  | Some (JStr d) => Ok (newlines_to_spaces d)
  | Some _ => Throw (TypeError not_a_function)
  end.

(** [metafieldsArray.length ? metafieldsArray.join(", ") : "None"]. *)
Definition metafields_text (metafieldsArray : list JSON) : Exc string :=
  match metafieldsArray with
  | [] => Ok "None"
  | _ => array_join ", " metafieldsArray
  end.

(** The lines of the prompt, after the filter.  The statements run in
    the order of the source: the old description, the metafields, and
    then the template that renders the title. *)
Definition promptLines (a : PromptArgs) : Exc (list string) :=
  let product := match pa_product a with Some JNull => None | p => p end in
  let title := default (JStr "Untitled")
                 (match opt_get product "title" with
                  | Some JNull => None
                  | t => t
                  end) in
  oldDescription ← oldDescription_of product;
  metafields ← metafields_text (normalizeMetafields (pa_product a));
  title_text ← ToString title;
  mret (filter_Boolean
          (instruction_lines title_text metafields oldDescription a)).

(** [buildPrompt({ product, vibe, format, keywords, includeSocials })]. *)
Definition buildPrompt (a : PromptArgs) : Exc string :=
  match promptLines a with
  | Ok lines => Ok (join nl lines)
  | Throw err => Throw err
  end.

End Service.

(* ===================================================================== *)
(** ** The class DeepSeekService *)
(* ===================================================================== *)

Record ServiceOpts := mkOpts {
  opt_baseUrl : option string;
  opt_apiKey : option string;
  opt_model : option string;
  opt_maxRetries : option Z;
  opt_timeout : option Z
}.

Record DeepSeekService := mkService {
  baseUrl : string;
  apiKey : option string;
  model : string;
  maxRetries : Z;
  timeout : Z
}.

Definition no_opts : ServiceOpts := mkOpts None None None None None.

(** [new DeepSeekService(opts)]. *)
Definition constructor (env : Env) (opts : ServiceOpts) : DeepSeekService :=
  mkService
    (default (DEEPSEEK_BASE env) (opt_baseUrl opts))
    (match opt_apiKey opts with
     | Some k => Some k
     | None => env_DEEPSEEK_API_KEY env
     end)
    (default "deepseek-chat" (opt_model opts))
    (default 3 (opt_maxRetries opts))
    (default 25000 (opt_timeout opts)).

Record RateLimit := mkRateLimit { rl_allowed : bool; rl_remaining : JsNumber }.

Record MonthlyLimit := mkMonthlyLimit {
  ml_allowed : bool;
  ml_used : JsNumber;
  ml_limit : JsNumber
}.

(** The argument of [generateDescription], defaults applied. *)
Record GenerateArgs := mkGenerateArgs {
  product : option JSON;
  vibe : string;
  format : string;
  keywords : option string;
  includeSocials : bool;
  shop : option string
}.

(** ToBoolean of a string that may be null. *)
Definition present (s : option string) : bool :=
  match s with
  | Some x => negb (String.eqb x "")
  | None => false
  end.

Section Methods.
Context `{Platform}.
Variable env : Env.
Variable this : DeepSeekService.

Definition usageKey (shop : string) : M string :=
  t ← Date_now;
  mret ("deepseek:usage:" +:+ shop +:+ ":" +:+ Date_isoMonth t).

Definition _ensureRedis : M bool :=
  ready ← redis_status_ready;
  if ready : bool then mret true
  else
    try_catch
      (_ ← redis_connect; mret true)
      (fun err =>
         _ ← console_warn "Redis unavailable:" (err_message err);
         mret false).

Definition checkRateLimit (shop : option string) : M RateLimit :=
  let open := mkRateLimit true (RATE_LIMIT_PER_MIN env) in
  if negb (present shop) then mret open
  else
    ok ← _ensureRedis;
    if negb ok then mret open
    else
      try_catch
        (let key := rateLimitKey (default "" shop) in
         count ← redis_incr key;
         _ ← (if num_eq count (Finite 1) then redis_expire key 60 else mret tt);
         if num_gt count (RATE_LIMIT_PER_MIN env)
         then mret (mkRateLimit false (Finite 0))
         else mret (mkRateLimit true (num_sub (RATE_LIMIT_PER_MIN env) count)))
        (fun err =>
           _ ← console_warn "Rate limit check failed:" (err_message err);
           mret open).

Definition checkMonthlyLimit (shop : option string) : M MonthlyLimit :=
  let open := mkMonthlyLimit true (Finite 0) (MONTHLY_LIMIT env) in
  if negb (present shop) then mret open
  else
    ok ← _ensureRedis;
    if negb ok then mret open
    else
      try_catch
        (key ← usageKey (default "" shop);
         stored ← redis_get key;
         let used := parseInt (default "0" stored) in
         if num_ge used (MONTHLY_LIMIT env)
         then mret (mkMonthlyLimit false used (MONTHLY_LIMIT env))
         else mret (mkMonthlyLimit true used (MONTHLY_LIMIT env)))
        (fun err =>
           _ ← console_warn "Monthly usage check failed:" (err_message err);
           mret open).

Definition incrementUsage (shop : option string) (increment : JsNumber) : M unit :=
  if negb (present shop) then mret tt
  else
    ok ← _ensureRedis;
    if negb ok then mret tt
    else
      try_catch
        (key ← usageKey (default "" shop);
         _ ← redis_incrby key (num_str increment);
         t ← Date_now;
         let next := Date_monthAfterNext t in
         let ttl := (next - t) / 1000 in
         redis_expire key ttl)
        (fun err => console_warn "incrementUsage failed:" (err_message err)).

(** [this.baseUrl.replace(/\/$/, "")]. *)
Definition strip_trailing_slash (s : string) : string :=
  match rev (chars s) with
  | "/"%char :: r => of_chars (rev r)
  | _ => s
  end.

(** The text the model returned, out of the payload. *)
Definition aiText_of (payload : JSON) : Exc string :=
  let first := opt_get (opt_get (Some payload) "choices") "0" in
  let content := opt_get (opt_get first "message") "content" in
  if truthy_opt content then ToString_opt content
  else
    let text := opt_get first "text" in
    if truthy_opt text then ToString_opt text
    else
      let rawText := opt_get (Some payload) "rawText" in
      if truthy_opt rawText then ToString_opt rawText
      else Ok (stringify payload).

(** The defaults for the two keys of a result. *)
Definition normalize_keys (parsed : JSON) : JSON :=
  let p1 := if has_prop "description" parsed then parsed
            else set_prop "description" (JStr "") parsed in
  if has_prop "socials" p1 then p1 else set_prop "socials" JNull p1.

Definition is_object (v : JSON) : bool :=
  match v with
  | JArr _ _ | JObj _ => true
  | _ => false
  end.

(** [await res.json().catch(async () => ({ rawText: await res.text() }))]. *)
Definition payload_of (res : Response) : Exc JSON :=
  match res_body res ≫= Json.parse with
  | Some p => Ok p
  | None =>
      txt ← res_text_again res;
      mret (JObj [("rawText", JStr txt)])
  end.

(** What [_callDeepSeekHTTP] makes of a response whose status is ok:
    the payload, the text of the model in it, the object extracted
    from that text, its two keys defaulted. *)
Definition interpret_response (res : Response) : Exc JSON :=
  payload ← payload_of res;
  aiText ← aiText_of payload;
  parsed ← extractJsonFromText aiText;
  if negb (truthy parsed) || negb (is_object parsed)
  then Throw (Error "AI returned invalid JSON object")
  else mret (normalize_keys parsed).

Definition endpoint : string :=
  strip_trailing_slash (baseUrl this) +:+ "/chat/completions".

Definition _callDeepSeekHTTP (prompt : string) : M JSON :=
  if negb (present (apiKey this))
  then throw (Error "DeepSeek API key is not configured")
  else
    try_catch
      (res ← fetch endpoint prompt (timeout this);
       if negb (res_ok res) then
         body ← read_body res;
         let txt := default "" body in
         throw (Error ("DeepSeek HTTP " +:+ of_Z (res_status res) +:+ ": " +:+ txt))
       else
         _ ← read_body res;
         lift (interpret_response res))
      (fun err =>
         if String.eqb (err_name err) "AbortError"
         then throw (Error "DeepSeek request timed out")
         else throw err).

(** [if (result?.description) result.description =
    sanitizeHTML(String(result.description))]. *)
Definition sanitize_description (result : JSON) : Exc JSON :=
  match get_prop result "description" with
  | Some d =>
      if truthy d then
        match ToString d with
        | Ok s => Ok (set_prop "description" (JStr (sanitizeHTML s)) result)
        | Throw err => Throw err
        end
      else Ok result
  | None => Ok result
  end.

(** One pass through the body of the [try] in the retry loop. *)
Definition attempt_once (a : GenerateArgs) (cacheKey prompt : string)
           (haveRedis : bool) : M JSON :=
  raw ← _callDeepSeekHTTP prompt;
  result ← lift (sanitize_description raw);
  _ ← (if haveRedis then
         try_catch (redis_setex cacheKey (60 * 60 * 24) (stringify result))
                   (fun _ => mret tt)
       else mret tt);
  _ ← (if present (shop a) then incrementUsage (shop a) (Finite 1) else mret tt);
  mret result.

Definition generation_failed (lastErr : option JsError) : JsError :=
  Error ("Generation failed: "
         +:+ match lastErr with
             | Some e => err_message e
             | None => "unknown error"
             end).

(** The [for] loop: [remaining] iterations from [attempt] on. *)
Fixpoint retry_loop (a : GenerateArgs) (cacheKey prompt : string)
         (haveRedis : bool) (remaining : nat) (attempt : Z)
         (lastErr : option JsError) : M JSON :=
  match remaining with
  | O => throw (generation_failed lastErr)
  | S remaining' =>
      try_catch
        (attempt_once a cacheKey prompt haveRedis)
        (fun err =>
           _ ← (if attempt <? maxRetries this then sleep (500 * attempt)
                else mret tt);
           retry_loop a cacheKey prompt haveRedis remaining' (attempt + 1)
                      (Some err))
  end.

(** The cache lookup: the parsed entry, if there is a usable one. *)
Definition cache_lookup (cacheKey : string) (haveRedis : bool) : M (option JSON) :=
  if haveRedis then
    try_catch
      (cached ← redis_get cacheKey;
       if present cached then mret (cached ≫= Json.parse) else mret None)
      (fun _ => mret None)
  else mret None.

(** [product?.id ?? "unknown"], as the template of [buildCacheKey]
    renders it. *)
Definition productId_of (product : option JSON) : Exc string :=
  match opt_get product "id" with
  | Some JNull | None => Ok "unknown"
  | Some v => ToString v
  end.

Definition generateDescription (a : GenerateArgs) : M JSON :=
  rl ← checkRateLimit (shop a);
  if negb (rl_allowed rl)
  then throw (Error "Rate limit exceeded. Try again shortly.")
  else
    ml ← checkMonthlyLimit (shop a);
    if negb (ml_allowed ml)
    then throw (Error ("Monthly limit reached: " +:+ num_str (ml_used ml)
                       +:+ "/" +:+ num_str (ml_limit ml)))
    else
      productId ← lift (productId_of (product a));
      let cacheKey :=
        buildCacheKey (mkCacheKeyArgs productId (vibe a) (format a)
                                      (keywords a) (includeSocials a)) in
      haveRedis ← _ensureRedis;
      cached ← cache_lookup cacheKey haveRedis;
      match cached with
      | Some v => mret v
      | None =>
          prompt ← lift (buildPrompt
                           (mkPromptArgs (product a) (vibe a) (format a)
                                         (keywords a) (includeSocials a)));
          retry_loop a cacheKey prompt haveRedis
                     (Z.to_nat (maxRetries this)) 1 None
      end.

End Methods.

(* ===================================================================== *)
(** ** The rest of app/services/deepseek.server.js *)
(* ===================================================================== *)

(** The reconnection policy given to the Redis client:
    [retryStrategy: (times) => (times > 5 ? null : Math.min(times * 200, 2000))];
    [None] stands for [null], which makes the client give up. *)
Definition retryStrategy (times : Z) : option Z :=
  if 5 <? times then None else Some (Z.min (times * 200) 2000).

(* ===================================================================== *)
(** ** The product as the route fetches it *)
(* ===================================================================== *)

(** One node of [metafields(first: 50) { edges { node { key value namespace } } }]. *)
Record Metafield := mkMetafield {
  mf_key : string;
  mf_value : string;
  mf_namespace : string
}.

Definition metafield_edge (m : Metafield) : JSON :=
  JObj [("node", JObj [("key", JStr (mf_key m));
                       ("value", JStr (mf_value m));
                       ("namespace", JStr (mf_namespace m))])].

(** The [product] of the query [GetProduct] of app/routes/generate.ts. *)
Definition graphql_product (gid title description descriptionHtml : string)
           (fields : list Metafield) : JSON :=
  JObj [("id", JStr gid);
        ("title", JStr title);
        ("description", JStr description);
        ("descriptionHtml", JStr descriptionHtml);
        ("metafields", JObj [("edges", JArr (map metafield_edge fields) [])])].

Definition metafield_text (m : Metafield) : string :=
  mf_key m +:+ ": " +:+ mf_value m.

(* ===================================================================== *)
(** ** app/services/history.server.ts *)
(* ===================================================================== *)

Module History.

(** [socials?: { twitter?: string; instagram?: string }]. *)
Record Socials := mkSocials {
  twitter : option string;
  instagram : option string
}.

(** [Omit<HistoryEntry, "id" | "createdAt">], what a caller hands to
    [addHistoryEntry]. *)
Record EntryFields := mkFields {
  productId : string;
  productTitle : string;
  description : string;
  vibe : string;
  format : string;
  keywords : option string;
  includeSocials : bool;
  socials : option Socials
}.

(** [interface HistoryEntry]: the fields given, [id] and [createdAt]. *)
Record HistoryEntry := mkEntry {
  fields : EntryFields;
  id : string;
  createdAt : string
}.

(** The two conversions of [Date] the module uses: [new
    Date(t).toISOString()], and [new Date(s).getTime()], where [None]
    stands for NaN. *)
Class Calendar := {
  Date_toISOString : Z -> string;
  Date_getTime : string -> option Z
}.

(** [array.sort(cmp)]: the sort is stable; its result is specified for
    a comparator that is consistent, as the one of [getHistory] is on
    entries whose dates are valid. *)
Fixpoint insert_sorted {A} (cmp : A -> A -> Z) (x : A) (sorted : list A) : list A :=
  match sorted with
  | [] => [x]
  | y :: r => if 0 <? cmp y x then x :: sorted else y :: insert_sorted cmp x r
  end.

Definition Array_sort {A} (cmp : A -> A -> Z) (l : list A) : list A :=
  fold_left (fun acc x => insert_sorted cmp x acc) l [].

(** [array.slice(-n)]. *)
Definition slice_last {A} (n : nat) (l : list A) : list A :=
  skipn (length l - n) l.

Section Store.
Context `{Calendar}.

(** [(a, b) => new Date(b.createdAt).getTime() - new Date(a.createdAt).getTime()];
    a NaN counts as +0. *)
Definition newest_first (a b : HistoryEntry) : Z :=
  match Date_getTime (createdAt b), Date_getTime (createdAt a) with
  | Some tb, Some ta => tb - ta
  | _, _ => 0
  end.

(** The functions take the array [historyStore] and return their result
    with the array as they leave it. *)

(** [getHistory()]: the array is sorted in place, and it is the array
    itself that is returned. *)
Definition getHistory (historyStore : list HistoryEntry)
  : list HistoryEntry * list HistoryEntry :=
  let sorted := Array_sort newest_first historyStore in
  (sorted, sorted).

(** [addHistoryEntry(entry)] at the instant [now], where [random] is
    [Math.random().toString(36)]. *)
Definition addHistoryEntry (entry : EntryFields) (now : Z) (random : string)
           (historyStore : list HistoryEntry)
  : HistoryEntry * list HistoryEntry :=
  let newEntry :=
    mkEntry entry
            ("hist_" +:+ of_Z now +:+ "_" +:+ substring 2 9 random)
            (Date_toISOString now) in
  let pushed := (historyStore ++ [newEntry])%list in
  (newEntry,
   if (50 <? length pushed)%nat then slice_last 50 pushed else pushed).

(** [clearHistory()]. *)
Definition clearHistory (historyStore : list HistoryEntry)
  : unit * list HistoryEntry :=
  (tt, []).

(** [deleteHistoryEntry(id)]. *)
Definition deleteHistoryEntry (id0 : string) (historyStore : list HistoryEntry)
  : bool * list HistoryEntry :=
  let initialLength := length historyStore in
  let kept := List.filter (fun entry => negb (String.eqb (id entry) id0))
                          historyStore in
  ((length kept <? initialLength)%nat, kept).

(** Entries added one after the other. *)
Fixpoint add_all (batch : list (EntryFields * Z * string))
         (historyStore : list HistoryEntry) : list HistoryEntry :=
  match batch with
  | [] => historyStore
  | (entry, now, random) :: rest =>
      add_all rest (snd (addHistoryEntry entry now random historyStore))
  end.

(** The entries [add_all] creates. *)
Definition created (batch : list (EntryFields * Z * string)) : list HistoryEntry :=
  map (fun '(entry, now, random) => fst (addHistoryEntry entry now random [])) batch.

(** [a] is at least as recent as [b]. *)
Definition not_older (a b : HistoryEntry) : Prop :=
  exists ta tb,
    Date_getTime (createdAt a) = Some ta /\ Date_getTime (createdAt b) = Some tb
    /\ tb <= ta.

(** The date of an entry is valid. *)
Definition dated (e : HistoryEntry) : Prop := is_Some (Date_getTime (createdAt e)).

(** The instant an entry with a valid date was created at. *)
Definition time_of (e : HistoryEntry) : Z := default 0 (Date_getTime (createdAt e)).

End Store.

(** The order a comparator of the form [key(b) - key(a)] stands for. *)
Definition before {A} (key : A -> Z) (a b : A) : Prop := key b <= key a.

(** A calendar for the scenarios, which writes an instant as its number
    of milliseconds. *)
Definition scenario_calendar : Calendar := {|
  Date_toISOString := of_Z;
  Date_getTime := to_Z
|}.

Definition sample_fields (title : string) : EntryFields :=
  mkFields "gid://shopify/Product/1" title "<p>Text</p>" "edgy" "paragraph"
           None false None.

(** The entry created at the instant [t]. *)
Definition sample_entry (t : Z) : HistoryEntry :=
  fst (addHistoryEntry (H := scenario_calendar) (sample_fields "Mug") t
         "0.4fzyo82mvyr" []).

(** Entries created at the instants 1 to [n], in the order of creation. *)
Definition sample_store (n : nat) : list HistoryEntry :=
  map (fun i => sample_entry (Z.of_nat i)) (seq 1 n).

End History.

(* ===================================================================== *)
(** ** Vocabulary of the properties *)
(* ===================================================================== *)

(** *** Fingerprints *)

Definition sep_free (s : string) : Prop := indexOf "|" s = None.

(** Neither the product id, the vibe nor the format contains the
    separator. *)
Definition separable (a : CacheKeyArgs) : Prop :=
  sep_free (ck_productId a) /\ sep_free (ck_vibe a) /\ sep_free (ck_format a).

(** The five inputs agree, null keywords counting as empty. *)
Definition same_inputs (a b : CacheKeyArgs) : Prop :=
  ck_productId a = ck_productId b /\ ck_vibe a = ck_vibe b
  /\ ck_format a = ck_format b
  /\ default "" (ck_keywords a) = default "" (ck_keywords b)
  /\ ck_includeSocials a = ck_includeSocials b.

Definition collide_left : CacheKeyArgs :=
  mkCacheKeyArgs "p" "edgy" "paragraph" (Some "edgy|paragraph|k") false.

Definition collide_right : CacheKeyArgs :=
  mkCacheKeyArgs "p|edgy|paragraph" "edgy" "paragraph" (Some "k") false.

(** *** The scan of the extractor, said with prefixes *)

(** Opening braces minus closing braces. *)
Fixpoint brace_balance (s : string) : Z :=
  match s with
  | EmptyString => 0
  | String ch r =>
      (if Ascii.eqb ch "{" then 1 else if Ascii.eqb ch "}" then -1 else 0)
      + brace_balance r
  end.

Fixpoint last_char (s : string) : option ascii :=
  match s with
  | EmptyString => None
  | String ch EmptyString => Some ch
  | String _ r => last_char r
  end.

(** A candidate ends with a closing brace and is balanced. *)
Definition closes_balanced (p : string) : bool :=
  match last_char p with
  | Some ch => Ascii.eqb ch "}" && (brace_balance p =? 0)
  | None => false
  end.

(** The non-empty prefixes of [body], shortest first. *)
Definition prefixes (body : string) : list string :=
  map (fun n => JsString.take n body) (seq 1 (String.length body)).

(** The candidates of the scan: the balanced prefixes, from the first
    opening brace, that end with a closing brace. *)
Definition candidates (cleaned : string) (start : nat) : list string :=
  List.filter closes_balanced (prefixes (drop start cleaned)).

(** The first element on which [f] succeeds. *)
Fixpoint first_success {A B} (f : A -> option B) (l : list A) : option B :=
  match l with
  | [] => None
  | a :: r => match f a with
              | Some b => Some b
              | None => first_success f r
              end
  end.

(** *** Events *)

Definition is_fetch (ev : Event) : bool :=
  match ev with EvFetch _ _ => true | _ => false end.

Definition is_sleep (ev : Event) : bool :=
  match ev with EvSleep _ => true | _ => false end.

Definition is_usage_increment (ev : Event) : bool :=
  match ev with EvCommand (Redis.INCRBY _ _) _ => true | _ => false end.

Definition is_cache_write (ev : Event) : bool :=
  match ev with EvCommand (Redis.SETEX _ _ _) _ => true | _ => false end.


(** The events a run added to the trace. *)
Definition new_events (w w' : World) : list Event :=
  List.skipn (length (trace w)) (trace w').

(** The upstream calls and the waits of a run, in order. *)
Definition retry_events (evs : list Event) : list Event :=
  List.filter (fun ev => is_fetch ev || is_sleep ev) evs.

(** What [k] attempts look like, counted from attempt [n], when one
    attempt shows as [call]: an attempt, and between two attempts a wait
    of 500 ms times the number of the attempt that failed. *)
Fixpoint attempts_pattern (call : list Event) (k : nat) (n : Z) : list Event :=
  match k with
  | O => []
  | S O => call
  | S k' => (call ++ EvSleep (500 * n) :: attempts_pattern call k' (n + 1))%list
  end.

(** Events of the two limit checks, of the connection and of the cache
    lookup. *)
Definition is_check_event (ev : Event) : bool :=
  match ev with
  | EvConnect _ | EvWarn _ _ => true
  | EvCommand (Redis.INCR _) _ | EvCommand (Redis.EXPIRE _ _) _
  | EvCommand (Redis.GET _) _ => true
  | _ => false
  end.

(** Events of [incrementUsage]. *)
Definition is_usage_event (ev : Event) : bool :=
  match ev with
  | EvConnect _ | EvWarn _ _ => true
  | EvCommand (Redis.INCRBY _ _) _ | EvCommand (Redis.EXPIRE _ _) _ => true
  | _ => false
  end.

(** Events of the upstream calls and of the waits between them. *)
Definition is_upstream_event (ev : Event) : bool :=
  match ev with
  | EvFetch _ _ | EvAbort | EvSleep _ => true
  | _ => false
  end.

(** Events that follow a successful call: the write of [value] under
    [key] for 24 hours, and the usage increment. *)
Definition is_completion_event (key value : string) (ev : Event) : bool :=
  match ev with
  | EvCommand (Redis.SETEX k ttl v) _ =>
      String.eqb k key && (ttl =? 86400) && String.eqb v value
  | _ => is_usage_event ev
  end.

(** A computation adds only events that satisfy [Q] to the trace. *)
Definition emits {A} (Q : Event -> bool) (m : M A) : Prop :=
  forall w, exists evs,
    trace (snd (m w)) = (trace w ++ evs)%list
    /\ List.Forall (fun ev => Q ev = true) evs.


(** The responses still to come in [w'] are what is left of those of
    [w] after some were used. *)
Definition consumes (w w' : World) : Prop :=
  exists used, upstream w = (used ++ upstream w')%list.

(** A computation only uses up responses. *)
Definition consuming {A} (m : M A) : Prop := forall w, consumes w (snd (m w)).

(** A computation returns, whatever the world. *)
Definition never_throws {A} (m : M A) : Prop :=
  forall w, exists a, fst (m w) = Ok a.

Section Outcomes.
Context `{Platform}.
Variable this : DeepSeekService.

(** [result] is what the service makes of one of the responses in
    [ups]: the response is ok, its text was extracted into an object,
    the two keys were defaulted and the description sanitized. *)
Definition accepted_from (ups : list FetchOutcome) (result : JSON) : Prop :=
  exists latency res raw,
    In (FetchResolves latency res) ups
    /\ res_ok res = true
    /\ interpret_response res = Ok raw
    /\ sanitize_description raw = Ok result.

(** How one attempt shows among the upstream calls: one [fetch], or
    nothing when no API key is configured. *)
Definition call_events (prompt : string) : list Event :=
  if present (apiKey this) then [EvFetch (endpoint this) prompt] else [].

(** [err] is the failure of an attempt: thrown by the upstream call or
    by the sanitizing step. *)
Definition attempt_error (prompt : string) (err : JsError) : Prop :=
  (exists w w', _callDeepSeekHTTP this prompt w = (Throw err, w'))
  \/ (exists raw, sanitize_description raw = Throw err).

End Outcomes.

(** The key [usageKey(shop)] gives at the instant [t]. *)
Definition usageKey_text `{Platform} (shop : option string) (t : Z) : string :=
  "deepseek:usage:" +:+ default "" shop +:+ ":" +:+ Date_isoMonth t.

(** *** A platform and worlds for running scenarios *)

(** The tags the purifier is configured to keep ([ALLOWED_TAGS] of
    app/utils/sanitize.server.js; no attribute is allowed). *)
Definition ALLOWED_TAGS : list string :=
  ["p"; "br"; "ul"; "li"; "strong"; "b"; "em"; "i"; "h1"; "h2"; "h3"; "h4"; "ol"].

Definition is_alnum (a : ascii) : bool :=
  let n := code a in
  (48 <=? n) && (n <=? 57) || (65 <=? n) && (n <=? 90) || (97 <=? n) && (n <=? 122).

Fixpoint tag_name (l : list ascii) : list ascii :=
  match l with
  | a :: r => if is_alnum a then a :: tag_name r else []
  | [] => []
  end.

(** What is kept of the tag whose text between the angle brackets is
    [t]: the bare tag when its name is allowed, nothing otherwise. *)
Definition kept_tag (t : list ascii) : list ascii :=
  let '(closing, body) :=
    match t with
    | "/"%char :: b => (true, b)
    | _ => (false, t)
    end in
  let name := tag_name body in
  if existsb (String.eqb (of_chars name)) ALLOWED_TAGS
  then ("<"%char :: (if closing : bool then ["/"%char] else []) ++ name ++ [">"%char])%list
  else [].

(** A stand-in for the purifier in the scenarios: it keeps the text,
    keeps the allowed tags without their attributes and removes every
    other tag.  On the texts of the scenarios this is what the
    configured purifier does. *)
Fixpoint strip_tags (l : list ascii) (tag : option (list ascii)) : list ascii :=
  match l with
  | [] => match tag with
          | Some t => "<"%char :: rev t
          | None => []
          end
  | a :: r =>
      match tag with
      | None =>
          if Ascii.eqb a "<" then strip_tags r (Some []) else a :: strip_tags r None
      | Some t =>
          if Ascii.eqb a ">" then (kept_tag (rev t) ++ strip_tags r None)%list
          else strip_tags r (Some (a :: t))
      end
  end.

(** The platform of the scenarios: the stand-in purifier, number lexemes
    and a calendar that the scenarios never reach with a value that
    matters, and integer replies read as the nearest double. *)
Definition scenario_platform : Platform := {|
  purify_sanitize := fun html => of_chars (strip_tags (chars html) None);
  Number_truthy := fun lexeme => negb (String.eqb lexeme "0");
  Number_isFinite := fun _ => true;
  Number_toString := fun lexeme => lexeme;
  Date_isoMonth := fun _ => "2026-01";
  Date_monthAfterNext := fun t => t + 5184000000;
  reply_number := round_double;
  reply_number_exact := fun n Hn =>
    ltac:(unfold round_double; cbv zeta;
          rewrite (proj2 (Z.ltb_lt _ _) Hn); reflexivity)
|}.

Definition default_env : Env := mkEnv (Some "sk-test") None None None.

Definition default_service : DeepSeekService := constructor default_env no_opts.

(** A running store with no data, and nothing scripted. *)
Definition quiet_world : World :=
  mkWorld 0 true ∅ [] [] [] [].

Definition with_upstream (l : list FetchOutcome) (w : World) : World :=
  mkWorld (now w) (redis_ready w) (redis_db w) (connects w) (faults w) l (trace w).


Definition with_db (db : gmap string Redis.entry) (w : World) : World :=
  mkWorld (now w) (redis_ready w) db (connects w) (faults w) (upstream w) (trace w).

Definition without_trace (w : World) : World :=
  mkWorld (now w) (redis_ready w) (redis_db w) (connects w) (faults w) (upstream w) [].

(** A chat completion whose message content is [content]. *)
Definition completion (content : string) : Response :=
  mkResponse 200
    (Some (stringify (H := scenario_platform)
             (JObj [("choices",
                     JArr [JObj [("message", JObj [("content", JStr content)])]] [])])))
    0
    (Throw (TypeError "Body is unusable")).

Definition simple_request (shop : option string) : GenerateArgs :=
  mkGenerateArgs (Some (JObj [("id", JStr "gid://shopify/Product/1");
                              ("title", JStr "Mug")]))
                 "edgy" "paragraph" (Some "") false shop.

(** *** Repeated rate-limit checks *)

(** What the [n]th call of a window answers under the limit [L]. *)
Definition nth_answer (L n : Z) : RateLimit :=
  mkRateLimit (n <=? L) (if n <=? L then round_double (L - n) else Finite 0).

(** The time a list of gaps spans. *)
Definition span (gaps : list Z) : Z := fold_right Z.add 0 gaps.

Section RateCalls.
Context `{Platform}.
Variable env : Env.

(** The calls of one tenant, the next one [gap] milliseconds after the
    previous one; the result is that of the last call, with only its
    own events in the trace. *)
Fixpoint rate_calls (shop : option string) (gaps : list Z) (w : World)
  : Exc RateLimit * World :=
  match gaps with
  | [] => checkRateLimit env shop (without_trace w)
  | gap :: gaps' =>
      rate_calls shop gaps' (advance gap (snd (checkRateLimit env shop w)))
  end.


End RateCalls.



(** *** Texts for the extractor *)

Definition quoted (s : string) : string := dq +:+ s +:+ dq.

(** The object of the specification whose description contains braces. *)
Definition weird_text : string :=
  "{" +:+ quoted "description" +:+ ":" +:+ quoted "<p>{weird}</p>" +:+ ","
      +:+ quoted "socials" +:+ ":null}".

Definition weird_value : JSON :=
  JObj [("description", JStr "<p>{weird}</p>"); ("socials", JNull)].

(** The same object inside a sentence. *)
Definition wrapped_weird_text : string :=
  "Here you go: " +:+ weird_text +:+ " Enjoy!".

(** A string value that closes the braces too early: only the greedy
    match recovers the object. *)
Definition early_close_text : string :=
  "Result: {" +:+ quoted "description" +:+ ":" +:+ quoted "}" +:+ "}".

(** *** Worlds of the scenarios *)

(** Three answers of the model that contain no JSON, each after 10 ms. *)
Definition prose_world : World :=
  with_upstream (repeat (FetchResolves 10 (completion "no json here")) 3) quiet_world.

(** The upstream never answers. *)
Definition silent_world : World :=
  with_upstream [FetchNever; FetchNever; FetchNever] quiet_world.

Definition tenant : option string := Some "shop.example".

(** The key under which [simple_request] is cached. *)
Definition simple_key : string :=
  buildCacheKey (mkCacheKeyArgs "gid://shopify/Product/1" "edgy" "paragraph"
                                (Some "") false).

(** The tenant has used its 150 generations of the month, and the request
    is in the cache. *)
Definition exhausted_world : World :=
  with_db (<[simple_key := Redis.mk_entry weird_text (Some 86400000)]>
             (<["deepseek:usage:shop.example:2026-01" := Redis.mk_entry "150" None]> ∅))
          quiet_world.


(** The request is in the cache and the tenant is within its limits. *)
Definition cached_world : World :=
  with_db (<[simple_key := Redis.mk_entry weird_text (Some 86400000)]> ∅)
          quiet_world.

(** The model answers at once with the object of the specification. *)
Definition answering_world : World :=
  with_upstream [FetchResolves 10 (completion weird_text)] quiet_world.

(** The response arrives after 10 ms; its body takes a minute. *)
Definition slow_body_world : World :=
  with_upstream
    [FetchResolves 10
       (mkResponse 200 (res_body (completion weird_text)) 60000
                   (Throw (TypeError "Body is unusable")))]
    quiet_world.

(** An answer of the model whose description and captions carry markup
    that the purifier changes: an attribute, and tags that are not
    allowed. *)
Definition markup_value : JSON :=
  JObj [("description", JStr "<p class=x>Hi</p><a href=/x>more</a>");
        ("socials",
         JObj [("twitter", JStr "<b onclick=x>Hi</b><a href=/x>t</a>");
               ("instagram", JStr "<div>ig</div>")])].

Definition markup_text : string := stringify (H := scenario_platform) markup_value.

(** The model answers at once with that object. *)
Definition markup_world : World :=
  with_upstream [FetchResolves 10 (completion markup_text)] quiet_world.

(** The model answers at once with an empty JSON array. *)
Definition array_world : World :=
  with_upstream [FetchResolves 10 (completion "[]")] quiet_world.

(** An upstream call that has not settled when [delay] has elapsed. *)
Definition late (delay : Z) (o : FetchOutcome) : Prop :=
  match o with
  | FetchNever => True
  | FetchRejects latency _ | FetchResolves latency _ => delay <= latency
  end.

(* ===================================================================== *)
(** ** Vocabulary of the further properties *)
(* ===================================================================== *)

(** *** Counters *)

(** Commands that count: those of the rate limit and of the monthly
    usage. *)
Definition is_metering (ev : Event) : bool :=
  match ev with
  | EvCommand (Redis.INCR _) _ | EvCommand (Redis.INCRBY _ _) _
  | EvCommand (Redis.EXPIRE _ _) _ => true
  | _ => false
  end.

(** The other events. *)
Definition not_metering (ev : Event) : bool := negb (is_metering ev).

(** The key of the monthly counter of [shop] at the instant [t]. *)
Definition counter_of `{Platform} (shop : string) (w : World) : option Redis.entry :=
  Redis.lookup (now w) (redis_db w) (usageKey_text (Some shop) (now w)).

(** The number a stored entry counts as: [parseInt(stored ?? "0", 10)]. *)
Definition counted (e : option Redis.entry) : JsNumber :=
  parseInt (default "0" (Redis.value <$> e)).

(** The stored counter before an increment: absent, counting as 0, or
    the decimal rendering of [k]. *)
Definition counter_holds `{Platform} (shop : string) (w : World) (k : Z) : Prop :=
  (counter_of shop w = None /\ k = 0)
  \/ exists exp, counter_of shop w = Some (Redis.mk_entry (of_Z k) exp).

(** One step of reading a decimal numeral. *)
Definition step10 (acc : Z) (d : ascii) : Z := 10 * acc + digit_val d.

(** *** Invariants of the world *)

(** A computation keeps the property [P] of the world. *)
Definition preserves {A} (P : World -> Prop) (m : M A) : Prop :=
  forall w, P w -> P (snd (m w)).

(** Properties that no call to the store changes. *)
Definition store_blind (P : World -> Prop) : Prop :=
  (forall c, preserves P (redis_call c))
  /\ preserves P redis_connect
  /\ (forall label detail, preserves P (console_warn label detail)).

(** Properties that no upstream call and no wait changes. *)
Definition upstream_blind (P : World -> Prop) : Prop :=
  (forall url prompt timeout, preserves P (fetch url prompt timeout))
  /\ (forall ms, preserves P (sleep ms))
  /\ (forall res, preserves P (read_body res)).

(** The trace has grown from [tr] by events that satisfy [Q] only. *)
Definition grown (Q : Event -> bool) (tr : list Event) (w : World) : Prop :=
  exists evs, trace w = (tr ++ evs)%list /\ List.Forall (fun ev => Q ev = true) evs.

(** The store is connected and no command is scripted to fail. *)
Definition healthy (w : World) : Prop := redis_ready w = true /\ faults w = [].

(** The entry of [key] is [e]. *)
Definition holds (key : string) (e : option Redis.entry) (w : World) : Prop :=
  redis_db w !! key = e.

(** The key a command works on. *)
Definition key_of (c : Redis.command) : string :=
  match c with
  | Redis.INCR k | Redis.INCRBY k _ | Redis.EXPIRE k _ | Redis.GET k
  | Redis.SETEX k _ _ => k
  end.

(** What a successful attempt leaves in the store: the serialised result
    under the key of the request, for the next 24 hours. *)
Definition stored `{Platform} (ck : CacheKeyArgs) (result : JSON) (w : World) : Prop :=
  healthy w
  /\ holds (buildCacheKey ck)
           (Some (Redis.mk_entry (stringify result) (Some (now w + 86400000)))) w.

(** *** The phases of a run *)

(** What follows the cache lookup: the cached value, an error of the
    prompt, or the retry loop. *)
Inductive after_lookup `{Platform} (this : DeepSeekService) (a : GenerateArgs)
       (productId : string) (haveRedis : bool)
     : option JSON -> World -> Exc JSON -> World -> Prop :=
| CacheHit v w4 : after_lookup this a productId haveRedis (Some v) w4 (Ok v) w4
| PromptFailed w4 e :
    buildPrompt (mkPromptArgs (product a) (vibe a) (format a)
                              (keywords a) (includeSocials a)) = Throw e ->
    after_lookup this a productId haveRedis None w4 (Throw e) w4
| Generated w4 prompt r w' :
    buildPrompt (mkPromptArgs (product a) (vibe a) (format a)
                              (keywords a) (includeSocials a)) = Ok prompt ->
    retry_loop this a
      (buildCacheKey (mkCacheKeyArgs productId (vibe a) (format a)
                                     (keywords a) (includeSocials a)))
      prompt haveRedis (Z.to_nat (maxRetries this)) 1 None w4 = (r, w') ->
    after_lookup this a productId haveRedis None w4 r w'.

(** How a run of [generateDescription] went: refused by a check, failed
    to render the product id, served from the cache, failed to render the
    prompt, or handed to the retry loop. *)
Inductive phases `{Platform} (env : Env) (this : DeepSeekService) (a : GenerateArgs)
          (w : World) : Exc JSON -> World -> Prop :=
| RateRefused rl w1 :
    checkRateLimit env (shop a) w = (Ok rl, w1) -> rl_allowed rl = false ->
    phases env this a w (Throw (Error "Rate limit exceeded. Try again shortly.")) w1
| MonthRefused rl w1 ml w2 :
    checkRateLimit env (shop a) w = (Ok rl, w1) -> rl_allowed rl = true ->
    checkMonthlyLimit env (shop a) w1 = (Ok ml, w2) -> ml_allowed ml = false ->
    phases env this a w
           (Throw (Error ("Monthly limit reached: " +:+ num_str (ml_used ml)
                          +:+ "/" +:+ num_str (ml_limit ml)))) w2
| IdFailed rl w1 ml w2 e :
    checkRateLimit env (shop a) w = (Ok rl, w1) -> rl_allowed rl = true ->
    checkMonthlyLimit env (shop a) w1 = (Ok ml, w2) -> ml_allowed ml = true ->
    productId_of (product a) = Throw e ->
    phases env this a w (Throw e) w2
| Looked rl w1 ml w2 productId haveRedis w3 cached w4 r w' :
    checkRateLimit env (shop a) w = (Ok rl, w1) -> rl_allowed rl = true ->
    checkMonthlyLimit env (shop a) w1 = (Ok ml, w2) -> ml_allowed ml = true ->
    productId_of (product a) = Ok productId ->
    _ensureRedis w2 = (Ok haveRedis, w3) ->
    cache_lookup (buildCacheKey (mkCacheKeyArgs productId (vibe a) (format a)
                                                (keywords a) (includeSocials a)))
                 haveRedis w3 = (Ok cached, w4) ->
    after_lookup this a productId haveRedis cached w4 r w' ->
    phases env this a w r w'.

(** A run that ended before the retry loop: refused, served from the
    cache, or failed to render the product. *)
Definition ended_early (r : Exc JSON) : Prop :=
  r = Throw (Error "Rate limit exceeded. Try again shortly.")
  \/ (exists used lim,
         r = Throw (Error ("Monthly limit reached: " +:+ num_str used
                           +:+ "/" +:+ num_str lim)))
  \/ (exists e, r = Throw e /\ err_name e = "TypeError")
  \/ (exists v, r = Ok v).

(** The world after the waits that follow [n] failed attempts, the first
    of them being attempt number [attempt]. *)
Fixpoint waits (n : nat) (attempt : Z) (w : World) : World :=
  match n with
  | O => w
  | S n' =>
      waits n' (attempt + 1)
            (advance (timer_delay (500 * attempt))
                     (with_trace (EvSleep (500 * attempt)) w))
  end.

(** Two requests of the same shop for the same product id and the same
    options; the products themselves may differ. *)
Definition same_fingerprint `{Platform} (a b : GenerateArgs) : Prop :=
  shop a = shop b
  /\ (exists productId, productId_of (product a) = Ok productId
                        /\ productId_of (product b) = Ok productId)
  /\ vibe a = vibe b /\ format a = format b
  /\ keywords a = keywords b /\ includeSocials a = includeSocials b.

(** *** The parser on a text that starts with a brace *)

(** The frame at the bottom of the stack is that of an object. *)
Fixpoint bottom_obj (stk : list frame) : bool :=
  match stk with
  | [] => false
  | [FObj _ _] => true
  | [FArr _] => false
  | _ :: r => bottom_obj r
  end.

(** The outermost value being parsed is an object. *)
Definition in_object (st : pstate) : Prop :=
  match st with
  | SValue stk | SArrStart stk | SObjStart stk | SKey stk | SColon stk
  | SAfter stk => bottom_obj stk = true
  | SDone v => exists members, v = JObj members
  end.

(* ===================================================================== *)
(** ** Properties *)
(* ===================================================================== *)

(** *** Strings *)

Lemma append_cons a s t : String a s +:+ t = String a (s +:+ t).
Proof. reflexivity. Qed.

Lemma append_nil_l t : "" +:+ t = t.
Proof. reflexivity. Qed.

Lemma append_nil_r s : s +:+ "" = s.
Proof. induction s as [|a s IH]; [reflexivity|]. rewrite append_cons, IH. reflexivity. Qed.

Lemma append_assoc s t u : (s +:+ t) +:+ u = s +:+ (t +:+ u).
Proof.
  induction s as [|a s IH]; [reflexivity|].
  rewrite !append_cons, IH. reflexivity.
Qed.

Lemma length_append s t :
  String.length (s +:+ t) = (String.length s + String.length t)%nat.
Proof.
  induction s as [|a s IH]; [reflexivity|].
  rewrite append_cons. simpl. rewrite IH. reflexivity.
Qed.

Lemma chars_append s t : chars (s +:+ t) = (chars s ++ chars t)%list.
Proof.
  induction s as [|a s IH]; [reflexivity|].
  rewrite append_cons. unfold chars in *. simpl. rewrite IH. reflexivity.
Qed.

Lemma chars_inj s t : chars s = chars t -> s = t.
Proof.
  intros E. rewrite <- (string_of_list_ascii_of_string s),
              <- (string_of_list_ascii_of_string t).
  unfold chars in E. rewrite E. reflexivity.
Qed.

Lemma append_inv_tail s1 s2 t : s1 +:+ t = s2 +:+ t -> s1 = s2.
Proof.
  intros E. apply chars_inj. apply (f_equal chars) in E.
  rewrite !chars_append in E. eapply app_inv_tail. exact E.
Qed.

Lemma length_take n s : String.length (JsString.take n s) = Nat.min n (String.length s).
Proof.
  unfold JsString.take. revert s.
  induction n as [|n IH]; intros [|a s]; simpl; try reflexivity.
  rewrite IH. reflexivity.
Qed.

Lemma length_hex n x : String.length (Sha1.hex n x) = n.
Proof. induction n as [|n IH]; simpl; [reflexivity|]. rewrite IH. reflexivity. Qed.

Lemma length_hexdigest s : String.length (Sha1.hexdigest s) = 40%nat.
Proof.
  unfold Sha1.hexdigest. rewrite !length_append, !length_hex. reflexivity.
Qed.

Lemma length_sha1 s : String.length (sha1 s) = 12%nat.
Proof.
  unfold sha1, slice. change (substring 0 (12 - 0)) with (JsString.take 12).
  rewrite length_take, length_hexdigest. reflexivity.
Qed.

(** *** The fingerprint *)

Lemma sep_free_cons a s :
  sep_free (String a s) -> Ascii.eqb a "|" = false /\ sep_free s.
Proof.
  unfold sep_free. simpl. destruct (Ascii.eqb a "|"); [discriminate|].
  destruct (indexOf "|" s); [discriminate|]. auto.
Qed.

(** A text splits in one way only at the first separator. *)
Lemma split_at_sep s1 s2 r1 r2 :
  sep_free s1 -> sep_free s2 ->
  s1 +:+ "|" +:+ r1 = s2 +:+ "|" +:+ r2 ->
  s1 = s2 /\ r1 = r2.
Proof.
  revert s2. induction s1 as [|a s1 IH]; intros [|b s2] F1 F2 E.
  - rewrite !append_nil_l, !append_cons in E. injection E as E. auto.
  - apply sep_free_cons in F2 as [Hb _].
    rewrite append_nil_l, !append_cons in E. injection E as Eb _.
    subst b. discriminate.
  - apply sep_free_cons in F1 as [Ha _].
    rewrite append_nil_l, !append_cons in E. injection E as Ea _.
    subst a. discriminate.
  - apply sep_free_cons in F1 as [_ F1]. apply sep_free_cons in F2 as [_ F2].
    rewrite !append_cons in E. injection E as Eab E.
    destruct (IH s2 F1 F2 E) as [-> ->]. subst. auto.
Qed.

(** The last field is read off from the end. *)
Lemma split_at_flag k1 k2 b1 b2 :
  k1 +:+ "|" +:+ bool_str b1 = k2 +:+ "|" +:+ bool_str b2 ->
  k1 = k2 /\ b1 = b2.
Proof.
  intros E. destruct b1, b2.
  - split; [|reflexivity]. eapply append_inv_tail. exact E.
  - exfalso. apply (f_equal (fun s => rev (chars s))) in E.
    rewrite !chars_append, !rev_app_distr in E. simpl in E. discriminate.
  - exfalso. apply (f_equal (fun s => rev (chars s))) in E.
    rewrite !chars_append, !rev_app_distr in E. simpl in E. discriminate.
  - split; [|reflexivity]. eapply append_inv_tail. exact E.
Qed.

Lemma cacheKeyText_separable a b :
  separable a -> separable b ->
  cacheKeyText a = cacheKeyText b -> same_inputs a b.
Proof.
  intros (Pa & Va & Fa) (Pb & Vb & Fb) E. unfold cacheKeyText in E.
  apply split_at_sep in E as [E1 E]; [|assumption..].
  apply split_at_sep in E as [E2 E]; [|assumption..].
  apply split_at_sep in E as [E3 E]; [|assumption..].
  apply split_at_flag in E as [E4 E5].
  repeat split; assumption.
Qed.

Lemma cacheKeyText_same_inputs a b :
  same_inputs a b -> cacheKeyText a = cacheKeyText b.
Proof.
  intros (E1 & E2 & E3 & E4 & E5). unfold cacheKeyText.
  rewrite E1, E2, E3, E4, E5. reflexivity.
Qed.

(** C3, as the source has it: the fingerprint is a function of the five
    inputs, so equal inputs give equal fingerprints; it is the fixed
    prefix followed by 12 characters computed from the text
    productId|vibe|format|keywords|includeSocials alone, so inputs with
    the same text share their fingerprint; and when product id, vibe and
    format contain no separator, the text is the same exactly when the
    five inputs agree (null keywords counting as empty). *)
Theorem buildCacheKey_by_text (a b : CacheKeyArgs) :
  (a = b -> buildCacheKey a = buildCacheKey b)
  /\ (exists small, buildCacheKey a = "deepseek:cache:" +:+ small
                    /\ String.length small = 12%nat)
  /\ (cacheKeyText a = cacheKeyText b -> buildCacheKey a = buildCacheKey b)
  /\ (separable a -> separable b ->
      (cacheKeyText a = cacheKeyText b <-> same_inputs a b)).
Proof.
  split; [intros ->; reflexivity|].
  split; [exists (sha1 (cacheKeyText a)); split;
          [reflexivity | apply length_sha1]|].
  split; [intros E; unfold buildCacheKey; rewrite E; reflexivity|].
  intros Sa Sb. split.
  - apply cacheKeyText_separable; assumption.
  - apply cacheKeyText_same_inputs.
Qed.

Lemma buildCacheKey_by_text_witness :
  separable (mkCacheKeyArgs "p" "edgy" "bullets" None true)
  /\ separable (mkCacheKeyArgs "p" "edgy" "bullets" (Some "") true)
  /\ buildCacheKey (mkCacheKeyArgs "p" "edgy" "bullets" None true)
     = buildCacheKey (mkCacheKeyArgs "p" "edgy" "bullets" (Some "") true).
Proof.
  assert (Sa : separable (mkCacheKeyArgs "p" "edgy" "bullets" None true))
    by (repeat split; reflexivity).
  assert (Sb : separable (mkCacheKeyArgs "p" "edgy" "bullets" (Some "") true))
    by (repeat split; reflexivity).
  split; [exact Sa|]. split; [exact Sb|].
  destruct (buildCacheKey_by_text
              (mkCacheKeyArgs "p" "edgy" "bullets" None true)
              (mkCacheKeyArgs "p" "edgy" "bullets" (Some "") true))
    as (_ & _ & Htext & Hsep).
  apply Htext. apply (proj2 (Hsep Sa Sb)). repeat split; reflexivity.
Defined.

(** C3, as the claim states it, fails: two requests that differ in
    product id and keywords have the same fingerprint, because the
    separator may occur inside a field. *)
Lemma buildCacheKey_collision :
  collide_left <> collide_right
  /\ buildCacheKey collide_left = buildCacheKey collide_right.
Proof. split; [discriminate | reflexivity]. Qed.

(** *** The extractor *)

Example strip_fences_example :
  strip_fences ("Sure! ```json" +:+ nl +:+ weird_text +:+ nl +:+ "```")
  = "Sure! " +:+ nl +:+ weird_text +:+ nl.
Proof. reflexivity. Qed.

Example extract_wrapped :
  extractJsonFromText wrapped_weird_text = Ok weird_value.
Proof. vm_compute. reflexivity. Qed.

Example extract_early_close :
  Json.parse (trim (strip_fences early_close_text)) = None
  /\ scan_blocks Json.parse early_close_text 8 (drop 8 early_close_text) 8 0 = None
  /\ extractJsonFromText early_close_text = Ok (JObj [("description", JStr "}")]).
Proof. vm_compute. repeat split; reflexivity. Qed.

Lemma take_cons n a s : JsString.take (S n) (String a s) = String a (JsString.take n s).
Proof. reflexivity. Qed.

Lemma take_append_one p ch r :
  JsString.take (String.length p + 1) (p +:+ String ch r) = p +:+ String ch "".
Proof.
  induction p as [|a p IH].
  - rewrite !append_nil_l. simpl. unfold JsString.take. simpl.
    destruct r; reflexivity.
  - rewrite !append_cons. simpl String.length. simpl Nat.add.
    rewrite take_cons, IH. reflexivity.
Qed.

Lemma slice_drop cleaned start n :
  slice cleaned start (start + n) = JsString.take n (drop start cleaned).
Proof.
  unfold slice, JsString.take.
  replace (start + n - start)%nat with n by lia.
  revert cleaned. induction start as [|k IH]; intros cleaned.
  - destruct cleaned; reflexivity.
  - destruct cleaned as [|a s]; simpl.
    + destruct n; reflexivity.
    + apply IH.
Qed.

Lemma brace_balance_append p q :
  brace_balance (p +:+ q) = brace_balance p + brace_balance q.
Proof.
  induction p as [|a p IH]; [reflexivity|].
  rewrite append_cons. simpl. rewrite IH. lia.
Qed.

Lemma last_char_append_one p ch : last_char (p +:+ String ch "") = Some ch.
Proof.
  induction p as [|a p IH]; [reflexivity|].
  rewrite append_cons. simpl. rewrite IH.
  destruct (p +:+ String ch "") eqn:E; [|reflexivity].
  destruct p; discriminate.
Qed.

Lemma prefixes_step pfx ch rest :
  map (fun n => pfx +:+ JsString.take n (String ch rest))
      (seq 1 (String.length (String ch rest)))
  = (pfx +:+ String ch "")
      :: map (fun n => (pfx +:+ String ch "") +:+ JsString.take n rest)
             (seq 1 (String.length rest)).
Proof.
  simpl String.length. rewrite <- cons_seq. simpl map. f_equal.
  - destruct rest; reflexivity.
  - rewrite <- seq_shift, map_map. apply map_ext. intros n.
    rewrite take_cons, append_assoc. reflexivity.
Qed.

Section ExtractorFacts.
Variable JSON_parse : string -> option JSON.

(** The loop tries the candidates in order and stops at the first one
    that parses. *)
Lemma scan_blocks_prefixes cleaned start rest :
  forall pfx i depth,
    drop start cleaned = pfx +:+ rest ->
    i = (start + String.length pfx)%nat ->
    depth = brace_balance pfx ->
    scan_blocks JSON_parse cleaned start rest i depth
    = first_success JSON_parse
        (List.filter closes_balanced
           (map (fun n => pfx +:+ JsString.take n rest)
                (seq 1 (String.length rest)))).
Proof.
  induction rest as [|ch rest IH]; intros pfx i depth Hdrop Hi Hdepth.
  - reflexivity.
  - rewrite prefixes_step. cbn [List.filter scan_blocks].
    assert (Hnext : drop start cleaned = (pfx +:+ String ch "") +:+ rest)
      by (rewrite append_assoc; exact Hdrop).
    assert (Hlen : S i = (start + String.length (pfx +:+ String ch ""))%nat)
      by (rewrite length_append; simpl; lia).
    assert (Hbal : brace_balance (pfx +:+ String ch "")
                   = brace_balance pfx
                     + (if Ascii.eqb ch "{" then 1
                        else if Ascii.eqb ch "}" then -1 else 0))
      by (rewrite brace_balance_append; simpl; lia).
    unfold closes_balanced at 1. rewrite last_char_append_one, Hbal.
    destruct (Ascii.eqb ch "{") eqn:Eopen.
    + apply Ascii.eqb_eq in Eopen. subst ch. cbn [Ascii.eqb Bool.eqb andb].
      apply IH; [exact Hnext | exact Hlen | rewrite Hbal; subst; lia].
    + destruct (Ascii.eqb ch "}") eqn:Eclose; cbn [andb].
      * subst depth. replace (brace_balance pfx + -1) with (brace_balance pfx - 1) by lia.
        destruct (brace_balance pfx - 1 =? 0) eqn:Ezero.
        -- cbn [first_success].
           replace (slice cleaned start (i + 1)) with (pfx +:+ String ch "").
           2:{ subst i. rewrite <- Nat.add_assoc, slice_drop, Hdrop.
               symmetry. apply take_append_one. }
           destruct (JSON_parse (pfx +:+ String ch "")); [reflexivity|].
           apply IH; [exact Hnext | exact Hlen | rewrite Hbal; lia].
        -- apply IH; [exact Hnext | exact Hlen | rewrite Hbal; lia].
      * apply IH; [exact Hnext | exact Hlen | rewrite Hbal; lia].
Qed.

Lemma scan_blocks_candidates cleaned start :
  scan_blocks JSON_parse cleaned start (drop start cleaned) start 0
  = first_success JSON_parse (candidates cleaned start).
Proof.
  unfold candidates, prefixes.
  rewrite (scan_blocks_prefixes cleaned start (drop start cleaned) "" start 0);
    [reflexivity | reflexivity | simpl; lia | reflexivity].
Qed.

End ExtractorFacts.

Lemma chars_cons a s : chars (String a s) = a :: chars s.
Proof. reflexivity. Qed.

Lemma chars_of_chars l : chars (of_chars l) = l.
Proof. apply list_ascii_of_string_of_list_ascii. Qed.

Lemma indexOf_None c s : indexOf c s = None <-> ~ In c (chars s).
Proof.
  induction s as [|a s IH]; cbn [indexOf].
  - split; [intros _ []|reflexivity].
  - rewrite chars_cons. destruct (Ascii.eqb a c) eqn:E.
    + apply Ascii.eqb_eq in E. subst. split; [discriminate|].
      intros Hn. exfalso. apply Hn. left. reflexivity.
    + apply Ascii.eqb_neq in E. destruct (indexOf c s); simpl.
      * split; [discriminate|]. intros Hn. exfalso.
        assert (Hs : Some n <> None) by discriminate.
        apply Hs, IH. intros Hin. apply Hn. right. exact Hin.
      * split; [|reflexivity]. intros _ [Hc|Hin]; [congruence|].
        apply (proj1 IH); [reflexivity | exact Hin].
Qed.

Lemma strip_fences_cons a r :
  strip_fences (String a r)
  = match r with
    | String b (String c r3) =>
        if Ascii.eqb a "`" && Ascii.eqb b "`" && Ascii.eqb c "`" then
          match r3 with
          | String j (String s' (String o (String n r7))) =>
              if Ascii.eqb j "j" && Ascii.eqb s' "s" && Ascii.eqb o "o"
                 && Ascii.eqb n "n"
              then strip_fences r7
              else strip_fences r3
          | _ => strip_fences r3
          end
        else String a (strip_fences r)
    | _ => String a (strip_fences r)
    end.
Proof. destruct r as [|b [|c r3]]; reflexivity. Qed.

(** Removing fences only removes characters. *)
Lemma In_strip_fences_bounded n :
  forall s x, (String.length s <= n)%nat ->
              In x (chars (strip_fences s)) -> In x (chars s).
Proof.
  induction n as [|n IH]; intros s x Hlen Hin.
  - destruct s; [exact Hin | simpl in Hlen; lia].
  - destruct s as [|a r]; [exact Hin|].
    simpl in Hlen. rewrite strip_fences_cons in Hin.
    assert (Hkeep : In x (chars (String a (strip_fences r))) ->
                    In x (chars (String a r))).
    { rewrite !chars_cons. intros [Hx|Hx]; [left; exact Hx|right].
      apply IH; [lia | exact Hx]. }
    destruct r as [|b [|c r3]]; [exact (Hkeep Hin) | exact (Hkeep Hin) |].
    destruct (Ascii.eqb a "`" && Ascii.eqb b "`" && Ascii.eqb c "`");
      [|exact (Hkeep Hin)].
    assert (Hskip : In x (chars (strip_fences r3)) ->
                    In x (chars (String a (String b (String c r3))))).
    { intros Hx. rewrite !chars_cons. do 3 right.
      apply IH; [simpl in Hlen; lia | exact Hx]. }
    destruct r3 as [|j [|s' [|o [|m r7]]]]; try exact (Hskip Hin).
    destruct (Ascii.eqb j "j" && Ascii.eqb s' "s" && Ascii.eqb o "o"
              && Ascii.eqb m "n"); [|exact (Hskip Hin)].
    rewrite !chars_cons. do 7 right.
    apply IH; [simpl in Hlen; lia | exact Hin].
Qed.

Lemma In_strip_fences s x : In x (chars (strip_fences s)) -> In x (chars s).
Proof. apply (In_strip_fences_bounded (String.length s)). lia. Qed.

Lemma In_trimStart_bounded n :
  forall l (x : ascii), (length l <= n)%nat -> In x (trimStart_chars l) -> In x l.
Proof.
  induction n as [|n IH]; intros l x Hlen Hin.
  - destruct l; [exact Hin | simpl in Hlen; lia].
  - destruct l as [|a r]; [exact Hin|]. simpl in Hlen.
    cbn [trimStart_chars] in Hin.
    destruct (ws1 a); [right; apply IH; [lia | exact Hin]|].
    destruct r as [|b r2]; [exact Hin|].
    destruct (ws2 a b);
      [do 2 right; apply IH; [simpl in Hlen; lia | exact Hin]|].
    destruct r2 as [|c r3]; [exact Hin|].
    destruct (ws3 a b c); [|exact Hin].
    do 3 right. apply IH; [simpl in Hlen; lia | exact Hin].
Qed.

Lemma In_trimEnd_bounded n :
  forall l (x : ascii), (length l <= n)%nat -> In x (trimEnd_rev l) -> In x l.
Proof.
  induction n as [|n IH]; intros l x Hlen Hin.
  - destruct l; [exact Hin | simpl in Hlen; lia].
  - destruct l as [|a r]; [exact Hin|]. simpl in Hlen.
    cbn [trimEnd_rev] in Hin.
    destruct (ws1 a); [right; apply IH; [lia | exact Hin]|].
    destruct r as [|b r2]; [exact Hin|].
    destruct (ws2 b a);
      [do 2 right; apply IH; [simpl in Hlen; lia | exact Hin]|].
    destruct r2 as [|c r3]; [exact Hin|].
    destruct (ws3 c b a); [|exact Hin].
    do 3 right. apply IH; [simpl in Hlen; lia | exact Hin].
Qed.

(** Trimming only removes characters. *)
Lemma In_trim s x : In x (chars (trim s)) -> In x (chars s).
Proof.
  unfold trim. rewrite chars_of_chars. intros Hin.
  apply in_rev in Hin.
  apply (In_trimEnd_bounded _ _ _ (Nat.le_refl _)) in Hin.
  apply in_rev in Hin.
  apply (In_trimStart_bounded _ _ _ (Nat.le_refl _)) in Hin.
  exact Hin.
Qed.

Lemma no_brace_cleaned text :
  indexOf "{" text = None -> indexOf "{" (trim (strip_fences text)) = None.
Proof.
  rewrite !indexOf_None. intros Hn Hin. apply Hn.
  apply In_strip_fences, In_trim. exact Hin.
Qed.

(** C4, as the source has it.  An empty text is refused.  Otherwise the
    text is stripped of its fence markers and trimmed; if the whole of it
    parses, that value is returned.  If not, and it contains no opening
    brace, the extraction fails; this is the case in particular when the
    text given contains no opening brace.  If it contains one, the
    balanced prefixes that start at the first opening brace and end with
    a closing brace are tried in order, a candidate that does not parse
    being skipped, and the first that parses is returned; when none
    does, the span from the first opening brace to the last closing brace
    is tried, and the extraction fails when that does not parse either.
    The object of the specification, whose description contains braces,
    is extracted whole. *)
Theorem extractJsonFromText_stages (JSON_parse : string -> option JSON) (text : string) :
  let cleaned := trim (strip_fences text) in
  let extracted := extractJsonFromText_with JSON_parse text in
  (text = "" -> extracted = Throw (Error "Empty response"))
  /\ (text <> "" -> forall v, JSON_parse cleaned = Some v -> extracted = Ok v)
  /\ (text <> "" -> JSON_parse cleaned = None -> indexOf "{" text = None ->
      extracted = Throw (Error "No JSON object found in AI response"))
  /\ (text <> "" -> JSON_parse cleaned = None ->
      forall start, indexOf "{" cleaned = Some start ->
        extracted =
          match first_success JSON_parse (candidates cleaned start) with
          | Some v => Ok v
          | None =>
              match greedy_match cleaned ≫= JSON_parse with
              | Some v => Ok v
              | None =>
                  Throw (Error "Could not extract valid JSON from AI response")
              end
          end)
  /\ extractJsonFromText weird_text = Ok weird_value.
Proof.
  intros cleaned extracted. subst extracted. unfold extractJsonFromText_with.
  fold cleaned.
  split; [intros ->; reflexivity|].
  split.
  { intros Hne v Hv. apply String.eqb_neq in Hne. rewrite Hne, Hv. reflexivity. }
  split.
  { intros Hne Hnone Hbrace. apply String.eqb_neq in Hne. rewrite Hne, Hnone.
    subst cleaned. rewrite (no_brace_cleaned _ Hbrace). reflexivity. }
  split.
  { intros Hne Hnone start Hstart. apply String.eqb_neq in Hne.
    rewrite Hne, Hnone, Hstart, scan_blocks_candidates. reflexivity. }
  vm_compute. reflexivity.
Qed.

Lemma extractJsonFromText_stages_witness :
  "no object here" <> ""
  /\ Json.parse (trim (strip_fences "no object here")) = None
  /\ indexOf "{" "no object here" = None
  /\ extractJsonFromText "no object here"
     = Throw (Error "No JSON object found in AI response").
Proof.
  assert (Hne : "no object here" <> "") by discriminate.
  assert (Hnone : Json.parse (trim (strip_fences "no object here")) = None)
    by (vm_compute; reflexivity).
  assert (Hbrace : indexOf "{" "no object here" = None) by reflexivity.
  split; [exact Hne|]. split; [exact Hnone|]. split; [exact Hbrace|].
  exact (proj1 (proj2 (proj2 (extractJsonFromText_stages Json.parse "no object here")))
           Hne Hnone Hbrace).
Defined.

(** C4, as the claim states it, fails: a text without any opening brace
    that is JSON by itself is returned by the whole-string parse. *)
Lemma extract_array_without_brace :
  indexOf "{" "[]" = None
  /\ extractJsonFromText "[]" = Ok (JArr [] []).
Proof. split; vm_compute; reflexivity. Qed.

(** *** The prompt *)

Section PromptFacts.
Context `{Platform}.

(** The tone falls back to the text of [edgy] for a vibe that is
    neither a key of the map nor a property of [Object.prototype]. *)
Lemma tone_fallback vibe :
  lookup_key vibe vibeMap = None ->
  lookup_key vibe Object_prototype = None ->
  literal_lookup vibeMap vibe vibe_edgy = vibe_edgy.
Proof. intros H1 H2. unfold literal_lookup. rewrite H1, H2. reflexivity. Qed.

Lemma format_fallback fmt :
  lookup_key fmt formatMap = None ->
  lookup_key fmt Object_prototype = None ->
  literal_lookup formatMap fmt format_paragraph = format_paragraph.
Proof. intros H1 H2. unfold literal_lookup. rewrite H1, H2. reflexivity. Qed.

Lemma promptLines_inv a lines :
  promptLines a = Ok lines ->
  exists title metafields oldDescription,
    lines = filter_Boolean (instruction_lines title metafields oldDescription a).
Proof.
  unfold promptLines. intros Hl.
  destruct (oldDescription_of _) as [o|e]; cbn [mbind Exc_bind] in Hl;
    [|discriminate Hl].
  destruct (metafields_text _) as [m|e]; cbn [mbind Exc_bind] in Hl;
    [|discriminate Hl].
  destruct (ToString _) as [t|e]; cbn [mbind Exc_bind mret Exc_ret] in Hl;
    [|discriminate Hl].
  injection Hl as <-. exists t, m, o. reflexivity.
Qed.

(** No line of the prompt is blank. *)
Lemma promptLines_no_blank a lines :
  promptLines a = Ok lines -> List.Forall (fun l => l <> "") lines.
Proof.
  intros Hl. apply promptLines_inv in Hl as (t & m & o & ->).
  apply List.Forall_forall. intros l Hin. unfold filter_Boolean in Hin.
  apply filter_In in Hin as [_ Hne].
  apply negb_true_iff, String.eqb_neq in Hne. exact Hne.
Qed.

Lemma buildPrompt_join a :
  buildPrompt a = match promptLines a with
                  | Ok lines => Ok (join nl lines)
                  | Throw err => Throw err
                  end.
Proof. reflexivity. Qed.

End PromptFacts.

(** C9 fails on the code for a vibe that names a property every object
    literal inherits: [vibeMap[vibe]] is then the inherited value, the
    fallback is not taken, and the tone line carries the rendering of a
    built-in function instead of the text of [edgy]. *)
Theorem buildPrompt_inherited_vibe `{Platform} :
  lookup_key "constructor" vibeMap = None
  /\ promptLines (mkPromptArgs None "constructor" "paragraph" (Some "") false)
     = Ok [ "Title: Untitled";
            "Meta: None";
            "Old Description: None";
            "Tone: function Object() { [native code] }";
            "Format: " +:+ format_paragraph;
            return_line; json_shape; closing_line ].
Proof. split; reflexivity. Qed.

(** *** The store *)

Lemma to_Z_of_Z z : to_Z (of_Z z) = Some z.
Proof.
  unfold to_Z, of_Z. rewrite NilZero.isi.
  - rewrite DecimalZ.of_to, String.eqb_refl. reflexivity.
  - destruct z; simpl; try discriminate.
    intros [= E]. exact (DecimalPos.Unsigned.to_uint_nonnil _ E).
  - destruct z; simpl; try discriminate.
    intros [= E]. exact (DecimalPos.Unsigned.to_uint_nonnil _ E).
Qed.

Lemma string2ll_of_Z z :
  Redis.LLONG_MIN <= z <= Redis.LLONG_MAX -> Redis.string2ll (of_Z z) = Some z.
Proof.
  intros Hz. unfold Redis.string2ll. rewrite to_Z_of_Z.
  replace (Redis.LLONG_MIN <=? z) with true by lia.
  replace (z <=? Redis.LLONG_MAX) with true by lia. reflexivity.
Qed.

(** *** Numbers *)

Lemma round_double_exact z : Z.abs z < MAX_EXACT -> round_double z = Finite z.
Proof.
  intros Hz. unfold round_double. cbv zeta.
  rewrite (proj2 (Z.ltb_lt _ _) Hz). reflexivity.
Qed.

Lemma MAX_EXACT_value : MAX_EXACT = 9007199254740992.
Proof. reflexivity. Qed.

Lemma LLONG_MAX_value : Redis.LLONG_MAX = 9223372036854775807.
Proof. reflexivity. Qed.

Lemma LLONG_MIN_value : Redis.LLONG_MIN = -9223372036854775808.
Proof. reflexivity. Qed.

(** *** The monad *)

Lemma bind_run {A B} (m : M A) (f : A -> M B) w :
  (m ≫= f) w = match m w with
               | (Ok a, w') => f a w'
               | (Throw e, w') => (Throw e, w')
               end.
Proof. reflexivity. Qed.

Lemma try_catch_run {A} (body : M A) handler w :
  try_catch body handler w = match body w with
                             | (Ok a, w') => (Ok a, w')
                             | (Throw e, w') => handler e w'
                             end.
Proof. reflexivity. Qed.

Ltac world_simpl :=
  cbn [now redis_ready redis_db connects faults upstream trace
       with_trace advance head tail default from_option id mret M_ret negb
       Redis.value Redis.expires fst snd].

Tactic Notation "world_simpl" "in" "*" :=
  cbn [now redis_ready redis_db connects faults upstream trace
       with_trace advance head tail default from_option id mret M_ret negb
       Redis.value Redis.expires fst snd] in *.

(** *** The rate limit *)

Section RateLimitFacts.
Context `{Platform}.
Variable env : Env.
Variable L : Z.
Hypothesis limit : RATE_LIMIT_PER_MIN env = Finite L.

Lemma rate_answer count (w : World) :
  (if num_gt (Finite count) (RATE_LIMIT_PER_MIN env)
   then mret (mkRateLimit false (Finite 0))
   else mret (mkRateLimit true (num_sub (RATE_LIMIT_PER_MIN env) (Finite count)))
   : M RateLimit) w
  = (Ok (nth_answer L count), w).
Proof.
  rewrite limit. unfold nth_answer. cbn [num_gt num_sub].
  destruct (L <? count) eqn:E1, (count <=? L) eqn:E2; try reflexivity; lia.
Qed.

Lemma reply_one : reply_number 1 = Finite 1.
Proof. apply reply_number_exact. reflexivity. Qed.

(** The call that opens a window. *)
Lemma checkRateLimit_first shop w :
  shop <> "" ->
  redis_ready w = true -> faults w = [] ->
  Redis.lookup (now w) (redis_db w) (rateLimitKey shop) = None ->
  checkRateLimit env (Some shop) w
  = (Ok (nth_answer L 1),
     mkWorld (now w) true
       (<[rateLimitKey shop := Redis.mk_entry "1" (Some (now w + 60000))]>
          (<[rateLimitKey shop := Redis.mk_entry "1" None]> (redis_db w)))
       (connects w) []
       (upstream w)
       (trace w ++ [EvCommand (Redis.INCR (rateLimitKey shop)) true;
                    EvCommand (Redis.EXPIRE (rateLimitKey shop) 60) true])).
Proof.
  intros Hshop Hready Hfaults Hlookup.
  destruct w as [t ready db cs fs up tr]. world_simpl in *. subst ready fs.
  unfold checkRateLimit. cbn [present].
  apply String.eqb_neq in Hshop. rewrite Hshop. cbn [negb].
  rewrite bind_run. unfold _ensureRedis at 1.
  rewrite bind_run. unfold redis_status_ready. world_simpl.
  rewrite try_catch_run, bind_run. unfold redis_incr at 1.
  rewrite bind_run. unfold redis_call at 1. world_simpl.
  unfold Redis.exec, Redis.incrby. rewrite Hlookup.
  cbn [fmap option_fmap option_map default mbind option_bind].
  change (Redis.string2ll "0") with (Some 0). cbv beta iota.
  match goal with
  | |- context [if ?c then Throw Redis.would_overflow else _] =>
      change c with false
  end.
  cbv iota. change (0 + 1) with 1. change (of_Z 1) with "1". world_simpl.
  cbn [reply_value]. rewrite reply_one.
  change (num_eq (Finite 1) (Finite 1)) with true. cbv iota.
  rewrite bind_run. unfold redis_expire at 1.
  rewrite bind_run. unfold redis_call at 1. world_simpl.
  unfold Redis.exec, Redis.lookup. rewrite lookup_insert_eq.
  unfold Redis.live. world_simpl. change (60 <=? 0) with false. cbv iota.
  world_simpl. rewrite rate_answer. unfold with_trace. world_simpl.
  rewrite <- List.app_assoc. reflexivity.
Qed.

(** A later call of the same window. *)
Lemma checkRateLimit_next shop w k t :
  shop <> "" ->
  redis_ready w = true -> faults w = [] ->
  redis_db w !! rateLimitKey shop = Some (Redis.mk_entry (of_Z k) (Some t)) ->
  now w <= t -> 1 <= k -> k + 1 < MAX_EXACT ->
  checkRateLimit env (Some shop) w
  = (Ok (nth_answer L (k + 1)),
     mkWorld (now w) true
       (<[rateLimitKey shop := Redis.mk_entry (of_Z (k + 1)) (Some t)]> (redis_db w))
       (connects w) []
       (upstream w)
       (trace w ++ [EvCommand (Redis.INCR (rateLimitKey shop)) true])).
Proof.
  intros Hshop Hready Hfaults Hentry Hlive Hk Hsafe.
  rewrite MAX_EXACT_value in Hsafe.
  destruct w as [t0 ready db cs fs up tr]. world_simpl in *. subst ready fs.
  unfold checkRateLimit. cbn [present].
  apply String.eqb_neq in Hshop. rewrite Hshop. cbn [negb].
  rewrite bind_run. unfold _ensureRedis at 1.
  rewrite bind_run. unfold redis_status_ready. world_simpl.
  rewrite try_catch_run, bind_run. unfold redis_incr at 1.
  rewrite bind_run. unfold redis_call at 1. world_simpl.
  unfold Redis.exec, Redis.incrby, Redis.lookup. rewrite Hentry.
  unfold Redis.live. world_simpl.
  replace (t0 <=? t) with true by lia.
  cbn [fmap option_fmap option_map default mbind option_bind Redis.value
       Redis.expires id].
  rewrite string2ll_of_Z by (rewrite LLONG_MAX_value, LLONG_MIN_value; lia).
  cbv beta iota.
  match goal with
  | |- context [if ?c then Throw Redis.would_overflow else _] =>
      replace c with false
        by (rewrite LLONG_MAX_value;
            replace (9223372036854775807 - k <? 1) with false by lia;
            change (1 <? 0) with false; rewrite !andb_false_r; reflexivity)
  end.
  cbv iota. world_simpl.
  cbn [reply_value].
  rewrite reply_number_exact by (rewrite MAX_EXACT_value; lia).
  cbn [num_eq]. replace (k + 1 =? 1) with false by lia.
  rewrite bind_run. world_simpl.
  rewrite rate_answer. reflexivity.
Qed.

Lemma span_nonneg gaps : List.Forall (fun g => 0 <= g) gaps -> 0 <= span gaps.
Proof.
  induction 1 as [|g gaps Hg _ IH]; unfold span in *; simpl; lia.
Qed.

Lemma rate_calls_next shop gaps :
  forall w k t,
    shop <> "" ->
    redis_ready w = true -> faults w = [] ->
    redis_db w !! rateLimitKey shop = Some (Redis.mk_entry (of_Z k) (Some t)) ->
    1 <= k ->
    k + Z.of_nat (length gaps) + 1 < MAX_EXACT ->
    List.Forall (fun g => 0 <= g) gaps ->
    now w + span gaps <= t ->
    exists w',
      rate_calls env (Some shop) gaps w
      = (Ok (nth_answer L (k + Z.of_nat (length gaps) + 1)), w')
      /\ trace w' = [EvCommand (Redis.INCR (rateLimitKey shop)) true].
Proof.
  induction gaps as [|g gaps IH];
    intros w k t Hshop Hready Hfaults Hentry Hk Hsafe Hgaps Hspan.
  - cbn [rate_calls]. unfold span in Hspan. simpl in Hspan.
    cbn [length] in Hsafe.
    rewrite (checkRateLimit_next shop (without_trace w) k t);
      try assumption; [| simpl; lia | lia].
    replace (k + Z.of_nat (length (@nil Z)) + 1) with (k + 1) by (simpl; lia).
    eexists. split; reflexivity.
  - cbn [rate_calls]. inversion Hgaps as [|? ? Hg Hrest]; subst.
    unfold span in Hspan. cbn [fold_right] in Hspan. fold (span gaps) in Hspan.
    pose proof (span_nonneg gaps Hrest) as Hnn.
    cbn [length] in Hsafe.
    rewrite (checkRateLimit_next shop w k t); try assumption; [| lia | lia].
    cbn [snd].
    destruct (IH (advance g
                    (mkWorld (now w) true
                       (<[rateLimitKey shop := Redis.mk_entry (of_Z (k + 1)) (Some t)]>
                          (redis_db w))
                       (connects w) [] (upstream w)
                       (trace w ++ [EvCommand (Redis.INCR (rateLimitKey shop)) true])))
                 (k + 1) t) as (w' & Hrun & Htrace);
      try assumption; try reflexivity.
    + simpl. apply lookup_insert_eq.
    + lia.
    + lia.
    + simpl. lia.
    + exists w'. split; [|exact Htrace]. rewrite Hrun.
      replace (k + Z.of_nat (length (g :: gaps)) + 1)
        with (k + 1 + Z.of_nat (length gaps) + 1) by (cbn [length]; lia).
      reflexivity.
Qed.

Lemma rate_calls_window shop gaps w :
  shop <> "" ->
  redis_ready w = true -> faults w = [] ->
  Redis.lookup (now w) (redis_db w) (rateLimitKey shop) = None ->
  List.Forall (fun g => 0 <= g) gaps ->
  span gaps <= 60000 ->
  Z.of_nat (length gaps) + 1 < MAX_EXACT ->
  exists w',
    rate_calls env (Some shop) gaps w
    = (Ok (nth_answer L (Z.of_nat (length gaps) + 1)), w')
    /\ trace w'
       = EvCommand (Redis.INCR (rateLimitKey shop)) true
           :: (if Z.of_nat (length gaps) + 1 =? 1
               then [EvCommand (Redis.EXPIRE (rateLimitKey shop) 60) true]
               else []).
Proof.
  intros Hshop Hready Hfaults Hlookup Hgaps Hspan Hsafe.
  destruct gaps as [|g gaps].
  - cbn [rate_calls].
    rewrite (checkRateLimit_first shop (without_trace w)); try assumption.
    eexists. split; reflexivity.
  - cbn [rate_calls]. inversion Hgaps as [|? ? Hg Hrest]; subst.
    unfold span in Hspan. cbn [fold_right] in Hspan. fold (span gaps) in Hspan.
    pose proof (span_nonneg gaps Hrest) as Hnn.
    cbn [length] in Hsafe.
    rewrite (checkRateLimit_first shop w); try assumption. cbn [snd].
    edestruct (rate_calls_next shop gaps) as (w' & Hrun & Htrace);
      [exact Hshop | | | | | | exact Hrest | | ].
    7:{ exists w'. split.
        - rewrite Hrun.
          replace (Z.of_nat (length (g :: gaps)) + 1)
            with (1 + Z.of_nat (length gaps) + 1) by (cbn [length]; lia).
          reflexivity.
        - rewrite Htrace.
          destruct (Z.eqb_spec (Z.of_nat (length (g :: gaps)) + 1) 1) as [E|_];
            [cbn [length] in E; lia | reflexivity]. }
    + reflexivity.
    + reflexivity.
    + simpl. apply lookup_insert_eq.
    + lia.
    + lia.
    + simpl. lia.
Qed.

End RateLimitFacts.

(** *** Runs and their events *)

Lemma new_events_app w w' evs :
  trace w' = (trace w ++ evs)%list -> new_events w w' = evs.
Proof.
  intros E. unfold new_events. rewrite E.
  rewrite skipn_app, skipn_all, Nat.sub_diag. reflexivity.
Qed.

Lemma bind_inv {A B} (m : M A) (f : A -> M B) w r w' :
  (m ≫= f) w = (r, w') ->
  (exists a w1, m w = (Ok a, w1) /\ f a w1 = (r, w'))
  \/ (exists e, m w = (Throw e, w') /\ r = Throw e).
Proof.
  rewrite bind_run. destruct (m w) as [[a|e] w1]; intros E.
  - left. eauto.
  - right. injection E as <- <-. eauto.
Qed.

Lemma try_catch_inv {A} (body : M A) handler w r w' :
  try_catch body handler w = (r, w') ->
  (exists a, body w = (Ok a, w') /\ r = Ok a)
  \/ (exists e w1, body w = (Throw e, w1) /\ handler e w1 = (r, w')).
Proof.
  rewrite try_catch_run. destruct (body w) as [[a|e] w1]; intros E.
  - left. injection E as <- <-. eauto.
  - right. eauto.
Qed.

Section Emits.
Variable Q : Event -> bool.

Lemma emits_ret {A} (a : A) : emits Q (mret a).
Proof. intros w. exists []. split; [symmetry; apply app_nil_r | constructor]. Qed.

Lemma emits_throw {A} e : emits Q (throw e : M A).
Proof. intros w. exists []. split; [symmetry; apply app_nil_r | constructor]. Qed.

Lemma emits_lift {A} (x : Exc A) : emits Q (lift x).
Proof. intros w. exists []. split; [symmetry; apply app_nil_r | constructor]. Qed.

Lemma emits_bind {A B} (m : M A) (f : A -> M B) :
  emits Q m -> (forall a, emits Q (f a)) -> emits Q (m ≫= f).
Proof.
  intros Hm Hf w. rewrite bind_run.
  destruct (Hm w) as (evs1 & E1 & F1).
  destruct (m w) as [[a|e] w1]; simpl in E1.
  - destruct (Hf a w1) as (evs2 & E2 & F2).
    exists (evs1 ++ evs2)%list. split.
    + rewrite E2, E1, List.app_assoc. reflexivity.
    + apply Forall_app. split; assumption.
  - exists evs1. split; assumption.
Qed.

Lemma emits_try_catch {A} (body : M A) handler :
  emits Q body -> (forall e, emits Q (handler e)) ->
  emits Q (try_catch body handler).
Proof.
  intros Hb Hh w. rewrite try_catch_run.
  destruct (Hb w) as (evs1 & E1 & F1).
  destruct (body w) as [[a|e] w1]; simpl in E1.
  - exists evs1. split; assumption.
  - destruct (Hh e w1) as (evs2 & E2 & F2).
    exists (evs1 ++ evs2)%list. split.
    + rewrite E2, E1, List.app_assoc. reflexivity.
    + apply Forall_app. split; assumption.
Qed.

Lemma emits_emit ev : Q ev = true -> emits Q (emit ev).
Proof.
  intros Hq w. exists [ev]. split; [reflexivity | repeat constructor; exact Hq].
Qed.

Lemma emits_Date_now : emits Q Date_now.
Proof. intros w. exists []. split; [symmetry; apply app_nil_r | constructor]. Qed.

Lemma emits_redis_status_ready : emits Q redis_status_ready.
Proof. intros w. exists []. split; [symmetry; apply app_nil_r | constructor]. Qed.

Lemma emits_redis_connect :
  (forall ok, Q (EvConnect ok) = true) -> emits Q redis_connect.
Proof.
  intros Hq w. unfold redis_connect.
  destruct (head (connects w)) as [[e|]|];
    eexists [_]; (split; [reflexivity | repeat constructor; apply Hq]).
Qed.

Lemma emits_redis_call c :
  (forall ok, Q (EvCommand c ok) = true) -> emits Q (redis_call c).
Proof.
  intros Hq w. unfold redis_call.
  destruct (head (faults w)) as [[e|]|];
    [eexists [_]; (split; [reflexivity | repeat constructor; apply Hq]) | |];
    destruct (Redis.exec (now w) c (redis_db w)) as [[r db']|e];
    eexists [_]; (split; [reflexivity | repeat constructor; apply Hq]).
Qed.

Lemma emits_read_body res : emits Q (read_body res).
Proof. intros w. exists []. split; [symmetry; apply app_nil_r | constructor]. Qed.

Lemma emits_sleep ms : Q (EvSleep ms) = true -> emits Q (sleep ms).
Proof.
  intros Hq w. exists [EvSleep ms].
  split; [reflexivity | repeat constructor; exact Hq].
Qed.

Lemma emits_fetch url prompt timeout :
  Q (EvFetch url prompt) = true -> Q EvAbort = true ->
  emits Q (fetch url prompt timeout).
Proof.
  intros Hf Ha w. unfold fetch.
  destruct (head (upstream w)) as [[|latency e|latency r]|];
    try destruct (timer_delay timeout <=? latency);
    first [ exists [EvFetch url prompt];
            split; [reflexivity | repeat constructor; assumption]
          | exists [EvFetch url prompt; EvAbort];
            split; [simpl; rewrite <- List.app_assoc; reflexivity
                   | repeat constructor; assumption] ].
Qed.

Lemma emits_weaken {A} (Q' : Event -> bool) (m : M A) :
  (forall ev, Q' ev = true -> Q ev = true) -> emits Q' m -> emits Q m.
Proof.
  intros Himp Hm w. destruct (Hm w) as (evs & E & F).
  exists evs. split; [exact E|].
  eapply List.Forall_impl; [|exact F]. exact Himp.
Qed.

End Emits.

(** One structural step of a proof that a computation emits only [Q]. *)
Ltac emits_step :=
  match goal with
  | |- emits _ (_ ≫= _) => apply emits_bind; [|intros ?]
  | |- emits _ (try_catch _ _) => apply emits_try_catch; [|intros ?]
  | |- emits _ (mret _) => apply emits_ret
  | |- emits _ (throw _) => apply emits_throw
  | |- emits _ (lift _) => apply emits_lift
  | |- emits _ Date_now => apply emits_Date_now
  | |- emits _ redis_status_ready => apply emits_redis_status_ready
  | |- emits _ (read_body _) => apply emits_read_body
  | |- emits _ redis_connect => apply emits_redis_connect; intros ?; reflexivity
  | |- emits _ (redis_call _) => apply emits_redis_call; intros ?; reflexivity
  | |- emits _ (console_warn _ _) => apply emits_emit; reflexivity
  | |- emits _ (if ?b then _ else _) => destruct b
  | |- emits _ (match ?x with _ => _ end) => destruct x
  end.

Ltac emits_auto :=
  repeat (first [ emits_step
                | progress unfold redis_incr, redis_incrby, redis_expire,
                    redis_get, redis_setex ]).

Section NeverThrows.
Context `{Platform}.

Lemma never_throws_ret {A} (a : A) : never_throws (mret a : M A).
Proof. intros w. exists a. reflexivity. Qed.

Lemma never_throws_bind {A B} (m : M A) (f : A -> M B) :
  never_throws m -> (forall a, never_throws (f a)) -> never_throws (m ≫= f).
Proof.
  intros Hm Hf w. rewrite bind_run. destruct (Hm w) as (a & E).
  destruct (m w) as [[a'|e] w1]; simpl in E; [|discriminate].
  apply Hf.
Qed.

Lemma never_throws_try_catch {A} (body : M A) handler :
  (forall e, never_throws (handler e)) -> never_throws (try_catch body handler).
Proof.
  intros Hh w. rewrite try_catch_run.
  destruct (body w) as [[a|e] w1]; [exists a; reflexivity | apply Hh].
Qed.

Lemma never_throws_emit ev : never_throws (emit ev).
Proof. intros w. exists tt. reflexivity. Qed.

Lemma never_throws_run {A} (m : M A) w :
  never_throws m -> exists a w', m w = (Ok a, w').
Proof.
  intros Hm. destruct (Hm w) as (a & E).
  destruct (m w) as [r w']. simpl in E. subst r. eauto.
Qed.

Lemma _ensureRedis_never_throws : never_throws _ensureRedis.
Proof.
  unfold _ensureRedis. apply never_throws_bind.
  - intros w. exists (redis_ready w). reflexivity.
  - intros [|]; [apply never_throws_ret|].
    apply never_throws_try_catch. intros e.
    apply never_throws_bind; [apply never_throws_emit|].
    intros _. apply never_throws_ret.
Qed.

Lemma checkRateLimit_never_throws env shop :
  never_throws (checkRateLimit env shop).
Proof.
  unfold checkRateLimit. destruct (negb (present shop)); [apply never_throws_ret|].
  apply never_throws_bind; [apply _ensureRedis_never_throws|].
  intros ok. destruct (negb ok); [apply never_throws_ret|].
  apply never_throws_try_catch. intros e.
  apply never_throws_bind; [apply never_throws_emit|].
  intros _. apply never_throws_ret.
Qed.

Lemma checkMonthlyLimit_never_throws env shop :
  never_throws (checkMonthlyLimit env shop).
Proof.
  unfold checkMonthlyLimit. destruct (negb (present shop)); [apply never_throws_ret|].
  apply never_throws_bind; [apply _ensureRedis_never_throws|].
  intros ok. destruct (negb ok); [apply never_throws_ret|].
  apply never_throws_try_catch. intros e.
  apply never_throws_bind; [apply never_throws_emit|].
  intros _. apply never_throws_ret.
Qed.

Lemma incrementUsage_never_throws shop n :
  never_throws (incrementUsage shop n).
Proof.
  unfold incrementUsage. destruct (negb (present shop)); [apply never_throws_ret|].
  apply never_throws_bind; [apply _ensureRedis_never_throws|].
  intros ok. destruct (negb ok); [apply never_throws_ret|].
  apply never_throws_try_catch. intros e. apply never_throws_emit.
Qed.

Lemma cache_lookup_never_throws key haveRedis :
  never_throws (cache_lookup key haveRedis).
Proof.
  unfold cache_lookup. destruct haveRedis; [|apply never_throws_ret].
  apply never_throws_try_catch. intros e. apply never_throws_ret.
Qed.

Lemma cache_write_never_throws key ttl v :
  never_throws (try_catch (redis_setex key ttl v) (fun _ => mret tt)).
Proof. apply never_throws_try_catch. intros e. apply never_throws_ret. Qed.

(** *** What each method adds to the trace *)

Lemma _ensureRedis_emits : emits is_check_event _ensureRedis.
Proof. unfold _ensureRedis. emits_auto. Qed.

Lemma checkRateLimit_emits env shop :
  emits is_check_event (checkRateLimit env shop).
Proof.
  unfold checkRateLimit. emits_auto; try apply _ensureRedis_emits.
Qed.

Lemma usageKey_emits Q shop : emits Q (usageKey shop).
Proof. unfold usageKey. emits_auto. Qed.

Lemma checkMonthlyLimit_emits env shop :
  emits is_check_event (checkMonthlyLimit env shop).
Proof.
  unfold checkMonthlyLimit.
  emits_auto; try apply _ensureRedis_emits; try apply usageKey_emits.
Qed.

Lemma cache_lookup_emits key haveRedis :
  emits is_check_event (cache_lookup key haveRedis).
Proof. unfold cache_lookup. emits_auto. Qed.

Lemma _ensureRedis_emits_usage : emits is_usage_event _ensureRedis.
Proof. unfold _ensureRedis. emits_auto. Qed.

Lemma incrementUsage_emits shop n :
  emits is_usage_event (incrementUsage shop n).
Proof.
  unfold incrementUsage.
  emits_auto; try apply _ensureRedis_emits_usage; try apply usageKey_emits.
Qed.

Lemma cache_write_emits key value :
  emits (is_completion_event key value)
        (try_catch (redis_setex key (60 * 60 * 24) value) (fun _ => mret tt)).
Proof.
  apply emits_try_catch; [|intros e; apply emits_ret].
  unfold redis_setex. apply emits_bind; [|intros r; apply emits_ret].
  apply emits_redis_call. intros ok. simpl.
  rewrite !String.eqb_refl. reflexivity.
Qed.

End NeverThrows.

(** *** Failing open *)

Section CleanWhenOk.






End CleanWhenOk.







(** *** Responses are used in order *)

Lemma consumes_refl w : consumes w w.
Proof. exists []. reflexivity. Qed.

Lemma consumes_trans w1 w2 w3 : consumes w1 w2 -> consumes w2 w3 -> consumes w1 w3.
Proof.
  intros [u1 E1] [u2 E2]. exists (u1 ++ u2)%list.
  rewrite E1, E2, List.app_assoc. reflexivity.
Qed.

Lemma consumes_same w w' : upstream w' = upstream w -> consumes w w'.
Proof. intros E. exists []. rewrite E. reflexivity. Qed.

Lemma consumes_In w w' x : consumes w w' -> In x (upstream w') -> In x (upstream w).
Proof. intros [u E] Hin. rewrite E. apply in_or_app. right. exact Hin. Qed.

Section Consuming.

Lemma consuming_ret {A} (a : A) : consuming (mret a : M A).
Proof. intros w. apply consumes_refl. Qed.

Lemma consuming_throw {A} e : consuming (throw e : M A).
Proof. intros w. apply consumes_refl. Qed.

Lemma consuming_lift {A} (x : Exc A) : consuming (lift x).
Proof. intros w. apply consumes_refl. Qed.

Lemma consuming_bind {A B} (m : M A) (f : A -> M B) :
  consuming m -> (forall a, consuming (f a)) -> consuming (m ≫= f).
Proof.
  intros Hm Hf w. rewrite bind_run. specialize (Hm w).
  destruct (m w) as [[a|e] w1]; simpl in Hm; [|exact Hm].
  eapply consumes_trans; [exact Hm | apply Hf].
Qed.

Lemma consuming_try_catch {A} (body : M A) handler :
  consuming body -> (forall e, consuming (handler e)) ->
  consuming (try_catch body handler).
Proof.
  intros Hb Hh w. rewrite try_catch_run. specialize (Hb w).
  destruct (body w) as [[a|e] w1]; simpl in Hb; [exact Hb|].
  eapply consumes_trans; [exact Hb | apply Hh].
Qed.

Lemma consuming_emit ev : consuming (emit ev).
Proof. intros w. apply consumes_same. reflexivity. Qed.

Lemma consuming_Date_now : consuming Date_now.
Proof. intros w. apply consumes_refl. Qed.

Lemma consuming_redis_status_ready : consuming redis_status_ready.
Proof. intros w. apply consumes_refl. Qed.

Lemma consuming_redis_connect : consuming redis_connect.
Proof.
  intros w. unfold redis_connect.
  destruct (head (connects w)) as [[e|]|]; apply consumes_same; reflexivity.
Qed.

Lemma consuming_redis_call c : consuming (redis_call c).
Proof.
  intros w. unfold redis_call.
  destruct (head (faults w)) as [[e|]|];
    [apply consumes_same; reflexivity | |];
    destruct (Redis.exec (now w) c (redis_db w)) as [[r db']|e];
    apply consumes_same; reflexivity.
Qed.

Lemma consuming_read_body res : consuming (read_body res).
Proof. intros w. apply consumes_same. reflexivity. Qed.

Lemma consuming_sleep ms : consuming (sleep ms).
Proof. intros w. apply consumes_same. reflexivity. Qed.

Lemma consuming_fetch url prompt timeout : consuming (fetch url prompt timeout).
Proof.
  intros w. unfold fetch.
  assert (Htail : forall w', upstream w' = tail (upstream w) -> consumes w w').
  { intros w' E. unfold consumes. rewrite E.
    destruct (upstream w) as [|o rest].
    - exists []. reflexivity.
    - exists [o]. reflexivity. }
  destruct (head (upstream w)) as [[|latency e|latency r]|];
    try destruct (timer_delay timeout <=? latency);
    apply Htail; reflexivity.
Qed.

End Consuming.

Ltac consuming_step :=
  match goal with
  | |- consuming (_ ≫= _) => apply consuming_bind; [|intros ?]
  | |- consuming (try_catch _ _) => apply consuming_try_catch; [|intros ?]
  | |- consuming (mret _) => apply consuming_ret
  | |- consuming (throw _) => apply consuming_throw
  | |- consuming (lift _) => apply consuming_lift
  | |- consuming Date_now => apply consuming_Date_now
  | |- consuming redis_status_ready => apply consuming_redis_status_ready
  | |- consuming redis_connect => apply consuming_redis_connect
  | |- consuming (redis_call _) => apply consuming_redis_call
  | |- consuming (console_warn _ _) => apply consuming_emit
  | |- consuming (sleep _) => apply consuming_sleep
  | |- consuming (read_body _) => apply consuming_read_body
  | |- consuming (fetch _ _ _) => apply consuming_fetch
  | |- consuming (if ?b then _ else _) => destruct b
  | |- consuming (match ?x with _ => _ end) => destruct x
  end.

Ltac consuming_auto :=
  repeat (first [ consuming_step
                | progress unfold redis_incr, redis_incrby, redis_expire,
                    redis_get, redis_setex, usageKey, _ensureRedis ]).

Section ConsumingMethods.
Context `{Platform}.

Lemma _ensureRedis_consuming : consuming _ensureRedis.
Proof. consuming_auto. Qed.

Lemma checkRateLimit_consuming env shop : consuming (checkRateLimit env shop).
Proof. unfold checkRateLimit. consuming_auto. Qed.

Lemma checkMonthlyLimit_consuming env shop : consuming (checkMonthlyLimit env shop).
Proof. unfold checkMonthlyLimit. consuming_auto. Qed.

Lemma incrementUsage_consuming shop n : consuming (incrementUsage shop n).
Proof. unfold incrementUsage. consuming_auto. Qed.

Lemma cache_lookup_consuming key haveRedis : consuming (cache_lookup key haveRedis).
Proof. unfold cache_lookup. consuming_auto. Qed.

Lemma _callDeepSeekHTTP_consuming this prompt :
  consuming (_callDeepSeekHTTP this prompt).
Proof. unfold _callDeepSeekHTTP. consuming_auto. Qed.

Lemma _callDeepSeekHTTP_emits this prompt :
  emits is_upstream_event (_callDeepSeekHTTP this prompt).
Proof.
  unfold _callDeepSeekHTTP.
  repeat first [ emits_step | apply emits_fetch; reflexivity ].
Qed.

End ConsumingMethods.

(** *** One upstream call *)

Ltac case_abort :=
  match goal with
  | |- context [String.eqb (err_name ?e) "AbortError"] =>
      destruct (String.eqb (err_name e) "AbortError")
  end.

Section UpstreamCall.
Context `{Platform}.
Variable this : DeepSeekService.

Lemma head_In {A} (l : list A) x : head l = Some x -> In x l.
Proof. destruct l; [discriminate|]. intros [= ->]. left. reflexivity. Qed.

(** A call that returns used a response that was ok, and returns what
    [interpret_response] makes of it. *)
Lemma _callDeepSeekHTTP_ok prompt w raw w1 :
  _callDeepSeekHTTP this prompt w = (Ok raw, w1) ->
  exists latency res,
    head (upstream w) = Some (FetchResolves latency res)
    /\ res_ok res = true
    /\ interpret_response res = Ok raw
    /\ trace w1 = (trace w ++ [EvFetch (endpoint this) prompt])%list.
Proof.
  unfold _callDeepSeekHTTP.
  destruct (negb (present (apiKey this))); [intros [=]|].
  rewrite try_catch_run, bind_run. unfold fetch.
  destruct (head (upstream w)) as [[|latency e|latency res]|];
    try destruct (timer_delay (timeout this) <=? latency);
    cbn [AbortError err_name String.eqb Ascii.eqb Bool.eqb];
    try (intros [=]; fail);
    try (destruct (String.eqb (err_name _) "AbortError"); intros [=]; fail).
  match goal with
  | |- context [res_ok ?r] => rename r into resp
  end.
  destruct (res_ok resp) eqn:Hok; cbn [negb]; rewrite bind_run;
    unfold read_body at 1.
  2:{ cbn [err_name Error]. intros [=]. }
  unfold lift. destruct (interpret_response resp) as [raw'|e] eqn:Hint.
  - intros [= <- <-]. exists latency, resp. repeat split; auto.
  - destruct (String.eqb (err_name e) "AbortError"); intros [=].
Qed.

(** With a key configured, a call is one [fetch], aborted or not. *)
Lemma _callDeepSeekHTTP_trace prompt w :
  present (apiKey this) = true ->
  exists rest,
    trace (snd (_callDeepSeekHTTP this prompt w))
    = (trace w ++ EvFetch (endpoint this) prompt :: rest)%list
    /\ (rest = [] \/ rest = [EvAbort]).
Proof.
  intros Hkey. unfold _callDeepSeekHTTP. rewrite Hkey. cbn [negb].
  rewrite try_catch_run, bind_run. unfold fetch.
  destruct (head (upstream w)) as [[|latency e|latency res]|];
    try destruct (timer_delay (timeout this) <=? latency);
    cbn [AbortError err_name String.eqb Ascii.eqb Bool.eqb];
    try (exists [EvAbort]; split;
         [cbn; rewrite <- List.app_assoc; reflexivity | right; reflexivity]);
    try (exists []; split; [reflexivity | left; reflexivity]);
    try (case_abort; (exists []; split; [reflexivity | left; reflexivity])).
  match goal with
  | |- context [res_ok ?r] => rename r into resp
  end.
  destruct (negb (res_ok resp)); rewrite bind_run; unfold read_body at 1.
  - cbn [err_name Error String.eqb Ascii.eqb Bool.eqb].
    exists []. split; [reflexivity | left; reflexivity].
  - unfold lift. destruct (interpret_response resp) as [raw|e].
    + exists []. split; [reflexivity | left; reflexivity].
    + case_abort; (exists []; split; [reflexivity | left; reflexivity]).
Qed.

(** A call that does not settle before the timer fires is aborted
    when the timer fires, and reported as a timeout. *)
Lemma _callDeepSeekHTTP_timeout prompt w o :
  present (apiKey this) = true ->
  head (upstream w) = Some o ->
  late (timer_delay (timeout this)) o ->
  exists w1,
    _callDeepSeekHTTP this prompt w
    = (Throw (Error "DeepSeek request timed out"), w1)
    /\ now w1 = now w + timer_delay (timeout this)
    /\ trace w1 = (trace w ++ [EvFetch (endpoint this) prompt; EvAbort])%list.
Proof.
  intros Hkey Hhead Hlate. unfold _callDeepSeekHTTP. rewrite Hkey. cbn [negb].
  rewrite try_catch_run, bind_run. unfold fetch. rewrite Hhead.
  destruct o as [|latency e|latency res]; cbn [late] in Hlate;
    try (replace (timer_delay (timeout this) <=? latency) with true by lia);
    cbn [AbortError err_name String.eqb Ascii.eqb Bool.eqb];
    (eexists; split; [reflexivity|]; split;
     [reflexivity | cbn; rewrite <- List.app_assoc; reflexivity]).
Qed.

(** Once [fetch] has resolved the timer is cleared: the call returns
    what the response holds, however long the body takes. *)
Lemma _callDeepSeekHTTP_resolved prompt w latency res raw :
  present (apiKey this) = true ->
  head (upstream w) = Some (FetchResolves latency res) ->
  latency < timer_delay (timeout this) ->
  res_ok res = true ->
  interpret_response res = Ok raw ->
  _callDeepSeekHTTP this prompt w
  = (Ok raw,
     advance (res_body_latency res)
       (advance latency
          (with_trace (EvFetch (endpoint this) prompt)
             (with_upstream (tail (upstream w)) w)))).
Proof.
  intros Hkey Hhead Hlat Hok Hint.
  unfold _callDeepSeekHTTP. rewrite Hkey. cbn [negb].
  rewrite try_catch_run, bind_run. unfold fetch. rewrite Hhead.
  replace (timer_delay (timeout this) <=? latency) with false by lia.
  rewrite Hok. cbn [negb]. rewrite bind_run. unfold read_body at 1.
  unfold lift. rewrite Hint. reflexivity.
Qed.

(** A response that is ok but cannot be interpreted makes the call
    fail with the error of the interpretation. *)
Lemma _callDeepSeekHTTP_uninterpretable prompt w latency res e :
  present (apiKey this) = true ->
  head (upstream w) = Some (FetchResolves latency res) ->
  latency < timer_delay (timeout this) ->
  res_ok res = true ->
  interpret_response res = Throw e ->
  err_name e <> "AbortError" ->
  _callDeepSeekHTTP this prompt w
  = (Throw e,
     advance (res_body_latency res)
       (advance latency
          (with_trace (EvFetch (endpoint this) prompt)
             (with_upstream (tail (upstream w)) w)))).
Proof.
  intros Hkey Hhead Hlat Hok Hint Hname.
  unfold _callDeepSeekHTTP. rewrite Hkey. cbn [negb].
  rewrite try_catch_run, bind_run. unfold fetch. rewrite Hhead.
  replace (timer_delay (timeout this) <=? latency) with false by lia.
  rewrite Hok. cbn [negb]. rewrite bind_run. unfold read_body at 1.
  unfold lift. rewrite Hint.
  apply String.eqb_neq in Hname. rewrite Hname. reflexivity.
Qed.

End UpstreamCall.

(** *** One attempt, and the loop *)

Lemma usage_is_completion key value ev :
  is_usage_event ev = true -> is_completion_event key value ev = true.
Proof. destruct ev as [ok|c ok| | | |]; try destruct c; simpl; congruence. Qed.

Lemma retry_events_app evs1 evs2 :
  retry_events (evs1 ++ evs2) = (retry_events evs1 ++ retry_events evs2)%list.
Proof. apply List.filter_app. Qed.

Lemma retry_events_none (Q : Event -> bool) evs :
  (forall ev, Q ev = true -> is_fetch ev || is_sleep ev = false) ->
  List.Forall (fun ev => Q ev = true) evs -> retry_events evs = [].
Proof.
  intros HQ. induction 1 as [|ev evs Hev _ IH]; [reflexivity|].
  unfold retry_events in *. cbn [List.filter]. rewrite (HQ ev Hev). exact IH.
Qed.

Lemma completion_not_retry key value ev :
  is_completion_event key value ev = true -> is_fetch ev || is_sleep ev = false.
Proof. destruct ev as [ok|c ok| | | |]; try destruct c; simpl; congruence. Qed.

Lemma check_not_retry ev :
  is_check_event ev = true -> is_fetch ev || is_sleep ev = false.
Proof. destruct ev as [ok|c ok| | | |]; try destruct c; simpl; congruence. Qed.

Section Attempts.
Context `{Platform}.
Variable this : DeepSeekService.

(** What follows a successful call returns the result, and only
    writes it to the cache and counts it. *)
Lemma completion_run a key result haveRedis w :
  exists w' evs,
    (_ ← (if haveRedis : bool then
            try_catch (redis_setex key (60 * 60 * 24) (stringify result))
                      (fun _ => mret tt)
          else mret tt);
     _ ← (if present (shop a) then incrementUsage (shop a) (Finite 1) else mret tt);
     mret result) w = (Ok result, w')
    /\ trace w' = (trace w ++ evs)%list
    /\ List.Forall (fun ev => is_completion_event key (stringify result) ev = true) evs
    /\ consumes w w'.
Proof.
  set (write := if haveRedis : bool then
                  try_catch (redis_setex key (60 * 60 * 24) (stringify result))
                            (fun _ => mret tt)
                else mret tt).
  set (count := if present (shop a) then incrementUsage (shop a) (Finite 1) else mret tt).
  assert (Wn : never_throws write)
    by (subst write; destruct haveRedis;
        [apply cache_write_never_throws | apply never_throws_ret]).
  assert (We : emits (is_completion_event key (stringify result)) write)
    by (subst write; destruct haveRedis;
        [apply cache_write_emits | apply emits_ret]).
  assert (Wc : consuming write)
    by (subst write; destruct haveRedis; consuming_auto).
  assert (Cn : never_throws count)
    by (subst count; destruct (present (shop a));
        [apply incrementUsage_never_throws | apply never_throws_ret]).
  assert (Ce : emits (is_completion_event key (stringify result)) count).
  { subst count. destruct (present (shop a)); [|apply emits_ret].
    eapply emits_weaken; [|apply incrementUsage_emits].
    apply usage_is_completion. }
  assert (Cc : consuming count)
    by (subst count; destruct (present (shop a));
        [apply incrementUsage_consuming | apply consuming_ret]).
  destruct (never_throws_run write w Wn) as ([] & w1 & Hw).
  destruct (never_throws_run count w1 Cn) as ([] & w2 & Hc).
  destruct (We w) as (evs1 & E1 & F1). destruct (Ce w1) as (evs2 & E2 & F2).
  pose proof (Wc w) as C1. pose proof (Cc w1) as C2.
  rewrite Hw in E1, C1. rewrite Hc in E2, C2. simpl in E1, E2, C1, C2.
  exists w2, (evs1 ++ evs2)%list. repeat split.
  - rewrite bind_run, Hw, bind_run, Hc. reflexivity.
  - rewrite E2, E1, List.app_assoc. reflexivity.
  - apply Forall_app. split; assumption.
  - eapply consumes_trans; eassumption.
Qed.

Lemma attempt_once_outcome a key prompt haveRedis w r w' :
  attempt_once this a key prompt haveRedis w = (r, w') ->
  exists evs1 evs2,
    trace w' = (trace w ++ evs1 ++ evs2)%list
    /\ List.Forall (fun ev => is_upstream_event ev = true) evs1
    /\ consumes w w'
    /\ retry_events evs1 = call_events this prompt
    /\ match r with
       | Ok result =>
           accepted_from (upstream w) result
           /\ List.Forall
                (fun ev => is_completion_event key (stringify result) ev = true)
                evs2
           /\ evs1 = [EvFetch (endpoint this) prompt]
       | Throw e => evs2 = [] /\ attempt_error this prompt e
       end.
Proof.
  unfold attempt_once. rewrite bind_run.
  destruct (_callDeepSeekHTTP_emits this prompt w) as (evs1 & E1 & F1).
  pose proof (_callDeepSeekHTTP_consuming this prompt w) as C1.
  assert (R1 : retry_events evs1 = call_events this prompt).
  { unfold call_events. destruct (present (apiKey this)) eqn:Hkey.
    - destruct (_callDeepSeekHTTP_trace this prompt w Hkey) as (rest & Er & Hrest).
      rewrite E1 in Er. apply app_inv_head in Er. subst evs1.
      destruct Hrest as [-> | ->]; reflexivity.
    - unfold _callDeepSeekHTTP in E1. rewrite Hkey in E1. cbn [negb throw snd] in E1.
      rewrite <- (app_nil_r (trace w)) in E1 at 1.
      apply app_inv_head in E1. subst evs1. reflexivity. }
  destruct (_callDeepSeekHTTP this prompt w) as [[raw|e] w1] eqn:Hcall;
    simpl in E1, C1.
  2:{ intros [= <- <-]. exists evs1, []. rewrite app_nil_r.
      repeat split; auto. left. eauto. }
  rewrite bind_run. unfold lift at 1.
  destruct (sanitize_description raw) as [result|e] eqn:Hsan.
  2:{ intros [= <- <-]. exists evs1, []. rewrite app_nil_r.
      repeat split; auto. right. eauto. }
  destruct (completion_run a key result haveRedis w1)
    as (w2 & evs2 & Hrun & E2 & F2 & C2).
  rewrite Hrun. intros [= <- <-].
  destruct (_callDeepSeekHTTP_ok this prompt w raw w1 Hcall)
    as (latency & res & Hhead & Hok & Hint & Etr).
  rewrite E1 in Etr. apply app_inv_head in Etr. subst evs1.
  exists [EvFetch (endpoint this) prompt], evs2. repeat split; auto.
  - rewrite E2, E1, List.app_assoc. reflexivity.
  - eapply consumes_trans; eassumption.
  - exists latency, res, raw. repeat split; auto. apply head_In. exact Hhead.
Qed.

End Attempts.

Section Loop.
Context `{Platform}.
Variable this : DeepSeekService.
Variable a : GenerateArgs.
Variable key prompt : string.
Variable haveRedis : bool.

Local Abbreviation loop := (retry_loop this a key prompt haveRedis).

Lemma retry_loop_step n attempt lastErr w :
  loop (S n) attempt lastErr w
  = match attempt_once this a key prompt haveRedis w with
    | (Ok result, w1) => (Ok result, w1)
    | (Throw err, w1) =>
        loop n (attempt + 1) (Some err)
             (if attempt <? maxRetries this
              then advance (timer_delay (500 * attempt))
                     (with_trace (EvSleep (500 * attempt)) w1)
              else w1)
    end.
Proof.
  cbn [retry_loop]. rewrite try_catch_run.
  destruct (attempt_once this a key prompt haveRedis w) as [[result|err] w1];
    [reflexivity|].
  rewrite bind_run. destruct (attempt <? maxRetries this); reflexivity.
Qed.

(** How the loop ends: with the result of a successful attempt, which
    is then written and counted, or with the failure of an attempt. *)
Lemma retry_loop_outcome n :
  forall attempt lastErr w r w',
    loop n attempt lastErr w = (r, w') ->
    exists evs1 evs2,
      trace w' = (trace w ++ evs1 ++ evs2)%list
      /\ List.Forall (fun ev => is_upstream_event ev = true) evs1
      /\ match r with
         | Ok result =>
             accepted_from (upstream w) result
             /\ List.Forall
                  (fun ev => is_completion_event key (stringify result) ev = true)
                  evs2
             /\ List.Exists (fun ev => is_fetch ev = true) evs1
         | Throw e =>
             evs2 = []
             /\ exists last,
                 e = generation_failed last
                 /\ (last = lastErr
                     \/ exists err, last = Some err
                                    /\ attempt_error this prompt err)
         end.
Proof.
  induction n as [|n IH]; intros attempt lastErr w r w' Hrun.
  - cbn [retry_loop] in Hrun. injection Hrun as <- <-.
    exists [], []. repeat split; [symmetry; apply app_nil_r | constructor |].
    exists lastErr. split; [reflexivity | left; reflexivity].
  - rewrite retry_loop_step in Hrun.
    destruct (attempt_once this a key prompt haveRedis w) as [[result|err] w1] eqn:Hatt;
      destruct (attempt_once_outcome this a key prompt haveRedis w _ w1 Hatt)
      as (evs1 & evs2 & E & F1 & C & _ & Hr).
    + injection Hrun as <- <-. destruct Hr as (Hacc & F2 & ->).
      exists [EvFetch (endpoint this) prompt], evs2.
      repeat split; auto.
    + destruct Hr as [-> Herr]. rewrite app_nil_r in E.
      set (w2 := if attempt <? maxRetries this
                 then advance (timer_delay (500 * attempt))
                        (with_trace (EvSleep (500 * attempt)) w1)
                 else w1) in Hrun.
      assert (Hw2 : exists evs0,
                 trace w2 = (trace w1 ++ evs0)%list
                 /\ List.Forall (fun ev => is_upstream_event ev = true) evs0
                 /\ upstream w2 = upstream w1).
      { subst w2. destruct (attempt <? maxRetries this).
        - exists [EvSleep (500 * attempt)]. repeat split. repeat constructor.
        - exists []. repeat split; [symmetry; apply app_nil_r | constructor]. }
      destruct Hw2 as (evs0 & E0 & F0 & U0).
      destruct (IH _ _ _ _ _ Hrun) as (evs1' & evs2' & E' & F1' & Hr').
      exists (evs1 ++ evs0 ++ evs1')%list, evs2'. split; [|split].
      * rewrite E', E0, E, <- !List.app_assoc. reflexivity.
      * repeat (apply Forall_app; split); assumption.
      * destruct r as [result|e].
        -- destruct Hr' as (Hacc & F2 & Hex). repeat split; auto.
           ++ destruct Hacc as (latency & res & raw & Hin & Hrest).
              exists latency, res, raw. split; [|exact Hrest].
              eapply consumes_In; [exact C|]. rewrite <- U0. exact Hin.
           ++ apply List.Exists_app. right. apply List.Exists_app. right. exact Hex.
        -- destruct Hr' as (-> & last & -> & Hlast). split; [reflexivity|].
           exists last. split; [reflexivity|]. right.
           destruct Hlast as [->|Hlast]; [eauto | exact Hlast].
Qed.

(** The calls and the waits of the loop: attempt, wait, attempt, ...,
    ending with an attempt; all the attempts when the loop fails. *)
Lemma retry_loop_pattern n :
  forall attempt lastErr w,
    maxRetries this = attempt + Z.of_nat n - 1 ->
    exists k,
      (k <= n)%nat
      /\ retry_events (new_events w (snd (loop n attempt lastErr w)))
         = attempts_pattern (call_events this prompt) k attempt
      /\ match fst (loop n attempt lastErr w) with
         | Ok _ => (1 <= k)%nat
         | Throw _ => k = n
         end.
Proof.
  induction n as [|n IH]; intros attempt lastErr w Hmax.
  - exists 0%nat. cbn [retry_loop throw fst snd].
    rewrite (new_events_app w w []) by (symmetry; apply app_nil_r).
    repeat split. lia.
  - rewrite retry_loop_step.
    destruct (attempt_once this a key prompt haveRedis w) as [[result|err] w1] eqn:Hatt;
      destruct (attempt_once_outcome this a key prompt haveRedis w _ w1 Hatt)
      as (evs1 & evs2 & E & F1 & C & R1 & Hr).
    + exists 1%nat. cbn [fst snd]. rewrite (new_events_app w w1 _ E).
      destruct Hr as (_ & F2 & _).
      rewrite retry_events_app, R1,
        (retry_events_none _ evs2 (completion_not_retry _ _) F2), app_nil_r.
      repeat split; lia.
    + destruct Hr as [-> _]. rewrite app_nil_r in E.
      destruct n as [|n'].
      * replace (attempt <? maxRetries this) with false by lia.
        exists 1%nat. cbn [retry_loop throw fst snd].
        rewrite (new_events_app w w1 _ E), R1. repeat split; lia.
      * replace (attempt <? maxRetries this) with true by lia.
        set (w2 := advance (timer_delay (500 * attempt))
                     (with_trace (EvSleep (500 * attempt)) w1)).
        destruct (IH (attempt + 1) (Some err) w2) as (k & Hk & Hev & Hres); [lia|].
        destruct (loop (S n') (attempt + 1) (Some err) w2) as [r2 w3] eqn:Hloop.
        cbn [fst snd] in *.
        destruct (retry_loop_outcome (S n') _ _ _ _ _ Hloop) as (e1 & e2 & E' & _).
        assert (Hk1 : (1 <= k)%nat) by (destruct r2; lia).
        exists (S k). split; [lia|]. split; [|destruct r2; lia].
        rewrite (new_events_app _ _ _ E') in Hev.
        rewrite (new_events_app w w3 (evs1 ++ [EvSleep (500 * attempt)] ++ e1 ++ e2))
          by (rewrite E'; subst w2; cbn [trace advance with_trace];
              rewrite E, <- !List.app_assoc; reflexivity).
        rewrite !retry_events_app, R1. rewrite retry_events_app in Hev.
        rewrite Hev. destruct k as [|k']; [lia|]. reflexivity.
Qed.

End Loop.

Lemma run_facts {A} (Q : Event -> bool) (m : M A) w :
  never_throws m -> emits Q m -> consuming m ->
  exists a w1 evs,
    m w = (Ok a, w1)
    /\ trace w1 = (trace w ++ evs)%list
    /\ List.Forall (fun ev => Q ev = true) evs
    /\ consumes w w1.
Proof.
  intros Hn He Hc. destruct (never_throws_run m w Hn) as (a & w1 & Hrun).
  destruct (He w) as (evs & E & F). pose proof (Hc w) as C.
  rewrite Hrun in E, C. simpl in E, C. exists a, w1, evs. auto.
Qed.

Section Generate.
Context `{Platform}.
Variable env : Env.
Variable this : DeepSeekService.

(** When every attempt fails, the loop ends right after the last one,
    with its failure. *)
Lemma retry_loop_last_failure a key prompt haveRedis n :
  forall attempt lastErr w e w',
    maxRetries this = attempt + Z.of_nat n ->
    retry_loop this a key prompt haveRedis (S n) attempt lastErr w = (Throw e, w') ->
    exists w_last err,
      attempt_once this a key prompt haveRedis w_last = (Throw err, w')
      /\ e = generation_failed (Some err).
Proof.
  induction n as [|n IH]; intros attempt lastErr w e w' Hmax Hrun;
    rewrite retry_loop_step in Hrun;
    destruct (attempt_once this a key prompt haveRedis w) as [[result|err] w1] eqn:Hatt;
    try discriminate Hrun.
  - replace (attempt <? maxRetries this) with false in Hrun by lia.
    cbn [retry_loop throw] in Hrun. injection Hrun as <- <-. eauto.
  - replace (attempt <? maxRetries this) with true in Hrun by lia.
    eapply IH; [|exact Hrun]. lia.
Qed.

(** A run of [generateDescription]: the checks and the cache lookup,
    which only talk to the store, and then either an early end or the
    retry loop. *)
Lemma generateDescription_run a w r w' :
  generateDescription env this a w = (r, w') ->
  exists pre,
    List.Forall (fun ev => is_check_event ev = true) pre
    /\ ((trace w' = (trace w ++ pre)%list
         /\ (r = Throw (Error "Rate limit exceeded. Try again shortly.")
             \/ (exists used lim,
                    r = Throw (Error ("Monthly limit reached: " +:+ num_str used
                                      +:+ "/" +:+ num_str lim)))
             \/ (exists e, productId_of (product a) = Throw e /\ r = Throw e)
             \/ (exists e, buildPrompt
                             (mkPromptArgs (product a) (vibe a) (format a)
                                           (keywords a) (includeSocials a))
                           = Throw e /\ r = Throw e)
             \/ (exists v, r = Ok v)))
        \/ (exists w1 productId prompt haveRedis,
               trace w1 = (trace w ++ pre)%list
               /\ consumes w w1
               /\ productId_of (product a) = Ok productId
               /\ retry_loop this a
                    (buildCacheKey (mkCacheKeyArgs productId (vibe a) (format a)
                                                   (keywords a) (includeSocials a)))
                    prompt haveRedis (Z.to_nat (maxRetries this)) 1 None w1
                  = (r, w'))).
Proof.
  unfold generateDescription. rewrite bind_run.
  destruct (run_facts is_check_event (checkRateLimit env (shop a)) w
              (checkRateLimit_never_throws _ _) (checkRateLimit_emits _ _)
              (checkRateLimit_consuming _ _))
    as (rl & w1 & evs1 & Hrl & E1 & F1 & C1).
  rewrite Hrl. destruct (negb (rl_allowed rl)).
  { intros [= <- <-]. exists evs1. split; [exact F1|]. left. auto. }
  rewrite bind_run.
  destruct (run_facts is_check_event (checkMonthlyLimit env (shop a)) w1
              (checkMonthlyLimit_never_throws _ _) (checkMonthlyLimit_emits _ _)
              (checkMonthlyLimit_consuming _ _))
    as (ml & w2 & evs2 & Hml & E2 & F2 & C2).
  rewrite Hml. destruct (negb (ml_allowed ml)).
  { intros [= <- <-]. exists (evs1 ++ evs2)%list.
    split; [apply Forall_app; split; assumption|]. left.
    split; [rewrite E2, E1, List.app_assoc; reflexivity|].
    right. left. eauto. }
  rewrite bind_run. unfold lift at 1.
  destruct (productId_of (product a)) as [productId|e] eqn:Hpid.
  2:{ intros [= <- <-]. exists (evs1 ++ evs2)%list.
      split; [apply Forall_app; split; assumption|]. left.
      split; [rewrite E2, E1, List.app_assoc; reflexivity|].
      right. right. left. eauto. }
  rewrite bind_run.
  destruct (run_facts is_check_event _ensureRedis w2
              _ensureRedis_never_throws _ensureRedis_emits _ensureRedis_consuming)
    as (haveRedis & w3 & evs3 & Hens & E3 & F3 & C3).
  rewrite Hens. rewrite bind_run.
  destruct (run_facts is_check_event
              (cache_lookup
                 (buildCacheKey (mkCacheKeyArgs productId (vibe a) (format a)
                                                (keywords a) (includeSocials a)))
                 haveRedis) w3
              (cache_lookup_never_throws _ _) (cache_lookup_emits _ _)
              (cache_lookup_consuming _ _))
    as (cached & w4 & evs4 & Hlook & E4 & F4 & C4).
  rewrite Hlook.
  assert (Epre : trace w4 = (trace w ++ evs1 ++ evs2 ++ evs3 ++ evs4)%list)
    by (rewrite E4, E3, E2, E1, <- !List.app_assoc; reflexivity).
  assert (Fpre : List.Forall (fun ev => is_check_event ev = true)
                   (evs1 ++ evs2 ++ evs3 ++ evs4)%list)
    by (repeat (apply Forall_app; split); assumption).
  destruct cached as [v|].
  { intros [= <- <-]. eexists. split; [exact Fpre|]. left.
    split; [exact Epre|]. do 4 right. eauto. }
  rewrite bind_run. unfold lift at 1.
  destruct (buildPrompt _) as [prompt|e] eqn:Hprompt.
  2:{ intros [= <- <-]. eexists. split; [exact Fpre|]. left.
      split; [exact Epre|]. do 3 right. left. eauto. }
  intros Hloop. eexists. split; [exact Fpre|]. right.
  exists w4, productId, prompt, haveRedis. repeat split; auto.
  repeat (eapply consumes_trans; [eassumption|]). apply consumes_refl.
Qed.

End Generate.

(** *** Properties of results *)

Lemma lookup_replace_key {A} k k' (v : A) m :
  lookup_key k' (replace_key k v m)
  = if String.eqb k k' then (match lookup_key k m with
                             | Some _ => Some v
                             | None => None
                             end)
    else lookup_key k' m.
Proof.
  induction m as [|[k0 v0] m IH]; cbn [replace_key lookup_key].
  - destruct (String.eqb k k'); reflexivity.
  - destruct (String.eqb k0 k) eqn:E0; cbn [lookup_key].
    + apply String.eqb_eq in E0. subst k0.
      destruct (String.eqb k k'); reflexivity.
    + destruct (String.eqb k0 k') eqn:E1.
      * apply String.eqb_eq in E1. subst k0.
        rewrite String.eqb_sym, E0. reflexivity.
      * exact IH.
Qed.

Lemma lookup_key_app {A} k (m1 m2 : list (string * A)) :
  lookup_key k (m1 ++ m2)
  = match lookup_key k m1 with
    | Some v => Some v
    | None => lookup_key k m2
    end.
Proof.
  induction m1 as [|[k0 v0] m1 IH]; cbn [app lookup_key]; [reflexivity|].
  destruct (String.eqb k0 k); [reflexivity | exact IH].
Qed.

(** Setting a property that is not an array index: that property reads
    back, the others are untouched. *)
Lemma lookup_obj_set {A} k k' (v : A) m :
  array_index k = None ->
  lookup_key k' (obj_set k v m)
  = if String.eqb k k' then Some v else lookup_key k' m.
Proof.
  intros Hindex. unfold obj_set. destruct (lookup_key k m) as [v0|] eqn:Hold.
  - rewrite lookup_replace_key, Hold. reflexivity.
  - rewrite Hindex, lookup_key_app. cbn [lookup_key].
    destruct (String.eqb k k') eqn:E.
    + apply String.eqb_eq in E. subst k'. rewrite Hold. reflexivity.
    + destruct (lookup_key k' m); reflexivity.
Qed.

Lemma get_set_prop k k' x v :
  array_index k = None -> array_index k' = None -> is_object v = true ->
  get_prop (set_prop k x v) k'
  = if String.eqb k k' then Some x else get_prop v k'.
Proof.
  intros Hk Hk' Hobj. destruct v as [| | | |elems props|members]; try discriminate.
  - cbn [set_prop get_prop]. rewrite Hk'. apply lookup_obj_set. exact Hk.
  - cbn [set_prop get_prop]. apply lookup_obj_set. exact Hk.
Qed.

Lemma is_object_set_prop k x v : is_object (set_prop k x v) = is_object v.
Proof. destruct v; reflexivity. Qed.

Lemma index_description : array_index "description" = None.
Proof. reflexivity. Qed.

Lemma index_socials : array_index "socials" = None.
Proof. reflexivity. Qed.

(** After the defaults, both keys are there; [socials] is the one of the
    extracted object, or null. *)
Lemma normalize_keys_props parsed :
  is_object parsed = true ->
  is_object (normalize_keys parsed) = true
  /\ has_prop "description" (normalize_keys parsed) = true
  /\ get_prop (normalize_keys parsed) "socials"
     = Some (default JNull (get_prop parsed "socials")).
Proof.
  intros Hobj. unfold normalize_keys.
  set (p1 := if has_prop "description" parsed then parsed
             else set_prop "description" (JStr "") parsed).
  assert (H1 : is_object p1 = true)
    by (subst p1; destruct (has_prop "description" parsed);
        [exact Hobj | rewrite is_object_set_prop; exact Hobj]).
  assert (D1 : has_prop "description" p1 = true).
  { subst p1. destruct (has_prop "description" parsed) eqn:E; [exact E|].
    unfold has_prop.
    rewrite get_set_prop by (auto using index_description). reflexivity. }
  assert (S1 : get_prop p1 "socials" = get_prop parsed "socials").
  { subst p1. destruct (has_prop "description" parsed); [reflexivity|].
    rewrite get_set_prop by (auto using index_description, index_socials).
    reflexivity. }
  destruct (has_prop "socials" p1) eqn:E; unfold has_prop in E; rewrite S1 in E.
  - destruct (get_prop parsed "socials") as [s|] eqn:Hs; [|discriminate].
    repeat split; auto.
  - destruct (get_prop parsed "socials") as [s|] eqn:Hs; [discriminate|].
    repeat split.
    + rewrite is_object_set_prop. exact H1.
    + unfold has_prop in *.
      rewrite get_set_prop by (auto using index_description, index_socials).
      cbn. exact D1.
    + rewrite get_set_prop by (auto using index_socials). reflexivity.
Qed.

Section ResultFacts.
Context `{Platform}.

Lemma interpret_response_ok res raw :
  interpret_response res = Ok raw ->
  exists payload text parsed,
    payload_of res = Ok payload
    /\ aiText_of payload = Ok text
    /\ extractJsonFromText text = Ok parsed
    /\ is_object parsed = true
    /\ raw = normalize_keys parsed.
Proof.
  unfold interpret_response.
  destruct (payload_of res) as [payload|e] eqn:Hp; cbn [mbind Exc_bind];
    [|intros [=]].
  destruct (aiText_of payload) as [text|e] eqn:Ht; cbn [mbind Exc_bind];
    [|intros [=]].
  destruct (extractJsonFromText text) as [parsed|e] eqn:Hx; cbn [mbind Exc_bind];
    [|intros [=]].
  destruct (negb (truthy parsed) || negb (is_object parsed)) eqn:E;
    [intros [=]|].
  cbn [mret Exc_ret]. intros [= <-]. apply orb_false_elim in E as [_ E].
  apply negb_false_iff in E. exists payload, text, parsed.
  repeat split; auto.
Qed.

(** Sanitizing touches the description only. *)
Lemma sanitize_description_props raw result :
  is_object raw = true ->
  sanitize_description raw = Ok result ->
  is_object result = true
  /\ get_prop result "socials" = get_prop raw "socials"
  /\ (has_prop "description" raw = true -> has_prop "description" result = true)
  /\ (forall d, get_prop raw "description" = Some d -> truthy d = true ->
        exists s, ToString d = Ok s
                  /\ get_prop result "description" = Some (JStr (sanitizeHTML s)))
  /\ (forall d, get_prop raw "description" = Some d -> truthy d = false ->
        result = raw).
Proof.
  intros Hobj. unfold sanitize_description.
  destruct (get_prop raw "description") as [d|] eqn:Hd.
  2:{ intros [= <-]. split; [exact Hobj|]. split; [reflexivity|].
      split; [auto|]. split; intros d' Hd'; discriminate Hd'. }
  destruct (truthy d) eqn:Ht.
  2:{ intros [= <-]. split; [exact Hobj|]. split; [reflexivity|].
      split; [auto|]. split.
      - intros d' [= <-] Ht'. congruence.
      - intros d' _ _. reflexivity. }
  destruct (ToString d) as [s|e] eqn:Hs; [|discriminate].
  intros [= <-]. split; [rewrite is_object_set_prop; exact Hobj|].
  split; [rewrite get_set_prop by (auto using index_description, index_socials);
          reflexivity|].
  split; [intros _; unfold has_prop;
          rewrite get_set_prop by (auto using index_description); reflexivity|].
  split.
  - intros d' [= <-] _. exists s. split; [exact Hs|].
    rewrite get_set_prop by (auto using index_description). reflexivity.
  - intros d' [= <-] Ht'. congruence.
Qed.

Lemma extract_error_name text e :
  extractJsonFromText text = Throw e -> err_name e = "Error".
Proof.
  unfold extractJsonFromText, extractJsonFromText_with.
  repeat match goal with
         | |- context [match ?x with _ => _ end] => destruct x
         | |- context [if ?x then _ else _] => destruct x
         end; intros [= <-]; reflexivity.
Qed.

End ResultFacts.

(* ===================================================================== *)
(** ** The claims about [generateDescription] *)
(* ===================================================================== *)

(** C1, as the source has it: an upstream call that succeeds but whose
    text cannot be extracted fails the attempt with the error of the
    extraction, like any other failure of an attempt.  While attempts
    remain the loop waits and calls upstream again; when it was the last
    attempt, the failure is surfaced to the caller, wrapped in
    "Generation failed: ". *)
Theorem extraction_failure_fails_the_attempt `{Platform}
        (this : DeepSeekService) (a : GenerateArgs) (key prompt : string)
        (haveRedis : bool) (n : nat) (attempt : Z) (lastErr : option JsError)
        (w : World) (latency : Z) (res : Response) (payload : JSON)
        (text : string) (e : JsError) :
  present (apiKey this) = true ->
  head (upstream w) = Some (FetchResolves latency res) ->
  latency < timer_delay (timeout this) ->
  res_ok res = true ->
  payload_of res = Ok payload ->
  aiText_of payload = Ok text ->
  extractJsonFromText text = Throw e ->
  let w1 := advance (res_body_latency res)
              (advance latency
                 (with_trace (EvFetch (endpoint this) prompt)
                    (with_upstream (tail (upstream w)) w))) in
  _callDeepSeekHTTP this prompt w = (Throw e, w1)
  /\ retry_loop this a key prompt haveRedis (S n) attempt lastErr w
     = retry_loop this a key prompt haveRedis n (attempt + 1) (Some e)
         (if attempt <? maxRetries this
          then advance (timer_delay (500 * attempt))
                 (with_trace (EvSleep (500 * attempt)) w1)
          else w1)
  /\ (n = 0%nat -> attempt = maxRetries this ->
      retry_loop this a key prompt haveRedis (S n) attempt lastErr w
      = (Throw (Error ("Generation failed: " +:+ err_message e)), w1)).
Proof.
  intros Hkey Hhead Hlat Hok Hpayload Htext Hextract w1.
  assert (Hint : interpret_response res = Throw e).
  { unfold interpret_response. rewrite Hpayload. cbn [mbind Exc_bind].
    rewrite Htext. cbn [mbind Exc_bind]. rewrite Hextract. reflexivity. }
  assert (Hname : err_name e <> "AbortError").
  { rewrite (extract_error_name _ _ Hextract). discriminate. }
  assert (Hcall : _callDeepSeekHTTP this prompt w = (Throw e, w1))
    by (apply (_callDeepSeekHTTP_uninterpretable this prompt w latency res e);
        assumption).
  assert (Hstep : retry_loop this a key prompt haveRedis (S n) attempt lastErr w
                  = retry_loop this a key prompt haveRedis n (attempt + 1) (Some e)
                      (if attempt <? maxRetries this
                       then advance (timer_delay (500 * attempt))
                              (with_trace (EvSleep (500 * attempt)) w1)
                       else w1)).
  { rewrite retry_loop_step. unfold attempt_once. rewrite bind_run, Hcall.
    reflexivity. }
  split; [exact Hcall|]. split; [exact Hstep|].
  intros -> Hlast. rewrite Hstep.
  replace (attempt <? maxRetries this) with false by lia. reflexivity.
Qed.

Lemma extraction_failure_fails_the_attempt_witness :
  retry_loop (H := scenario_platform) default_service (simple_request None)
             simple_key "prompt" true 1 3 None prose_world
  = (Throw (Error "Generation failed: No JSON object found in AI response"),
     advance 0
       (advance 10
          (with_trace (EvFetch (endpoint default_service) "prompt")
             (with_upstream (tail (upstream prose_world)) prose_world)))).
Proof.
  refine (proj2 (proj2
            (extraction_failure_fails_the_attempt (H := scenario_platform)
               default_service (simple_request None) simple_key "prompt" true
               0 3 None prose_world 10 (completion "no json here")
               (JObj [("choices",
                       JArr [JObj [("message",
                                    JObj [("content", JStr "no json here")])]] [])])
               "no json here"
               (Error "No JSON object found in AI response")
               _ _ _ _ _ _ _)) _ _);
    try reflexivity; vm_compute; reflexivity.
Defined.

(** C1, as the claim states it, fails: the model answers three times
    with a text that holds no JSON; each HTTP call succeeds, each
    extraction fails, and [generateDescription] calls upstream three
    times before it gives up. *)
Lemma extraction_failure_is_retried :
  res_ok (completion "no json here") = true
  /\ interpret_response (H := scenario_platform) (completion "no json here")
     = Throw (Error "No JSON object found in AI response")
  /\ fst (generateDescription (H := scenario_platform) default_env default_service
            (simple_request None) prose_world)
     = Throw (Error "Generation failed: No JSON object found in AI response")
  /\ length (List.filter is_fetch
               (trace (snd (generateDescription (H := scenario_platform)
                              default_env default_service
                              (simple_request None) prose_world))))
     = 3%nat.
Proof. vm_compute. repeat split; reflexivity. Qed.

(** C5, as the source has it: with the defaults the service makes at
    most 3 attempts and sets the timer of each to 25000 ms.  The
    upstream calls and the waits of a run are, in order: an attempt (one
    call, or none when no API key is configured); then, after each failed
    attempt [n] that is not the last, a wait of [500 * n] ms and the next
    attempt; there are at most [maxRetries] attempts and no wait after
    the last one.  When the run made attempts and
    failed, it made all of them, it ended right after the last one, and
    its error wraps the message of that attempt's failure.  An attempt
    whose [fetch] has not settled when the timer fires is aborted at that
    moment and fails with the timeout error.  Once [fetch] has resolved
    the timer is cleared, and the attempt lasts as long as reading the
    body takes. *)
Theorem generateDescription_retries `{Platform}
        (env : Env) (this : DeepSeekService) (a : GenerateArgs) (w : World) :
  maxRetries (constructor env no_opts) = 3
  /\ timeout (constructor env no_opts) = 25000
  /\ (let run := generateDescription env this a w in
      exists k prompt,
        (k <= Z.to_nat (maxRetries this))%nat
        /\ retry_events (new_events w (snd run))
           = attempts_pattern (call_events this prompt) k 1
        /\ (forall e, fst run = Throw e -> (1 <= k)%nat ->
              k = Z.to_nat (maxRetries this)
              /\ exists key haveRedis w_last err,
                  attempt_once this a key prompt haveRedis w_last
                  = (Throw err, snd run)
                  /\ e = Error ("Generation failed: " +:+ err_message err)))
  /\ (forall prompt w0 o,
        present (apiKey this) = true ->
        head (upstream w0) = Some o ->
        late (timer_delay (timeout this)) o ->
        exists w1,
          _callDeepSeekHTTP this prompt w0
          = (Throw (Error "DeepSeek request timed out"), w1)
          /\ now w1 = now w0 + timer_delay (timeout this)
          /\ trace w1 = (trace w0 ++ [EvFetch (endpoint this) prompt; EvAbort])%list)
  /\ (forall prompt w0 latency res raw,
        present (apiKey this) = true ->
        head (upstream w0) = Some (FetchResolves latency res) ->
        latency < timer_delay (timeout this) ->
        res_ok res = true ->
        interpret_response res = Ok raw ->
        exists w1,
          _callDeepSeekHTTP this prompt w0 = (Ok raw, w1)
          /\ now w1 = now w0 + latency + res_body_latency res
          /\ trace w1 = (trace w0 ++ [EvFetch (endpoint this) prompt])%list).
Proof.
  split; [reflexivity|]. split; [reflexivity|]. split.
  2:{ split; [intros prompt w0 o; apply _callDeepSeekHTTP_timeout|].
      intros prompt w0 latency res raw Hkey Hhead Hlat Hok Hint.
      rewrite (_callDeepSeekHTTP_resolved this prompt w0 latency res raw)
        by assumption.
      eexists. split; [reflexivity|]. split; reflexivity. }
  intros run. subst run.
  destruct (generateDescription env this a w) as [r w'] eqn:Hrun. cbn [fst snd].
  destruct (generateDescription_run env this a w r w' Hrun)
    as (pre & Fpre & [[E _]|(w1 & pid & prompt & hr & E1 & _ & _ & Hloop)]).
  - exists 0%nat, "". rewrite (new_events_app w w' pre E).
    rewrite (retry_events_none _ pre check_not_retry Fpre).
    split; [lia|]. split; [reflexivity|]. intros; lia.
  - destruct (retry_loop_outcome this a _ prompt hr _ _ _ _ _ _ Hloop)
      as (evs1 & evs2 & E' & _).
    assert (Enew : new_events w w' = (pre ++ new_events w1 w')%list).
    { rewrite (new_events_app w1 w' _ E').
      apply new_events_app. rewrite E', E1, <- !List.app_assoc. reflexivity. }
    rewrite Enew, retry_events_app,
      (retry_events_none _ pre check_not_retry Fpre). cbn [app].
    destruct (Z.to_nat (maxRetries this)) as [|n] eqn:Hn.
    + cbn [retry_loop throw] in Hloop. injection Hloop as <- <-.
      exists 0%nat, prompt.
      rewrite (new_events_app w1 w1 []) by (symmetry; apply app_nil_r).
      split; [lia|]. split; [reflexivity|]. intros; lia.
    + assert (Hmax : maxRetries this = 1 + Z.of_nat n) by lia.
      destruct (retry_loop_pattern this a
                  (buildCacheKey (mkCacheKeyArgs pid (vibe a) (format a)
                                                 (keywords a) (includeSocials a)))
                  prompt hr (S n) 1 None w1)
        as (k & Hk & Hev & Hres); [lia|].
      rewrite Hloop in Hev, Hres. cbn [fst snd] in Hev, Hres.
      exists k, prompt. split; [exact Hk|]. split; [exact Hev|].
      intros e -> _. split; [exact Hres|].
      destruct (retry_loop_last_failure this a _ prompt hr n 1 None w1 e w' Hmax Hloop)
        as (w_last & err & Hatt & ->).
      eauto 10.
Qed.

Lemma generateDescription_retries_witness :
  exists w1,
    _callDeepSeekHTTP (H := scenario_platform) default_service "prompt" silent_world
    = (Throw (Error "DeepSeek request timed out"), w1)
    /\ now w1 = now silent_world + 25000.
Proof.
  destruct (proj1 (proj2 (proj2 (proj2
              (generateDescription_retries (H := scenario_platform) default_env
                 default_service (simple_request None) silent_world))))
              "prompt" silent_world FetchNever eq_refl eq_refl I)
    as (w1 & Hcall & Hnow & _).
  exists w1. split; [exact Hcall | exact Hnow].
Defined.

(** The upstream never answers: three calls, each aborted after 25
    seconds, with waits of 500 and 1000 ms in between and none at the
    end; the error names the timeout. *)
Example three_timeouts :
  let run := generateDescription (H := scenario_platform) default_env
               default_service (simple_request None) silent_world in
  fst run = Throw (Error "Generation failed: DeepSeek request timed out")
  /\ List.filter (fun ev => negb (is_fetch ev)) (new_events silent_world (snd run))
     = [EvCommand (Redis.GET simple_key) true;
        EvAbort; EvSleep 500; EvAbort; EvSleep 1000; EvAbort]
  /\ now (snd run) = 25000 + 500 + 25000 + 1000 + 25000.
Proof. vm_compute. repeat split; reflexivity. Qed.

(** *** What a run leaves in the trace *)

Lemma check_event_quiet ev :
  is_check_event ev = true ->
  is_fetch ev = false /\ is_usage_increment ev = false /\ is_cache_write ev = false.
Proof. destruct ev as [ok|c ok| | | |]; try destruct c; simpl; auto; discriminate. Qed.

Lemma upstream_event_quiet ev :
  is_upstream_event ev = true ->
  is_usage_increment ev = false /\ is_cache_write ev = false.
Proof. destruct ev as [ok|c ok| | | |]; try destruct c; simpl; auto; discriminate. Qed.

Lemma completion_cache_write key value ev :
  is_completion_event key value ev = true -> is_cache_write ev = true ->
  exists ok, ev = EvCommand (Redis.SETEX key 86400 value) ok.
Proof.
  destruct ev as [ok|c ok| | | |]; try discriminate.
  destruct c as [k|k n|k t|k|k t v]; try discriminate.
  cbn [is_completion_event]. intros Hc _.
  apply andb_prop in Hc as [Hc Hv]. apply andb_prop in Hc as [Hk Ht].
  apply String.eqb_eq in Hk, Hv. apply Z.eqb_eq in Ht. subst. eauto.
Qed.

(** The events of a run are those of the checks and of the upstream
    calls, followed, when the run returns a fresh result, by the write of
    that result and its count. *)
Lemma generateDescription_completion `{Platform} env this a w r w' :
  generateDescription env this a w = (r, w') ->
  exists quiet evs2,
    new_events w w' = (quiet ++ evs2)%list
    /\ List.Forall (fun ev => is_usage_increment ev = false
                              /\ is_cache_write ev = false) quiet
    /\ ((evs2 = []
         /\ (List.Forall (fun ev => is_fetch ev = false) quiet
             \/ exists e, r = Throw e))
        \/ (exists result productId,
               r = Ok result
               /\ productId_of (product a) = Ok productId
               /\ accepted_from (upstream w) result
               /\ List.Forall
                    (fun ev =>
                       is_completion_event
                         (buildCacheKey
                            (mkCacheKeyArgs productId (vibe a) (format a)
                                            (keywords a) (includeSocials a)))
                         (stringify result) ev = true) evs2
               /\ List.Exists (fun ev => is_fetch ev = true) quiet)).
Proof.
  intros Hrun.
  destruct (generateDescription_run env this a w r w' Hrun)
    as (pre & Fpre & [[E _]|(w1 & pid & prompt & hr & E1 & C1 & Hpid & Hloop)]).
  - exists pre, []. rewrite app_nil_r. split; [apply new_events_app; exact E|].
    split; [|left; split; [reflexivity|left]];
      (eapply List.Forall_impl; [|exact Fpre]); intros ev Hev;
      apply check_event_quiet in Hev; tauto.
  - destruct (retry_loop_outcome this a _ prompt hr _ _ _ _ _ _ Hloop)
      as (evs1 & evs2 & E' & F1 & Hr).
    exists (pre ++ evs1)%list, evs2.
    split; [apply new_events_app; rewrite E', E1, <- !List.app_assoc; reflexivity|].
    split.
    { apply Forall_app. split; (eapply List.Forall_impl; [|eassumption]);
        intros ev Hev; [apply check_event_quiet in Hev; tauto
                       |apply upstream_event_quiet in Hev; tauto]. }
    destruct r as [result|e].
    + right. destruct Hr as ((latency & res & raw & Hin & Hrest) & F2 & Hex).
      exists result, pid. repeat split; auto.
      * exists latency, res, raw. split; [|exact Hrest].
        eapply consumes_In; eassumption.
      * apply List.Exists_app. right. exact Hex.
    + left. destruct Hr as [-> _]. split; [reflexivity|]. right. eauto.
Qed.

(** C6, as the source has it.  When the two limit checks let the request
    pass, the store is reachable and the lookup returns a non-empty entry
    that parses, [generateDescription] returns the cached value, and the
    call makes no upstream call and no usage increment.  In every run, a
    usage increment is sent only when the run returns a result freshly
    accepted from an upstream response. *)
Theorem cache_hit_bypasses_upstream `{Platform}
        (env : Env) (this : DeepSeekService) (a : GenerateArgs) (w : World) :
  (forall rl w1 ml w2 productId w3 entry w4 v,
      checkRateLimit env (shop a) w = (Ok rl, w1) -> rl_allowed rl = true ->
      checkMonthlyLimit env (shop a) w1 = (Ok ml, w2) -> ml_allowed ml = true ->
      productId_of (product a) = Ok productId ->
      _ensureRedis w2 = (Ok true, w3) ->
      redis_get (buildCacheKey
                   (mkCacheKeyArgs productId (vibe a) (format a)
                                   (keywords a) (includeSocials a))) w3
      = (Ok (Some entry), w4) ->
      entry <> "" -> Json.parse entry = Some v ->
      generateDescription env this a w = (Ok v, w4)
      /\ List.Forall (fun ev => is_fetch ev = false /\ is_usage_increment ev = false)
                     (new_events w w4))
  /\ (forall r w',
        generateDescription env this a w = (r, w') ->
        List.Exists (fun ev => is_usage_increment ev = true) (new_events w w') ->
        exists result,
          r = Ok result
          /\ accepted_from (upstream w) result
          /\ List.Exists (fun ev => is_fetch ev = true) (new_events w w')).
Proof.
  split.
  - intros rl w1 ml w2 pid w3 entry w4 v Hrl Hallowed Hml Hmonth Hpid Hens Hget Hne Hparse.
    assert (Hrun : generateDescription env this a w = (Ok v, w4)).
    { unfold generateDescription. rewrite bind_run, Hrl, Hallowed. cbn [negb].
      rewrite bind_run, Hml, Hmonth. cbn [negb].
      rewrite bind_run. unfold lift at 1. rewrite Hpid.
      rewrite bind_run, Hens, bind_run. unfold cache_lookup.
      rewrite try_catch_run, bind_run, Hget. cbn [present].
      apply String.eqb_neq in Hne. rewrite Hne. cbn [negb mret M_ret mbind option_bind].
      rewrite Hparse. reflexivity. }
    split; [exact Hrun|].
    destruct (checkRateLimit_emits env (shop a) w) as (e1 & E1 & F1).
    rewrite Hrl in E1.
    destruct (checkMonthlyLimit_emits env (shop a) w1) as (e2 & E2 & F2).
    rewrite Hml in E2.
    destruct (_ensureRedis_emits w2) as (e3 & E3 & F3). rewrite Hens in E3.
    assert (G : emits is_check_event
                  (redis_get (buildCacheKey
                                (mkCacheKeyArgs pid (vibe a) (format a)
                                                (keywords a) (includeSocials a)))))
      by (unfold redis_get; emits_auto).
    destruct (G w3) as (e4 & E4 & F4). rewrite Hget in E4. cbn [snd] in *.
    rewrite (new_events_app w w4 (e1 ++ e2 ++ e3 ++ e4))
      by (rewrite E4, E3, E2, E1, <- !List.app_assoc; reflexivity).
    repeat (apply Forall_app; split);
      (eapply List.Forall_impl; [|eassumption]);
      intros ev Hev; apply check_event_quiet in Hev; tauto.
  - intros r w' Hrun Hex.
    destruct (generateDescription_completion env this a w _ _ Hrun)
      as (quiet & evs2 & Enew & Fq & [[-> _]|(result & pid & -> & _ & Hacc & F2 & Hf)]).
    + exfalso. rewrite Enew, app_nil_r in Hex.
      apply List.Exists_exists in Hex as (ev & Hin & Hev).
      rewrite List.Forall_forall in Fq. apply Fq in Hin as [Hu _]. congruence.
    + exists result. repeat split; auto.
      rewrite Enew. apply List.Exists_app. left. exact Hf.
Qed.

Lemma cache_hit_bypasses_upstream_witness :
  exists w4,
    generateDescription (H := scenario_platform) default_env default_service
                        (simple_request tenant) cached_world
    = (Ok weird_value, w4)
    /\ List.Forall (fun ev => is_fetch ev = false /\ is_usage_increment ev = false)
                   (new_events cached_world w4).
Proof.
  eexists.
  eapply (proj1 (cache_hit_bypasses_upstream (H := scenario_platform) default_env
                   default_service (simple_request tenant) cached_world)
            _ _ _ _ _ _ weird_text);
    try (vm_compute; reflexivity).
  discriminate.
Defined.

(** C6, as the claim states it, fails: the request is in the cache and
    the store is available, but the tenant has reached its monthly limit,
    and the checks come before the cache lookup. *)
Lemma cached_request_rejected_by_quota :
  redis_ready exhausted_world = true
  /\ Redis.lookup (now exhausted_world) (redis_db exhausted_world) simple_key
     = Some (Redis.mk_entry weird_text (Some 86400000))
  /\ Json.parse weird_text = Some weird_value
  /\ fst (generateDescription (H := scenario_platform) default_env default_service
            (simple_request tenant) exhausted_world)
     = Throw (Error "Monthly limit reached: 150/150").
Proof. vm_compute. repeat split; reflexivity. Qed.

(** C7, as the source has it, fails for an answer of the model that is
    a JSON array.  An array passes the test [typeof parsed !== "object"]
    that is meant to let objects only through; the two keys are then
    set on it as named properties, which [JSON.stringify] does not
    serialise.  So for every array the result, which has both keys in
    memory and whose empty description is left as it is, is serialised
    as the bare array, without the keys; and in the run below the
    answer [[]] is returned with both keys, cached for 86400 seconds as
    the text [[]], and served a second later to the same request,
    without an upstream call, as an array that has neither key. *)
Theorem cached_array_lacks_keys `{Platform} :
  (forall elems props,
      truthy (JArr elems props) = true
      /\ is_object (JArr elems props) = true
      /\ has_prop "description" (normalize_keys (JArr elems props)) = true
      /\ has_prop "socials" (normalize_keys (JArr elems props)) = true
      /\ stringify (normalize_keys (JArr elems props)) = stringify (JArr elems [])
      /\ sanitize_description (normalize_keys (JArr elems []))
         = Ok (JArr elems [("description", JStr ""); ("socials", JNull)]))
  /\ (let first := generateDescription (H := scenario_platform) default_env
                     default_service (simple_request tenant) array_world in
      let second := generateDescription (H := scenario_platform) default_env
                      default_service (simple_request tenant)
                      (advance 1000 (snd first)) in
      fst first = Ok (JArr [] [("description", JStr ""); ("socials", JNull)])
      /\ List.filter is_cache_write (trace (snd first))
         = [EvCommand (Redis.SETEX simple_key 86400 "[]") true]
      /\ fst second = Ok (JArr [] [])
      /\ has_prop "description" (JArr [] []) = false
      /\ has_prop "socials" (JArr [] []) = false
      /\ List.filter is_fetch (new_events (snd first) (snd second)) = []).
Proof.
  split.
  - intros elems props.
    destruct (normalize_keys_props (JArr elems props) eq_refl) as (_ & Hd & Hs).
    split; [reflexivity|]. split; [reflexivity|]. split; [exact Hd|]. split.
    + unfold has_prop. rewrite Hs. reflexivity.
    + split; [|reflexivity]. unfold normalize_keys.
      destruct (has_prop "description" (JArr elems props));
        [destruct (has_prop "socials" (JArr elems props))
        |destruct (has_prop "socials"
                     (set_prop "description" (JStr "") (JArr elems props)))];
        reflexivity.
  - vm_compute. repeat split; reflexivity.
Qed.

(** C10: what a fresh generation returns has the [socials] of the object
    extracted from the model's text (null when it has none), whatever
    [includeSocials] is; the sanitizer is applied to the description
    only; and what is written to the cache is the serialisation of the
    value returned. *)
Theorem socials_are_not_sanitized `{Platform}
        (env : Env) (this : DeepSeekService) (a : GenerateArgs)
        (w : World) (result : JSON) (w' : World) :
  generateDescription env this a w = (Ok result, w') ->
  List.Exists (fun ev => is_fetch ev = true) (new_events w w') ->
  exists latency res payload text parsed,
    In (FetchResolves latency res) (upstream w)
    /\ payload_of res = Ok payload
    /\ aiText_of payload = Ok text
    /\ extractJsonFromText text = Ok parsed
    /\ get_prop result "socials" = Some (default JNull (get_prop parsed "socials"))
    /\ (forall s, get_prop result "socials" = Some s ->
          get_prop s "twitter" = opt_get (get_prop parsed "socials") "twitter"
          /\ get_prop s "instagram" = opt_get (get_prop parsed "socials") "instagram")
    /\ (forall ev, In ev (new_events w w') -> is_cache_write ev = true ->
          exists key ok,
            ev = EvCommand (Redis.SETEX key 86400 (stringify result)) ok).
Proof.
  intros Hrun Hfresh.
  destruct (generateDescription_completion env this a w _ _ Hrun)
    as (quiet & evs2 & Enew & Fq
        & [[-> [Fnf|[e He]]]|(result' & pid & Hres & Hpid & Hacc & F2 & _)]).
  - exfalso. rewrite Enew, app_nil_r in Hfresh.
    apply List.Exists_exists in Hfresh as (ev & Hin & Hev).
    rewrite List.Forall_forall in Fnf. rewrite (Fnf _ Hin) in Hev. discriminate.
  - discriminate He.
  - injection Hres as <-.
    destruct Hacc as (latency & res & raw & Hup & Hok & Hint & Hsan).
    destruct (interpret_response_ok _ _ Hint)
      as (payload & text & parsed & Hp & Ht & Hx & Hobj & ->).
    destruct (normalize_keys_props parsed Hobj) as (Hobj' & Hdesc & Hsoc).
    destruct (sanitize_description_props _ _ Hobj' Hsan) as (_ & Hs & _).
    assert (Hsocials : get_prop result "socials"
                       = Some (default JNull (get_prop parsed "socials")))
      by (rewrite Hs; exact Hsoc).
    exists latency, res, payload, text, parsed.
    split; [exact Hup|]. split; [exact Hp|]. split; [exact Ht|].
    split; [exact Hx|]. split; [exact Hsocials|]. split.
    + intros s Hread. rewrite Hsocials in Hread. injection Hread as <-.
      destruct (get_prop parsed "socials"); split; reflexivity.
    + intros ev Hin Hwrite. rewrite Enew in Hin.
      apply in_app_or in Hin as [Hin|Hin].
      * rewrite List.Forall_forall in Fq. apply Fq in Hin as [_ Hq]. congruence.
      * rewrite List.Forall_forall in F2.
        destruct (completion_cache_write _ _ _ (F2 _ Hin) Hwrite) as (ok & ->).
        eauto.
Qed.

(** The model answers with captions that carry markup, to a request
    that did not ask for captions: the description comes back purified,
    and the captions reach the caller, and the cache, as the model wrote
    them. *)
Lemma socials_are_not_sanitized_witness :
  exists result w',
    generateDescription (H := scenario_platform) default_env default_service
                        (simple_request tenant) markup_world
    = (Ok result, w')
    /\ includeSocials (simple_request tenant) = false
    /\ get_prop result "description"
       = Some (JStr "<p>Hi</p>more")
    /\ (exists s,
           get_prop result "socials" = Some s
           /\ get_prop s "twitter"
              = Some (JStr "<b onclick=x>Hi</b><a href=/x>t</a>")
           /\ get_prop s "instagram"
              = Some (JStr "<div>ig</div>"))
    /\ (exists written,
           List.filter is_cache_write (new_events markup_world w')
           = [EvCommand (Redis.SETEX simple_key 86400 written) true]
           /\ written = stringify (H := scenario_platform) result
           /\ written
              = "{" +:+ quoted "description" +:+ ":" +:+ quoted "<p>Hi</p>more"
                 +:+ "," +:+ quoted "socials" +:+ ":{"
                 +:+ quoted "twitter" +:+ ":"
                 +:+ quoted "<b onclick=x>Hi</b><a href=/x>t</a>" +:+ ","
                 +:+ quoted "instagram" +:+ ":" +:+ quoted "<div>ig</div>" +:+ "}}").
Proof.
  set (run := generateDescription (H := scenario_platform) default_env
                default_service (simple_request tenant) markup_world).
  assert (Hrun : generateDescription (H := scenario_platform) default_env
                   default_service (simple_request tenant) markup_world
                 = (fst run, snd run)) by (subst run; apply surjective_pairing).
  assert (Hok : exists result, fst run = Ok result)
    by (eexists; subst run; vm_compute; reflexivity).
  destruct Hok as (result & Hres). rewrite Hres in Hrun.
  assert (Hfilter : List.filter is_cache_write (new_events markup_world (snd run))
                    = [EvCommand
                         (Redis.SETEX simple_key 86400
                            ("{" +:+ quoted "description" +:+ ":"
                             +:+ quoted "<p>Hi</p>more"
                             +:+ "," +:+ quoted "socials" +:+ ":{"
                             +:+ quoted "twitter" +:+ ":"
                             +:+ quoted "<b onclick=x>Hi</b><a href=/x>t</a>" +:+ ","
                             +:+ quoted "instagram" +:+ ":"
                             +:+ quoted "<div>ig</div>" +:+ "}}")) true])
    by (subst run; vm_compute; reflexivity).
  destruct (socials_are_not_sanitized (H := scenario_platform) default_env
              default_service (simple_request tenant) markup_world
              result (snd run) Hrun)
    as (latency & res & payload & text & parsed
        & Hin & Hp & Ht & Hx & Hs & Hstrings & Hcache).
  - apply List.Exists_exists. eexists.
    split; [subst run; vm_compute; do 4 right; left; reflexivity | reflexivity].
  - destruct Hin as [Hin|[]]. injection Hin as <- <-.
    vm_compute in Hp. injection Hp as <-.
    vm_compute in Ht. injection Ht as <-.
    assert (Hv : extractJsonFromText markup_text = Ok markup_value)
      by (vm_compute; reflexivity).
    change (extractJsonFromText markup_text = Ok parsed) in Hx.
    rewrite Hv in Hx. injection Hx as <-.
    change (get_prop markup_value "socials")
      with (Some (JObj [("twitter", JStr "<b onclick=x>Hi</b><a href=/x>t</a>");
                        ("instagram", JStr "<div>ig</div>")])) in Hs, Hstrings.
    cbn [default from_option id] in Hs.
    destruct (Hstrings _ Hs) as (Htw & Hig).
    exists result, (snd run). split; [exact Hrun|]. split; [reflexivity|].
    split.
    { subst run. vm_compute in Hres. injection Hres as <-. reflexivity. }
    split.
    { eexists. split; [exact Hs|]. split; [exact Htw | exact Hig]. }
    eexists. split; [exact Hfilter|]. split; [|reflexivity].
    assert (Hev : In (EvCommand
                        (Redis.SETEX simple_key 86400
                           ("{" +:+ quoted "description" +:+ ":"
                            +:+ quoted "<p>Hi</p>more"
                            +:+ "," +:+ quoted "socials" +:+ ":{"
                            +:+ quoted "twitter" +:+ ":"
                            +:+ quoted "<b onclick=x>Hi</b><a href=/x>t</a>" +:+ ","
                            +:+ quoted "instagram" +:+ ":"
                            +:+ quoted "<div>ig</div>" +:+ "}}")) true)
                     (new_events markup_world (snd run))).
    { apply (proj1 (filter_In is_cache_write _ _)). rewrite Hfilter. left.
      reflexivity. }
    destruct (Hcache _ Hev eq_refl) as (key & ok & Hwritten).
    injection Hwritten as _ Hw. exact Hw.
Defined.




(** C5, as the claim states it, fails for the time it takes to read the
    body: the response arrives after 10 ms, within the 25000 ms of the
    timer, and its body takes 60000 ms; the attempt is not aborted and
    returns after 60010 ms. *)
Lemma slow_body_is_not_aborted :
  let run := generateDescription (H := scenario_platform) default_env
               default_service (simple_request None) slow_body_world in
  timeout default_service = 25000
  /\ fst run = Ok weird_value
  /\ now (snd run) - now slow_body_world = 60010
  /\ List.filter (fun ev => match ev with EvAbort => true | _ => false end)
                 (trace (snd run)) = [].
Proof. vm_compute. repeat split; reflexivity. Qed.

(* ===================================================================== *)
(** ** Further properties of the service and of the history *)
(* ===================================================================== *)

(** *** Decimal numerals *)

Lemma span_digits_all l :
  List.Forall (fun a => is_digit a = true) l -> span_digits l = (l, []).
Proof.
  induction 1 as [|a l Ha _ IH]; [reflexivity|].
  cbn [span_digits]. rewrite Ha, IH. reflexivity.
Qed.

Lemma uint_digits d :
  List.Forall (fun a => is_digit a = true) (chars (NilEmpty.string_of_uint d)).
Proof.
  induction d; cbn [NilEmpty.string_of_uint]; rewrite ?chars_cons;
    constructor; try reflexivity; assumption.
Qed.

Lemma uint_value_acc d :
  forall acc,
    fold_left step10 (chars (NilEmpty.string_of_uint d)) (Z.pos acc)
    = Z.pos (Pos.of_uint_acc d acc).
Proof.
  induction d; intros acc; cbn [NilEmpty.string_of_uint Pos.of_uint_acc];
    rewrite ?chars_cons; cbn [fold_left]; try reflexivity;
    match goal with
    | |- fold_left _ _ ?x = Z.pos (Pos.of_uint_acc _ ?p) =>
        replace x with (Z.pos p)
          by (unfold step10;
              match goal with
              | |- context [digit_val ?c] =>
                  let v := eval vm_compute in (digit_val c) in
                  change (digit_val c) with v
              end; lia)
    end; apply IHd.
Qed.

Lemma uint_value d :
  fold_left step10 (chars (NilEmpty.string_of_uint d)) 0 = Z.of_N (Pos.of_uint d).
Proof.
  induction d; cbn [NilEmpty.string_of_uint Pos.of_uint];
    rewrite ?chars_cons; cbn [fold_left]; try reflexivity;
    try exact IHd;
    match goal with
    | |- fold_left _ _ ?x = Z.of_N (N.pos (Pos.of_uint_acc _ ?p)) =>
        change x with (Z.pos p)
    end; apply uint_value_acc.
Qed.

Lemma trimStart_digit a l :
  is_digit a = true -> trimStart_chars (a :: l) = a :: l.
Proof.
  intros Ha. unfold is_digit in Ha. cbn [trimStart_chars].
  assert (H1 : ws1 a = false) by (unfold ws1; lia).
  rewrite H1. destruct l as [|b r2]; [reflexivity|].
  assert (H2 : ws2 a b = false) by (unfold ws2; lia). rewrite H2.
  destruct r2 as [|c r3]; [reflexivity|].
  assert (H3 : ws3 a b c = false) by (unfold ws3; lia). rewrite H3. reflexivity.
Qed.

Lemma parseInt_digits l :
  l <> [] -> List.Forall (fun a => is_digit a = true) l ->
  parseInt (of_chars l) = round_double (digits_val l)
  /\ parseInt (of_chars ("-"%char :: l)) = round_double (- digits_val l).
Proof.
  intros Hne Hd. destruct l as [|a l]; [congruence|].
  pose proof (Forall_inv Hd) as Ha.
  unfold parseInt. rewrite !chars_of_chars. split.
  - rewrite trimStart_digit by exact Ha.
    assert (Hs : match a :: l with
                 | "-"%char :: r => (true, r)
                 | "+"%char :: r => (false, r)
                 | _ => (false, a :: l)
                 end = (false, a :: l)).
    { unfold is_digit in Ha.
      destruct (Ascii.eqb_spec a "-") as [->|]; [discriminate Ha|].
      destruct (Ascii.eqb_spec a "+") as [->|]; [discriminate Ha|].
      destruct a as [[] [] [] [] [] [] [] []]; try reflexivity; congruence. }
    rewrite Hs, (span_digits_all _ Hd). reflexivity.
  - replace (trimStart_chars ("-"%char :: a :: l)) with ("-"%char :: a :: l).
    2:{ cbn [trimStart_chars]. change (ws1 "-") with false. cbv iota.
        change (ws2 "-" a) with false. cbv iota.
        destruct l; reflexivity. }
    rewrite (span_digits_all _ Hd). reflexivity.
Qed.

Lemma uint_nonempty d : d <> Decimal.Nil -> chars (NilEmpty.string_of_uint d) <> [].
Proof. destruct d; intros Hd; try discriminate. congruence. Qed.

(** A counter written in decimal reads back as the nearest double. *)
Lemma parseInt_of_Z z : parseInt (of_Z z) = round_double z.
Proof.
  unfold of_Z. destruct z as [|p|p]; [reflexivity| |].
  - cbn [Z.to_int NilZero.string_of_int].
    assert (Hnil : Pos.to_uint p <> Decimal.Nil)
      by (intros E; exact (DecimalPos.Unsigned.to_uint_nonnil _ E)).
    replace (NilZero.string_of_uint (Pos.to_uint p))
      with (of_chars (chars (NilEmpty.string_of_uint (Pos.to_uint p)))).
    2:{ unfold of_chars, chars. rewrite string_of_list_ascii_of_string.
        destruct (Pos.to_uint p); try reflexivity. congruence. }
    rewrite (proj1 (parseInt_digits _ (uint_nonempty _ Hnil) (uint_digits _))).
    unfold digits_val. change (fun acc d => 10 * acc + digit_val d) with step10.
    rewrite uint_value. f_equal.
    change (Z.of_N (Pos.of_uint (Pos.to_uint p))) with (Z.of_uint (Pos.to_uint p)).
    change (Z.of_uint (Pos.to_uint p)) with (Z.of_int (Z.to_int (Z.pos p))).
    apply DecimalZ.of_to.
  - cbn [Z.to_int NilZero.string_of_int].
    assert (Hnil : Pos.to_uint p <> Decimal.Nil)
      by (intros E; exact (DecimalPos.Unsigned.to_uint_nonnil _ E)).
    replace (String "-" (NilZero.string_of_uint (Pos.to_uint p)))
      with (of_chars ("-"%char :: chars (NilEmpty.string_of_uint (Pos.to_uint p)))).
    2:{ unfold of_chars, chars. cbn [string_of_list_ascii].
        rewrite string_of_list_ascii_of_string.
        destruct (Pos.to_uint p); try reflexivity. congruence. }
    rewrite (proj2 (parseInt_digits _ (uint_nonempty _ Hnil) (uint_digits _))).
    unfold digits_val. change (fun acc d => 10 * acc + digit_val d) with step10.
    rewrite uint_value. f_equal.
    change (Z.of_N (Pos.of_uint (Pos.to_uint p))) with (Z.of_uint (Pos.to_uint p)).
    change (- Z.of_uint (Pos.to_uint p)) with (Z.of_int (Z.to_int (Z.neg p))).
    apply DecimalZ.of_to.
Qed.

Lemma counted_of_Z n exp :
  counted (Some (Redis.mk_entry (of_Z n) exp)) = round_double n.
Proof. unfold counted. cbn. apply parseInt_of_Z. Qed.

Lemma checkMonthlyLimit_run `{Platform} (env : Env) (shop : string) (w : World) :
  shop <> "" -> redis_ready w = true -> faults w = [] ->
  checkMonthlyLimit env (Some shop) w
  = (Ok (mkMonthlyLimit (negb (num_ge (counted (counter_of shop w)) (MONTHLY_LIMIT env)))
                        (counted (counter_of shop w)) (MONTHLY_LIMIT env)),
     with_trace (EvCommand (Redis.GET (usageKey_text (Some shop) (now w))) true) w).
Proof.
  intros Hshop Hready Hfaults.
  destruct w as [t ready db cs fs up tr]. world_simpl in *. subst ready fs.
  unfold checkMonthlyLimit. cbn [present].
  apply String.eqb_neq in Hshop. rewrite Hshop. cbn [negb].
  rewrite bind_run. unfold _ensureRedis at 1.
  rewrite bind_run. unfold redis_status_ready. world_simpl.
  rewrite try_catch_run, bind_run. unfold usageKey at 1.
  rewrite bind_run. unfold Date_now at 1. world_simpl.
  rewrite bind_run. unfold redis_get at 1.
  rewrite bind_run. unfold redis_call at 1. world_simpl.
  unfold Redis.exec. world_simpl.
  unfold counted, counter_of, usageKey_text. world_simpl.
  destruct (num_ge _ _); reflexivity.
Qed.

Lemma num_str_exact n : Z.abs n < MAX_EXACT -> num_str (Finite n) = of_Z n.
Proof. intros Hn. unfold num_str. rewrite (proj2 (Z.ltb_lt _ _) Hn). reflexivity. Qed.

Lemma incrementUsage_counts `{Platform} (shop : string) (n k : Z) (w : World) :
  shop <> "" -> redis_ready w = true -> faults w = [] ->
  counter_holds shop w k ->
  Z.abs n < MAX_EXACT ->
  Redis.LLONG_MIN <= k <= Redis.LLONG_MAX ->
  Redis.LLONG_MIN <= k + n <= Redis.LLONG_MAX ->
  1000 <= Date_monthAfterNext (now w) - now w ->
  let key := usageKey_text (Some shop) (now w) in
  let ttl := (Date_monthAfterNext (now w) - now w) / 1000 in
  exists db',
    incrementUsage (Some shop) (Finite n) w
    = (Ok tt,
       mkWorld (now w) true db' (connects w) [] (upstream w)
               (trace w ++ [EvCommand (Redis.INCRBY key (of_Z n)) true;
                            EvCommand (Redis.EXPIRE key ttl) true]))
    /\ db' !! key = Some (Redis.mk_entry (of_Z (k + n)) (Some (now w + 1000 * ttl)))
    /\ forall other, other <> key -> db' !! other = redis_db w !! other.
Proof.
  intros Hshop Hready Hfaults Hcount Hn Hk Hsum Hnext key ttl.
  assert (Httl : 1 <= ttl) by (subst ttl; apply Z.div_le_lower_bound; lia).
  pose proof Hn as Hn'. rewrite MAX_EXACT_value in Hn'.
  rewrite LLONG_MAX_value, LLONG_MIN_value in Hk, Hsum.
  destruct w as [t ready db cs fs up tr]. world_simpl in *. subst ready fs.
  unfold counter_holds, counter_of in Hcount. world_simpl in *. fold key in Hcount.
  unfold incrementUsage. cbn [present].
  apply String.eqb_neq in Hshop. rewrite Hshop. cbn [negb].
  rewrite bind_run. unfold _ensureRedis at 1.
  rewrite bind_run. unfold redis_status_ready. world_simpl.
  rewrite try_catch_run, bind_run. unfold usageKey at 1.
  rewrite bind_run. unfold Date_now at 1. world_simpl.
  rewrite bind_run. unfold redis_incrby at 1.
  rewrite bind_run. unfold redis_call at 1. world_simpl.
  rewrite (num_str_exact n Hn).
  unfold Redis.exec.
  rewrite string2ll_of_Z by (rewrite LLONG_MAX_value, LLONG_MIN_value; lia).
  change ("deepseek:usage:" +:+ shop +:+ ":" +:+ Date_isoMonth t) with key.
  set (stored := Redis.mk_entry (of_Z (k + n))
                   (Redis.lookup t db key ≫= Redis.expires)).
  assert (Hexec : Redis.incrby t key n db
                  = Ok (Redis.RInt (k + n), <[key := stored]> db)).
  { unfold Redis.incrby. subst stored.
    assert (Hold : Redis.string2ll
                     (default "0" (Redis.value <$> Redis.lookup t db key)) = Some k).
    { destruct Hcount as [[-> ->]|[exp ->]]; [reflexivity|].
      cbn [fmap option_fmap option_map default from_option id Redis.value].
      apply string2ll_of_Z. rewrite LLONG_MAX_value, LLONG_MIN_value. lia. }
    rewrite Hold.
    replace ((n <? 0) && (k <? 0) && (n <? Redis.LLONG_MIN - k)
             || (0 <? n) && (0 <? k) && (Redis.LLONG_MAX - k <? n)) with false;
      [reflexivity|].
    rewrite LLONG_MAX_value, LLONG_MIN_value. symmetry.
    apply orb_false_iff. split; apply andb_false_iff; right; lia. }
  rewrite Hexec. world_simpl. rewrite bind_run. unfold Date_now at 1. world_simpl.
  unfold redis_expire. rewrite bind_run. unfold redis_call at 1. world_simpl.
  fold ttl. unfold Redis.exec, Redis.lookup. rewrite lookup_insert_eq.
  assert (Hlive : Redis.live t stored = true).
  { subst stored. unfold Redis.live. cbn [Redis.expires].
    destruct (Redis.lookup t db key) as [e|] eqn:He; [|reflexivity].
    unfold Redis.lookup in He. destruct (db !! key) as [e'|]; [|discriminate].
    destruct (Redis.live t e') eqn:Hl; [|discriminate]. injection He as <-.
    exact Hl. }
  rewrite Hlive. replace (ttl <=? 0) with false by lia.
  world_simpl. unfold with_trace. world_simpl.
  eexists. split; [rewrite <- List.app_assoc; reflexivity|]. split.
  - rewrite lookup_insert_eq. reflexivity.
  - intros other Hother. rewrite !lookup_insert_ne by congruence. reflexivity.
Qed.

(** A world whose monthly counter is beyond the integers that a number
    holds exactly. *)
Lemma big_counter_holds :
  counter_of (H := scenario_platform) "shop.example"
    (with_db (<["deepseek:usage:shop.example:2026-01"
                := Redis.mk_entry "9007199254740993" None]> ∅) quiet_world)
  = Some (Redis.mk_entry (of_Z 9007199254740993) None).
Proof. reflexivity. Qed.

(** X1: for a shop, with the store connected and answering,
    [checkMonthlyLimit] sends one GET of the usage key of the current
    month and answers from the counter alone: [used] is the number that
    [parseInt] reads there (the stored integer itself below 2^53, the
    nearest double beyond, 0 when the key is absent), and the request is
    allowed exactly when [used] is below the limit. *)
Theorem checkMonthlyLimit_reads_counter `{Platform}
        (env : Env) (shop : string) (w : World) :
  shop <> "" -> redis_ready w = true -> faults w = [] ->
  let used := counted (counter_of shop w) in
  checkMonthlyLimit env (Some shop) w
  = (Ok (mkMonthlyLimit (negb (num_ge used (MONTHLY_LIMIT env)))
                        used (MONTHLY_LIMIT env)),
     with_trace (EvCommand (Redis.GET (usageKey_text (Some shop) (now w))) true) w)
  /\ (counter_of shop w = None -> used = Finite 0)
  /\ (forall n exp,
        counter_of shop w = Some (Redis.mk_entry (of_Z n) exp) ->
        used = round_double n /\ (Z.abs n < MAX_EXACT -> used = Finite n))
  /\ (forall u lim,
        used = Finite u -> MONTHLY_LIMIT env = Finite lim ->
        negb (num_ge used (MONTHLY_LIMIT env)) = (u <? lim)).
Proof.
  intros Hshop Hready Hfaults used. split; [|split; [|split]].
  - apply checkMonthlyLimit_run; assumption.
  - subst used. intros ->. reflexivity.
  - subst used. intros n exp ->. rewrite counted_of_Z.
    split; [reflexivity | apply round_double_exact].
  - intros u lim -> ->. unfold num_ge. cbn [num_gt num_eq].
    destruct (Z.ltb_spec lim u), (Z.eqb_spec u lim), (Z.ltb_spec u lim);
      try reflexivity; lia.
Qed.

Lemma checkMonthlyLimit_reads_counter_witness :
  fst (checkMonthlyLimit (H := scenario_platform)
         (mkEnv None None None (Some "9007199254740992")) tenant
         (with_db (<["deepseek:usage:shop.example:2026-01"
                     := Redis.mk_entry "9007199254740993" None]> ∅) quiet_world))
  = Ok (mkMonthlyLimit false (Finite 9007199254740992) (Finite 9007199254740992)).
Proof.
  destruct (checkMonthlyLimit_reads_counter (H := scenario_platform)
              (mkEnv None None None (Some "9007199254740992")) "shop.example"
              (with_db (<["deepseek:usage:shop.example:2026-01"
                          := Redis.mk_entry "9007199254740993" None]> ∅) quiet_world))
    as (Hrun & _ & Hused & _); [discriminate | reflexivity | reflexivity |].
  unfold tenant. rewrite Hrun. cbn [fst].
  rewrite (proj1 (Hused 9007199254740993 None big_counter_holds)).
  vm_compute. reflexivity.
Defined.

(** X2: what [incrementUsage] adds is what [checkMonthlyLimit] reads.
    With the store connected and answering, a counter that holds the
    64-bit integer [k], and an increment [n] below 2^53 in absolute
    value that does not overflow the counter, [incrementUsage shop n]
    sends INCRBY with the decimal text of [n] and then EXPIRE, and a
    check made later in the same month, not after the expiry, reports
    the number that [parseInt] reads in [k + n]: [k + n] itself below
    2^53, the nearest double beyond. *)
Theorem usage_is_read_back `{Platform}
        (env : Env) (shop : string) (n k gap : Z) (w : World) :
  shop <> "" -> redis_ready w = true -> faults w = [] ->
  counter_holds shop w k ->
  Z.abs n < MAX_EXACT ->
  Redis.LLONG_MIN <= k <= Redis.LLONG_MAX ->
  Redis.LLONG_MIN <= k + n <= Redis.LLONG_MAX ->
  let ttl := (Date_monthAfterNext (now w) - now w) / 1000 in
  1000 <= Date_monthAfterNext (now w) - now w ->
  0 <= gap <= 1000 * ttl ->
  Date_isoMonth (now w + gap) = Date_isoMonth (now w) ->
  exists w1,
    incrementUsage (Some shop) (Finite n) w = (Ok tt, w1)
    /\ new_events w w1
       = [EvCommand (Redis.INCRBY (usageKey_text (Some shop) (now w)) (of_Z n)) true;
          EvCommand (Redis.EXPIRE (usageKey_text (Some shop) (now w)) ttl) true]
    /\ fst (checkMonthlyLimit env (Some shop) (advance gap w1))
       = Ok (mkMonthlyLimit
               (negb (num_ge (round_double (k + n)) (MONTHLY_LIMIT env)))
               (round_double (k + n)) (MONTHLY_LIMIT env))
    /\ (Z.abs (k + n) < MAX_EXACT -> round_double (k + n) = Finite (k + n)).
Proof.
  intros Hshop Hready Hfaults Hcount Hn Hk Hsum ttl Hnext Hgap Hmonth.
  destruct (incrementUsage_counts shop n k w Hshop Hready Hfaults Hcount Hn Hk Hsum
              Hnext)
    as (db' & Hrun & Hkey & _).
  fold ttl in Hrun, Hkey.
  eexists. split; [exact Hrun|]. split; [|split].
  - apply new_events_app. reflexivity.
  - rewrite checkMonthlyLimit_run by (first [exact Hshop | reflexivity]).
    cbn [fst]. unfold counter_of, usageKey_text. world_simpl.
    rewrite Hmonth. unfold Redis.lookup.
    unfold usageKey_text in Hkey. cbn [default from_option id] in Hkey.
    rewrite Hkey. unfold Redis.live. cbn [Redis.expires].
    replace (now w + gap <=? now w + 1000 * ttl) with true by lia.
    rewrite counted_of_Z. reflexivity.
  - apply round_double_exact.
Qed.

Lemma usage_is_read_back_witness :
  exists w1,
    incrementUsage (H := scenario_platform) tenant (Finite 1)
      (with_db (<["deepseek:usage:shop.example:2026-01"
                  := Redis.mk_entry "9007199254740992" None]> ∅) quiet_world)
    = (Ok tt, w1)
    /\ redis_db w1 !! "deepseek:usage:shop.example:2026-01"
       = Some (Redis.mk_entry "9007199254740993" (Some 5184000000))
    /\ fst (checkMonthlyLimit (H := scenario_platform) default_env tenant
              (advance 3600000 w1))
       = Ok (mkMonthlyLimit false (Finite 9007199254740992) (Finite 150)).
Proof.
  destruct (usage_is_read_back (H := scenario_platform) default_env "shop.example"
              1 9007199254740992 3600000
              (with_db (<["deepseek:usage:shop.example:2026-01"
                          := Redis.mk_entry "9007199254740992" None]> ∅) quiet_world))
    as (w1 & Hrun & _ & Hcheck & _).
  - discriminate.
  - reflexivity.
  - reflexivity.
  - right. exists None. reflexivity.
  - reflexivity.
  - vm_compute. split; discriminate.
  - vm_compute. split; discriminate.
  - vm_compute. discriminate.
  - vm_compute. split; discriminate.
  - reflexivity.
  - exists w1. unfold tenant. split; [exact Hrun|]. split.
    + vm_compute in Hrun. injection Hrun as <-. vm_compute. reflexivity.
    + rewrite Hcheck. vm_compute. reflexivity.
Defined.

(** X3: a limit that [parseInt] cannot read limits nothing: when
    MAX_REQUESTS_PER_MINUTE is not a number every rate check allows the
    request, and when FREE_TIER_LIMIT is not a number every monthly
    check does, whatever the store holds. *)
Theorem unparsable_limit_is_no_limit `{Platform} (env : Env)
        (shop : option string) (w : World) :
  (RATE_LIMIT_PER_MIN env = NaN ->
   exists rl w', checkRateLimit env shop w = (Ok rl, w') /\ rl_allowed rl = true)
  /\ (MONTHLY_LIMIT env = NaN ->
      exists ml w', checkMonthlyLimit env shop w = (Ok ml, w') /\ ml_allowed ml = true).
Proof.
  split; intros Hnone.
  - unfold checkRateLimit. rewrite Hnone.
    destruct (negb (present shop)); [eexists _, _; split; reflexivity|].
    rewrite bind_run.
    destruct (never_throws_run _ w _ensureRedis_never_throws) as (ok & w1 & ->).
    destruct (negb ok); [eexists _, _; split; reflexivity|].
    rewrite try_catch_run, bind_run.
    destruct (redis_incr _ w1) as [[count|e] w2];
      [|eexists _, _; split; reflexivity].
    rewrite bind_run.
    replace (num_gt count NaN) with false by (destruct count; reflexivity).
    destruct ((if num_eq count (Finite 1) then redis_expire _ 60 else mret tt) w2)
      as [[[]|e] w3];
      eexists _, _; split; reflexivity.
  - unfold checkMonthlyLimit. rewrite Hnone.
    destruct (negb (present shop)); [eexists _, _; split; reflexivity|].
    rewrite bind_run.
    destruct (never_throws_run _ w _ensureRedis_never_throws) as (ok & w1 & ->).
    destruct (negb ok); [eexists _, _; split; reflexivity|].
    rewrite try_catch_run, bind_run.
    destruct (usageKey _ w1) as [[key|e] w2];
      [|eexists _, _; split; reflexivity].
    rewrite bind_run.
    destruct (redis_get key w2) as [[stored|e] w3];
      [|eexists _, _; split; reflexivity].
    replace (num_ge (parseInt (default "0" stored)) NaN) with false
      by (destruct (parseInt _); reflexivity).
    eexists _, _; split; reflexivity.
Qed.

Lemma unparsable_limit_is_no_limit_witness :
  RATE_LIMIT_PER_MIN (mkEnv None None (Some "unlimited") None) = NaN
  /\ exists rl w',
      checkRateLimit (H := scenario_platform)
        (mkEnv None None (Some "unlimited") None) tenant quiet_world
      = (Ok rl, w')
      /\ rl_allowed rl = true.
Proof.
  split; [reflexivity|].
  exact (proj1 (unparsable_limit_is_no_limit (H := scenario_platform)
                  (mkEnv None None (Some "unlimited") None) tenant quiet_world)
           eq_refl).
Defined.

(** *** Induction on JSON values *)

Lemma JSON_nested_ind (P : JSON -> Prop) :
  P JNull -> (forall b, P (JBool b)) -> (forall lexeme, P (JNum lexeme)) ->
  (forall s, P (JStr s)) ->
  (forall elems props,
      List.Forall P elems -> List.Forall (fun kv => P (snd kv)) props ->
      P (JArr elems props)) ->
  (forall members, List.Forall (fun kv => P (snd kv)) members -> P (JObj members)) ->
  forall v, P v.
Proof.
  intros HNull HBool HNum HStr HArr HObj.
  fix IH 1. intros [|b|lexeme|s|elems props|members].
  - exact HNull.
  - apply HBool.
  - apply HNum.
  - apply HStr.
  - apply HArr.
    + induction elems as [|x r IHr]; constructor; [apply IH | exact IHr].
    + induction props as [|[k x] r IHr]; constructor; [apply IH | exact IHr].
  - apply HObj.
    induction members as [|[k x] r IHr]; constructor; [apply IH | exact IHr].
Qed.

Section Conversions.
Context `{Platform}.

(** The only error of [String(v)] is the TypeError of an object whose
    [toString] is not callable. *)
Lemma ToString_error v e : ToString v = Throw e -> e = cannot_convert.
Proof.
  revert e. induction v as [| | | |elems props IHe _|members _] using JSON_nested_ind;
    intros e; cbn [ToString]; try discriminate.
  - match goal with
    | |- ?go elems true = _ -> _ =>
        enough (G : forall first e', go elems first = Throw e' -> e' = cannot_convert)
          by (apply G)
    end.
    induction IHe as [|x r Hx _ IHr]; intros first e'; [discriminate|].
    assert (Ht : forall e0,
               match x with JNull => Ok "" | _ => ToString x end = Throw e0 ->
               e0 = cannot_convert)
      by (intros e0; destruct x; try discriminate; apply Hx).
    simpl.
    destruct (match x with JNull => Ok "" | _ => ToString x end) as [s0|e0] eqn:Es.
    + match goal with
      | |- context [match ?t with Ok _ => _ | Throw _ => _ end] =>
          destruct t as [rest|e1] eqn:Er
      end; [discriminate|].
      intros [= <-]. eapply IHr. exact Er.
    + intros [= <-]. apply Ht. reflexivity.
  - destruct (lookup_key "toString" members); [|discriminate].
    intros [= <-]. reflexivity.
Qed.

Lemma array_join_error sep l e : array_join sep l = Throw e -> e = cannot_convert.
Proof.
  induction l as [|x r IH]; cbn [array_join]; [discriminate|].
  destruct (match x with JNull => Ok "" | _ => ToString x end) as [s|e0] eqn:Es.
  - destruct r as [|y r']; [discriminate|].
    destruct (array_join sep (y :: r')) as [rest|e1]; [discriminate|].
    intros [= <-]. apply IH. reflexivity.
  - intros [= <-]. destruct x; try discriminate; eapply ToString_error; exact Es.
Qed.

(** The lines of the prompt fail to build only with a TypeError. *)
Lemma promptLines_error a e :
  promptLines a = Throw e ->
  e = TypeError not_a_function \/ e = cannot_convert.
Proof.
  unfold promptLines.
  destruct (oldDescription_of _) as [o|e0] eqn:Eo; cbn [mbind Exc_bind].
  2:{ intros [= <-]. left. unfold oldDescription_of in Eo.
      destruct (opt_get _ "description") as [[]|]; congruence. }
  destruct (metafields_text _) as [m|e0] eqn:Em; cbn [mbind Exc_bind].
  2:{ intros [= <-]. right. unfold metafields_text in Em.
      destruct (normalizeMetafields _); [discriminate|].
      eapply array_join_error; exact Em. }
  destruct (ToString _) as [t|e0] eqn:Et; cbn [mbind Exc_bind mret Exc_ret];
    [discriminate|].
  intros [= <-]. right. eapply ToString_error; exact Et.
Qed.

Lemma productId_of_error p e : productId_of p = Throw e -> e = cannot_convert.
Proof.
  unfold productId_of. destruct (opt_get p "id") as [v|]; [|discriminate].
  destruct v; try discriminate; apply ToString_error.
Qed.

End Conversions.

(** *** Invariants of the world *)

Section Preserves.
Variable P : World -> Prop.

Lemma preserves_ret {A} (a : A) : preserves P (mret a : M A).
Proof. intros w Hw. exact Hw. Qed.

Lemma preserves_throw {A} e : preserves P (throw e : M A).
Proof. intros w Hw. exact Hw. Qed.

Lemma preserves_lift {A} (x : Exc A) : preserves P (lift x).
Proof. intros w Hw. exact Hw. Qed.

Lemma preserves_Date_now : preserves P Date_now.
Proof. intros w Hw. exact Hw. Qed.

Lemma preserves_redis_status_ready : preserves P redis_status_ready.
Proof. intros w Hw. exact Hw. Qed.

Lemma preserves_bind {A B} (m : M A) (f : A -> M B) :
  preserves P m -> (forall a, preserves P (f a)) -> preserves P (m ≫= f).
Proof.
  intros Hm Hf w Hw. rewrite bind_run. specialize (Hm w Hw).
  destruct (m w) as [[a|e] w1]; [apply Hf|]; exact Hm.
Qed.

Lemma preserves_try_catch {A} (body : M A) handler :
  preserves P body -> (forall e, preserves P (handler e)) ->
  preserves P (try_catch body handler).
Proof.
  intros Hb Hh w Hw. rewrite try_catch_run. specialize (Hb w Hw).
  destruct (body w) as [[a|e] w1]; [|apply Hh]; exact Hb.
Qed.

End Preserves.

Ltac preserves_step :=
  match goal with
  | |- preserves _ (_ ≫= _) => apply preserves_bind; [|intros ?]
  | |- preserves _ (try_catch _ _) => apply preserves_try_catch; [|intros ?]
  | |- preserves _ (mret _) => apply preserves_ret
  | |- preserves _ (throw _) => apply preserves_throw
  | |- preserves _ (lift _) => apply preserves_lift
  | |- preserves _ Date_now => apply preserves_Date_now
  | |- preserves _ redis_status_ready => apply preserves_redis_status_ready
  | H : store_blind ?P |- preserves ?P (redis_call _) => apply (proj1 H)
  | H : store_blind ?P |- preserves ?P redis_connect => apply (proj1 (proj2 H))
  | H : store_blind ?P |- preserves ?P (console_warn _ _) => apply (proj2 (proj2 H))
  | H : upstream_blind ?P |- preserves ?P (fetch _ _ _) => apply (proj1 H)
  | H : upstream_blind ?P |- preserves ?P (sleep _) => apply (proj1 (proj2 H))
  | H : upstream_blind ?P |- preserves ?P (read_body _) => apply (proj2 (proj2 H))
  | |- preserves _ (if ?b then _ else _) => destruct b
  | |- preserves _ (match ?x with _ => _ end) => destruct x
  end.

Ltac preserves_auto :=
  repeat (first [ preserves_step
                | progress unfold redis_incr, redis_incrby, redis_expire,
                    redis_get, redis_setex, usageKey ]).

Section PreservedByMethods.
Context `{Platform}.
Variable P : World -> Prop.

Section StoreBlind.
Hypothesis HP : store_blind P.

Lemma _ensureRedis_preserves : preserves P _ensureRedis.
Proof. unfold _ensureRedis. preserves_auto. Qed.

Lemma checkRateLimit_preserves env shop : preserves P (checkRateLimit env shop).
Proof. unfold checkRateLimit, _ensureRedis. preserves_auto. Qed.

Lemma checkMonthlyLimit_preserves env shop : preserves P (checkMonthlyLimit env shop).
Proof. unfold checkMonthlyLimit, _ensureRedis. preserves_auto. Qed.

Lemma incrementUsage_preserves shop n : preserves P (incrementUsage shop n).
Proof. unfold incrementUsage, _ensureRedis. preserves_auto. Qed.

Lemma cache_lookup_preserves key hr : preserves P (cache_lookup key hr).
Proof. unfold cache_lookup. preserves_auto. Qed.

End StoreBlind.

Lemma _callDeepSeekHTTP_preserves this prompt :
  upstream_blind P -> preserves P (_callDeepSeekHTTP this prompt).
Proof. intros HP. unfold _callDeepSeekHTTP. preserves_auto. Qed.

End PreservedByMethods.

(** The clock, the responses to come, and the store. *)
Lemma store_blind_now t : store_blind (fun w => now w = t).
Proof.
  split; [|split].
  - intros c w Hw. unfold redis_call.
    destruct (head (faults w)) as [[e|]|]; [exact Hw| |];
      destruct (Redis.exec _ _ _) as [[r db']|e]; exact Hw.
  - intros w Hw. unfold redis_connect.
    destruct (head (connects w)) as [[e|]|]; exact Hw.
  - intros label detail w Hw. exact Hw.
Qed.

Lemma store_blind_upstream u : store_blind (fun w => upstream w = u).
Proof.
  split; [|split].
  - intros c w Hw. unfold redis_call.
    destruct (head (faults w)) as [[e|]|]; [exact Hw| |];
      destruct (Redis.exec _ _ _) as [[r db']|e]; exact Hw.
  - intros w Hw. unfold redis_connect.
    destruct (head (connects w)) as [[e|]|]; exact Hw.
  - intros label detail w Hw. exact Hw.
Qed.

Lemma grown_refl Q w : grown Q (trace w) w.
Proof. exists []. split; [symmetry; apply app_nil_r | constructor]. Qed.

Lemma grown_emits {A} Q tr (m : M A) : emits Q m -> preserves (grown Q tr) m.
Proof.
  intros Hm w (evs & E & F). destruct (Hm w) as (evs' & E' & F').
  exists (evs ++ evs')%list. split.
  - rewrite E', E, List.app_assoc. reflexivity.
  - apply Forall_app. split; assumption.
Qed.

Lemma grown_new_events Q w w' :
  grown Q (trace w) w' -> List.Forall (fun ev => Q ev = true) (new_events w w').
Proof. intros (evs & E & F). rewrite (new_events_app w w' evs E). exact F. Qed.

Lemma store_blind_grown Q tr :
  (forall c ok, Q (EvCommand c ok) = true) ->
  (forall ok, Q (EvConnect ok) = true) ->
  (forall label detail, Q (EvWarn label detail) = true) ->
  store_blind (grown Q tr).
Proof.
  intros Hc Hn Hw. split; [|split].
  - intros c. apply grown_emits, emits_redis_call, Hc.
  - apply grown_emits, emits_redis_connect, Hn.
  - intros label detail. apply grown_emits, emits_emit, Hw.
Qed.

Lemma store_blind_and P Q : store_blind P -> store_blind Q ->
  store_blind (fun w => P w /\ Q w).
Proof.
  intros (P1 & P2 & P3) (Q1 & Q2 & Q3). split; [|split].
  - intros c w [Hp Hq]. split; [apply P1 | apply Q1]; assumption.
  - intros w [Hp Hq]. split; [apply P2 | apply Q2]; assumption.
  - intros l d w [Hp Hq]. split; [apply P3 | apply Q3]; assumption.
Qed.

Lemma preserves_run {A} P (m : M A) w x w1 :
  preserves P m -> m w = (x, w1) -> P w -> P w1.
Proof. intros Hm Hrun Hw. specialize (Hm w Hw). rewrite Hrun in Hm. exact Hm. Qed.

(** *** The phases of a run *)

Lemma generateDescription_phases `{Platform} env this a w r w' :
  generateDescription env this a w = (r, w') <-> phases env this a w r w'.
Proof.
  unfold generateDescription. rewrite bind_run.
  destruct (never_throws_run _ w (checkRateLimit_never_throws env (shop a)))
    as (rl & w1 & Hrl).
  rewrite Hrl.
  destruct (rl_allowed rl) eqn:Hallowed; cbn [negb].
  2:{ split.
      - intros [= <- <-]. eapply RateRefused; eassumption.
      - intros Hp. unfold throw. inversion Hp; subst; congruence. }
  rewrite bind_run.
  destruct (never_throws_run _ w1 (checkMonthlyLimit_never_throws env (shop a)))
    as (ml & w2 & Hml).
  rewrite Hml.
  destruct (ml_allowed ml) eqn:Hmonth; cbn [negb].
  2:{ split.
      - intros [= <- <-]. eapply MonthRefused; eassumption.
      - intros Hp. unfold throw. inversion Hp; subst; congruence. }
  rewrite bind_run. unfold lift at 1.
  destruct (productId_of (product a)) as [productId|e] eqn:Hpid.
  2:{ split.
      - intros [= <- <-]. eapply IdFailed; eassumption.
      - intros Hp. unfold throw. inversion Hp; subst; congruence. }
  rewrite bind_run.
  destruct (never_throws_run _ w2 _ensureRedis_never_throws) as (hr & w3 & Hens).
  rewrite Hens, bind_run.
  destruct (never_throws_run _ w3
              (cache_lookup_never_throws
                 (buildCacheKey (mkCacheKeyArgs productId (vibe a) (format a)
                                                (keywords a) (includeSocials a))) hr))
    as (cached & w4 & Hlook).
  rewrite Hlook.
  assert (Hafter :
    forall r0 w0,
      after_lookup this a productId hr cached w4 r0 w0 <->
      phases env this a w r0 w0).
  { intros r0 w0. split.
    - intros Ha. eapply Looked; eassumption.
    - intros Hp. inversion Hp; subst; congruence. }
  rewrite <- Hafter. destruct cached as [v|].
  - split.
    + intros [= <- <-]. constructor.
    + intros Ha. inversion Ha; subst. reflexivity.
  - rewrite bind_run. unfold lift at 1.
    destruct (buildPrompt _) as [prompt|e] eqn:Hprompt.
    + split.
      * intros Hloop. eapply Generated; eassumption.
      * intros Ha. unfold throw. inversion Ha; subst; congruence.
    + split.
      * intros [= <- <-]. apply PromptFailed. exact Hprompt.
      * intros Ha. unfold throw. inversion Ha; subst; congruence.
Qed.

Section BeforeLoop.
Context `{Platform}.
Variable env : Env.
Variable this : DeepSeekService.
Variable a : GenerateArgs.

(** Whatever no call to the store changes holds when the retry loop
    starts, and at the end of a run that does not reach it. *)
Lemma phases_store_blind (P : World -> Prop) w r w' :
  store_blind P -> phases env this a w r w' -> P w ->
  (P w' /\ ended_early r)
  \/ exists productId haveRedis prompt w4,
      P w4
      /\ productId_of (product a) = Ok productId
      /\ buildPrompt (mkPromptArgs (product a) (vibe a) (format a)
                                   (keywords a) (includeSocials a)) = Ok prompt
      /\ retry_loop this a
           (buildCacheKey (mkCacheKeyArgs productId (vibe a) (format a)
                                          (keywords a) (includeSocials a)))
           prompt haveRedis (Z.to_nat (maxRetries this)) 1 None w4 = (r, w').
Proof.
  intros HP Hp Hw.
  destruct Hp as [rl w1 Hrl Hra
                 |rl w1 ml w2 Hrl Hra Hml Hma
                 |rl w1 ml w2 e Hrl Hra Hml Hma Hpid
                 |rl w1 ml w2 pid hr w3 cached w4 r w' Hrl Hra Hml Hma Hpid Hens Hlook Hafter].
  - left. split; [|left; reflexivity].
    exact (preserves_run P _ _ _ _ (checkRateLimit_preserves P HP env _) Hrl Hw).
  - left. split; [|right; left; eauto].
    eapply (preserves_run P); [apply (checkMonthlyLimit_preserves P HP)|exact Hml|].
    exact (preserves_run P _ _ _ _ (checkRateLimit_preserves P HP env _) Hrl Hw).
  - left. split.
    + eapply (preserves_run P); [apply (checkMonthlyLimit_preserves P HP)|exact Hml|].
      exact (preserves_run P _ _ _ _ (checkRateLimit_preserves P HP env _) Hrl Hw).
    + right. right. left. exists e. split; [reflexivity|].
      rewrite (productId_of_error _ _ Hpid). reflexivity.
  - assert (H4 : P w4).
    { eapply (preserves_run P); [apply (cache_lookup_preserves P HP)|exact Hlook|].
      eapply (preserves_run P); [apply (_ensureRedis_preserves P HP)|exact Hens|].
      eapply (preserves_run P); [apply (checkMonthlyLimit_preserves P HP)|exact Hml|].
      exact (preserves_run P _ _ _ _ (checkRateLimit_preserves P HP env _) Hrl Hw). }
    destruct Hafter as [v w4|w4 e Hprompt|w4 prompt r w' Hprompt Hloop].
    + left. split; [exact H4|]. do 3 right. eauto.
    + left. split; [exact H4|]. right. right. left. exists e. split; [reflexivity|].
      unfold buildPrompt in Hprompt.
      destruct (promptLines _) as [lines|e0] eqn:Hl; [discriminate|].
      injection Hprompt as <-.
      destruct (promptLines_error _ _ Hl) as [-> | ->]; reflexivity.
    + right. exists pid, hr, prompt, w4. auto.
Qed.

End BeforeLoop.

Section NoKey.
Context `{Platform}.
Variable this : DeepSeekService.
Hypothesis no_key : present (apiKey this) = false.

Lemma no_key_call prompt w :
  _callDeepSeekHTTP this prompt w
  = (Throw (Error "DeepSeek API key is not configured"), w).
Proof. unfold _callDeepSeekHTTP. rewrite no_key. reflexivity. Qed.

Lemma no_key_loop a key prompt haveRedis n :
  forall attempt lastErr w,
    maxRetries this = attempt + Z.of_nat n ->
    retry_loop this a key prompt haveRedis (S n) attempt lastErr w
    = (Throw (Error "Generation failed: DeepSeek API key is not configured"),
       waits n attempt w).
Proof.
  induction n as [|n IH]; intros attempt lastErr w Hmax;
    rewrite retry_loop_step; unfold attempt_once;
    rewrite bind_run, no_key_call.
  - replace (attempt <? maxRetries this) with false by lia. reflexivity.
  - replace (attempt <? maxRetries this) with true by lia.
    cbn [waits]. apply IH. lia.
Qed.

End NoKey.

Lemma waits_facts n :
  forall attempt w,
    1 <= attempt -> 500 * (attempt + Z.of_nat n - 1) <= 2147483647 ->
    now (waits n attempt w)
    = now w + 250 * Z.of_nat n * (2 * attempt + Z.of_nat n - 1)
    /\ upstream (waits n attempt w) = upstream w
    /\ grown is_sleep (trace w) (waits n attempt w).
Proof.
  induction n as [|n IH]; intros attempt w Ha Hb; cbn [waits].
  - split; [simpl; lia|]. split; [reflexivity | apply grown_refl].
  - destruct (IH (attempt + 1)
                 (advance (timer_delay (500 * attempt))
                          (with_trace (EvSleep (500 * attempt)) w)))
      as (Hn & Hu & evs & Ht & Hf); [lia | lia |].
    split; [|split].
    + rewrite Hn. cbn [now advance with_trace]. unfold timer_delay.
      replace ((1 <=? 500 * attempt) && (500 * attempt <=? 2147483647)) with true
        by lia.
      lia.
    + rewrite Hu. reflexivity.
    + exists (EvSleep (500 * attempt) :: evs). split.
      * rewrite Ht. cbn [trace advance with_trace].
        rewrite <- List.app_assoc. reflexivity.
      * constructor; [reflexivity | exact Hf].
Qed.

(** X4: without an API key nothing is fetched, and a request that
    reaches the retry loop still goes through all the waits: it ends
    either at once (refused, served from the cache, or failed before
    the loop) or with "Generation failed: DeepSeek API key is not
    configured" after 500 * (1 + ... + (maxRetries - 1)) ms. *)
Theorem missing_api_key `{Platform}
        (env : Env) (this : DeepSeekService) (a : GenerateArgs)
        (w : World) (r : Exc JSON) (w' : World) :
  present (apiKey this) = false ->
  1 <= maxRetries this <= 4294967 ->
  generateDescription env this a w = (r, w') ->
  upstream w' = upstream w
  /\ List.Forall (fun ev => is_fetch ev = false) (new_events w w')
  /\ ((now w' = now w /\ ended_early r)
      \/ (r = Throw (Error "Generation failed: DeepSeek API key is not configured")
          /\ now w' = now w + 250 * maxRetries this * (maxRetries this - 1))).
Proof.
  intros Hkey Hmax Hrun. apply generateDescription_phases in Hrun.
  set (quiet := fun ev => negb (is_fetch ev)).
  set (P := fun w0 => (now w0 = now w /\ upstream w0 = upstream w)
                      /\ grown quiet (trace w) w0).
  assert (HP : store_blind P).
  { apply store_blind_and; [apply store_blind_and|].
    - apply store_blind_now.
    - apply store_blind_upstream.
    - apply store_blind_grown; reflexivity. }
  assert (Hq : forall w0, grown quiet (trace w) w0 ->
                          List.Forall (fun ev => is_fetch ev = false) (new_events w w0)).
  { intros w0 Hg. apply grown_new_events in Hg.
    eapply List.Forall_impl; [|exact Hg]. intros ev. unfold quiet.
    destruct (is_fetch ev); [discriminate | reflexivity]. }
  destruct (phases_store_blind env this a P w r w' HP Hrun)
    as [[[[Hn Hu] Hg] Hearly]|(pid & hr & prompt & w4 & [[Hn Hu] Hg] & _ & _ & Hloop)].
  - split; [split; reflexivity | apply grown_refl].
  - split; [exact Hu|]. split; [apply Hq; exact Hg|]. left. auto.
  - destruct (Z.to_nat (maxRetries this)) as [|n] eqn:Hn'; [lia|].
    rewrite (no_key_loop this Hkey a _ prompt hr n 1 None w4) in Hloop by lia.
    injection Hloop as <- <-.
    destruct (waits_facts n 1 w4) as (Hnow & Hup & evs & Ht & Hf); [lia | lia |].
    split; [congruence|]. split.
    + apply Hq. destruct Hg as (evs0 & Ht0 & Hf0).
      exists (evs0 ++ evs)%list. split; [rewrite Ht, Ht0, List.app_assoc; reflexivity|].
      apply Forall_app. split; [exact Hf0|].
      eapply List.Forall_impl; [|exact Hf]. intros ev. unfold quiet.
      destruct ev; simpl; congruence.
    + right. split; [reflexivity|]. rewrite Hnow, Hn.
      replace (Z.of_nat n) with (maxRetries this - 1) by lia. lia.
Qed.

Lemma missing_api_key_witness :
  let this := constructor (mkEnv None None None None) no_opts in
  let run := generateDescription (H := scenario_platform) default_env this
               (simple_request tenant) answering_world in
  fst run = Throw (Error "Generation failed: DeepSeek API key is not configured")
  /\ upstream (snd run) = upstream answering_world
  /\ now (snd run) = now answering_world + 1500.
Proof.
  intros this run.
  destruct (missing_api_key (H := scenario_platform) default_env this
              (simple_request tenant) answering_world (fst run) (snd run))
    as (Hu & _ & Hcases).
  - reflexivity.
  - vm_compute. split; discriminate.
  - subst run. apply surjective_pairing.
  - assert (Hr : fst run
                 = Throw (Error "Generation failed: DeepSeek API key is not configured"))
      by (vm_compute; reflexivity).
    split; [exact Hr|]. split; [exact Hu|].
    destruct Hcases as [[Hn _]|[_ Hn]]; [|exact Hn].
    exfalso. revert Hn. vm_compute. discriminate.
Defined.

Section Anonymous.
Context `{Platform}.
Variable env : Env.
Variable this : DeepSeekService.
Variable a : GenerateArgs.
Hypothesis no_shop : present (shop a) = false.

Lemma anonymous_loop_emits key prompt haveRedis n :
  forall attempt lastErr,
    emits not_metering (retry_loop this a key prompt haveRedis n attempt lastErr).
Proof.
  induction n as [|n IH]; intros attempt lastErr; cbn [retry_loop].
  - apply emits_throw.
  - apply emits_try_catch.
    + unfold attempt_once. rewrite no_shop.
      apply emits_bind.
      { eapply emits_weaken; [|apply _callDeepSeekHTTP_emits].
        intros ev. unfold not_metering. destruct ev; simpl; congruence. }
      intros raw. emits_auto.
    + intros err. apply emits_bind; [|intros _; apply IH].
      destruct (attempt <? maxRetries this); [|apply emits_ret].
      apply emits_sleep. reflexivity.
Qed.

Lemma anonymous_emits : emits not_metering (generateDescription env this a).
Proof.
  unfold generateDescription, checkRateLimit, checkMonthlyLimit.
  rewrite no_shop. cbn [negb].
  repeat first [ apply anonymous_loop_emits
               | emits_step
               | progress unfold _ensureRedis, cache_lookup, redis_get ].
Qed.

End Anonymous.

(** X5: a request without a shop is neither counted nor refused:
    [generateDescription] sends no INCR, INCRBY or EXPIRE for it, and
    it fails only with a TypeError of the prompt or with the
    "Generation failed" error of the retry loop. *)
Theorem anonymous_request_not_metered `{Platform}
        (env : Env) (this : DeepSeekService) (a : GenerateArgs)
        (w : World) (r : Exc JSON) (w' : World) :
  present (shop a) = false ->
  generateDescription env this a w = (r, w') ->
  List.Forall (fun ev => is_metering ev = false) (new_events w w')
  /\ (forall e, r = Throw e ->
        err_name e = "TypeError" \/ exists last, e = generation_failed last).
Proof.
  intros Hshop Hrun. split.
  - destruct (anonymous_emits env this a Hshop w) as (evs & E & F).
    rewrite Hrun in E. rewrite (new_events_app w w' evs E).
    eapply List.Forall_impl; [|exact F]. intros ev. unfold not_metering.
    destruct (is_metering ev); [discriminate | reflexivity].
  - intros e ->. apply generateDescription_phases in Hrun.
    assert (Hrl : forall w0, checkRateLimit env (shop a) w0
                             = (Ok (mkRateLimit true (RATE_LIMIT_PER_MIN env)), w0))
      by (intros w0; unfold checkRateLimit; rewrite Hshop; reflexivity).
    assert (Hml : forall w0, checkMonthlyLimit env (shop a) w0
                             = (Ok (mkMonthlyLimit true (Finite 0) (MONTHLY_LIMIT env)), w0))
      by (intros w0; unfold checkMonthlyLimit; rewrite Hshop; reflexivity).
    inversion Hrun as [rl w1 Hrl' Hra
                      |rl w1 ml w2 Hrl' Hra Hml' Hma
                      |rl w1 ml w2 e' Hrl' Hra Hml' Hma Hpid
                      |rl w1 ml w2 pid hr w3 cached w4 r' w'' Hrl' Hra Hml' Hma Hpid
                         Hens Hlook Hafter]; subst.
    + rewrite Hrl in Hrl'. injection Hrl' as <- <-. discriminate Hra.
    + rewrite Hrl in Hrl'. injection Hrl' as <- <-.
      rewrite Hml in Hml'. injection Hml' as <- <-. discriminate Hma.
    + left. rewrite (productId_of_error _ _ Hpid). reflexivity.
    + inversion Hafter as [v w5|w5 e' Hprompt|w5 prompt r' w'' Hprompt Hloop]; subst.
      * left. unfold buildPrompt in Hprompt.
        destruct (promptLines _) as [lines|e0] eqn:Hl; [discriminate|].
        injection Hprompt as <-.
        destruct (promptLines_error _ _ Hl) as [-> | ->]; reflexivity.
      * right.
        destruct (retry_loop_outcome this a _ prompt hr _ _ _ _ _ _ Hloop)
          as (evs1 & evs2 & _ & _ & _ & last & -> & _).
        eauto.
Qed.

Lemma anonymous_request_not_metered_witness :
  let run := generateDescription (H := scenario_platform) default_env default_service
               (simple_request None) answering_world in
  fst run = Ok weird_value
  /\ List.Forall (fun ev => is_metering ev = false)
                 (new_events answering_world (snd run)).
Proof.
  intros run. split; [vm_compute; reflexivity|].
  refine (proj1 (anonymous_request_not_metered (H := scenario_platform) default_env
                   default_service (simple_request None) answering_world
                   (fst run) (snd run) _ _)).
  - reflexivity.
  - subst run. apply surjective_pairing.
Defined.

(** *** Errors of one upstream call *)

(** X6: [_callDeepSeekHTTP] never throws an AbortError; a fetch
    that rejects before the timer fires is rethrown as it is, unless
    its name is AbortError, which becomes "DeepSeek request timed
    out". *)
Theorem abort_is_reported_as_timeout `{Platform}
        (this : DeepSeekService) (prompt : string) (w : World) :
  (forall e w', _callDeepSeekHTTP this prompt w = (Throw e, w') ->
                err_name e <> "AbortError")
  /\ (forall latency e,
        present (apiKey this) = true ->
        head (upstream w) = Some (FetchRejects latency e) ->
        latency < timer_delay (timeout this) ->
        _callDeepSeekHTTP this prompt w
        = (Throw (if String.eqb (err_name e) "AbortError"
                  then Error "DeepSeek request timed out" else e),
           advance latency
             (with_trace (EvFetch (endpoint this) prompt)
                (with_upstream (tail (upstream w)) w)))).
Proof.
  split.
  - intros e w'. unfold _callDeepSeekHTTP.
    destruct (negb (present (apiKey this))); [intros [= <- _]; discriminate|].
    rewrite try_catch_run.
    match goal with
    | |- context [match ?body w with _ => _ end] => destruct (body w) as [[raw|e0] w1]
    end; [discriminate|].
    destruct (String.eqb (err_name e0) "AbortError") eqn:E.
    + intros [= <- _]. discriminate.
    + intros [= <- _]. apply String.eqb_neq. exact E.
  - intros latency e Hkey Hhead Hlat.
    unfold _callDeepSeekHTTP. rewrite Hkey. cbn [negb].
    rewrite try_catch_run, bind_run. unfold fetch. rewrite Hhead.
    replace (timer_delay (timeout this) <=? latency) with false by lia.
    destruct (String.eqb (err_name e) "AbortError"); reflexivity.
Qed.

Lemma abort_is_reported_as_timeout_witness :
  _callDeepSeekHTTP (H := scenario_platform) default_service "prompt"
    (with_upstream [FetchRejects 5 AbortError] quiet_world)
  = (Throw (Error "DeepSeek request timed out"),
     advance 5 (with_trace (EvFetch (endpoint default_service) "prompt") quiet_world)).
Proof.
  exact (proj2 (abort_is_reported_as_timeout (H := scenario_platform) default_service
                  "prompt" (with_upstream [FetchRejects 5 AbortError] quiet_world))
           5 AbortError eq_refl eq_refl eq_refl).
Defined.

(** X7: a response that arrives in time with a status that is not
    ok fails the call with "DeepSeek HTTP <status>: <body>", the body
    being empty when it cannot be read. *)
Theorem http_error_status `{Platform}
        (this : DeepSeekService) (prompt : string) (w : World)
        (latency : Z) (res : Response) :
  present (apiKey this) = true ->
  head (upstream w) = Some (FetchResolves latency res) ->
  latency < timer_delay (timeout this) ->
  res_ok res = false ->
  _callDeepSeekHTTP this prompt w
  = (Throw (Error ("DeepSeek HTTP " +:+ of_Z (res_status res) +:+ ": "
                   +:+ default "" (res_body res))),
     advance (res_body_latency res)
       (advance latency
          (with_trace (EvFetch (endpoint this) prompt)
             (with_upstream (tail (upstream w)) w)))).
Proof.
  intros Hkey Hhead Hlat Hok.
  unfold _callDeepSeekHTTP. rewrite Hkey. cbn [negb].
  rewrite try_catch_run, bind_run. unfold fetch. rewrite Hhead.
  replace (timer_delay (timeout this) <=? latency) with false by lia.
  rewrite Hok. cbn [negb]. rewrite bind_run. unfold read_body at 1. reflexivity.
Qed.

Lemma http_error_status_witness :
  fst (_callDeepSeekHTTP (H := scenario_platform) default_service "prompt"
         (with_upstream
            [FetchResolves 10 (mkResponse 429 (Some "slow down") 0
                                          (Throw (TypeError "Body is unusable")))]
            quiet_world))
  = Throw (Error "DeepSeek HTTP 429: slow down").
Proof.
  rewrite (http_error_status (H := scenario_platform) default_service "prompt" _ 10
             (mkResponse 429 (Some "slow down") 0
                         (Throw (TypeError "Body is unusable"))));
    reflexivity.
Defined.

Lemma store_blind_healthy : store_blind healthy.
Proof.
  split; [|split].
  - intros c w [Hr Hf]. unfold redis_call. rewrite Hf. cbn [head tail].
    destruct (Redis.exec _ _ _) as [[r db']|e]; split; cbn; auto.
  - intros w [Hr Hf]. unfold redis_connect.
    destruct (head (connects w)) as [[e|]|]; split; cbn; auto.
  - intros label detail w Hw. exact Hw.
Qed.

Lemma upstream_blind_healthy : upstream_blind healthy.
Proof.
  split; [|split].
  - intros url prompt timeout w Hw. unfold fetch.
    destruct (head (upstream w)) as [[|latency e|latency r]|];
      try destruct (timer_delay timeout <=? latency); exact Hw.
  - intros ms w Hw. exact Hw.
  - intros res w Hw. exact Hw.
Qed.

Lemma upstream_blind_holds key e : upstream_blind (holds key e).
Proof.
  split; [|split].
  - intros url prompt timeout w Hw. unfold fetch.
    destruct (head (upstream w)) as [[|latency err|latency r]|];
      try destruct (timer_delay timeout <=? latency); exact Hw.
  - intros ms w Hw. exact Hw.
  - intros res w Hw. exact Hw.
Qed.

(** A command leaves the entries of the other keys alone. *)
Lemma redis_call_other key e c :
  key_of c <> key -> preserves (holds key e) (redis_call c).
Proof.
  intros Hk w Hw. unfold holds in *. unfold redis_call.
  destruct (head (faults w)) as [[err|]|]; [exact Hw| |];
    (destruct (Redis.exec (now w) c (redis_db w)) as [[r db']|err] eqn:Hexec;
     [|exact Hw]);
    cbn [snd with_trace redis_db];
    (destruct c as [k|k n|k s|k|k s v]; cbn [key_of] in Hk;
     unfold Redis.exec, Redis.incrby in Hexec;
     repeat match type of Hexec with
            | context [match ?x with _ => _ end] => destruct x
            | context [if ?x then _ else _] => destruct x
            end;
     try discriminate Hexec; injection Hexec as _ <-;
     rewrite ?lookup_insert_ne, ?lookup_delete_ne by congruence; exact Hw).
Qed.

Lemma redis_connect_holds key e : preserves (holds key e) redis_connect.
Proof.
  intros w Hw. unfold redis_connect.
  destruct (head (connects w)) as [[err|]|]; exact Hw.
Qed.

Section KeepsKey.
Context `{Platform}.
Variable key : string.
Variable e : option Redis.entry.

Lemma _ensureRedis_holds : preserves (holds key e) _ensureRedis.
Proof.
  unfold _ensureRedis.
  repeat first [ apply redis_connect_holds | preserves_step ].
  intros w Hw. exact Hw.
Qed.

(** [incrementUsage] works on keys of the usage counters only. *)
Lemma incrementUsage_holds shop n :
  (forall rest, key <> "deepseek:usage:" +:+ rest) ->
  preserves (holds key e) (incrementUsage shop n).
Proof.
  intros Hkey. unfold incrementUsage.
  destruct (negb (present shop)); [apply preserves_ret|].
  apply preserves_bind; [apply _ensureRedis_holds|]. intros ok.
  destruct (negb ok); [apply preserves_ret|].
  apply preserves_try_catch; [|intros err w Hw; exact Hw].
  intros w Hw. rewrite bind_run. unfold usageKey at 1.
  rewrite bind_run. unfold Date_now at 1. cbn [mret M_ret].
  match goal with
  | |- holds key e (snd (?m w)) =>
      assert (Hm : preserves (holds key e) m); [|exact (Hm w Hw)]
  end.
  unfold redis_incrby, redis_expire.
  repeat first [ apply redis_call_other; cbn [key_of]; intros E; symmetry in E;
                 exact (Hkey _ E)
               | preserves_step ].
Qed.

End KeepsKey.

Lemma cache_key_not_usage a rest : buildCacheKey a <> "deepseek:usage:" +:+ rest.
Proof. unfold buildCacheKey. cbn. discriminate. Qed.

Lemma healthy_ensureRedis w : healthy w -> _ensureRedis w = (Ok true, w).
Proof.
  intros [Hr _]. unfold _ensureRedis. rewrite bind_run.
  unfold redis_status_ready. rewrite Hr. reflexivity.
Qed.

Lemma healthy_cache_write key v w :
  healthy w ->
  exists w1,
    try_catch (redis_setex key (60 * 60 * 24) v) (fun _ => mret tt) w = (Ok tt, w1)
    /\ healthy w1 /\ now w1 = now w
    /\ holds key (Some (Redis.mk_entry v (Some (now w + 86400000)))) w1.
Proof.
  intros [Hr Hf]. rewrite try_catch_run. unfold redis_setex.
  rewrite bind_run. unfold redis_call. rewrite Hf. cbn [head tail].
  unfold Redis.exec. change (60 * 60 * 24 <=? 0) with false. cbv iota.
  eexists. split; [reflexivity|]. split; [split; [exact Hr | reflexivity]|].
  split; [reflexivity|]. unfold holds. cbn [redis_db with_trace snd].
  rewrite lookup_insert_eq. reflexivity.
Qed.

Section Stores.
Context `{Platform}.
Variable this : DeepSeekService.
Variable a : GenerateArgs.
Variable ck : CacheKeyArgs.
Variable prompt : string.

Lemma attempt_stores w result w' :
  healthy w ->
  attempt_once this a (buildCacheKey ck) prompt true w = (Ok result, w') ->
  stored ck result w'.
Proof.
  intros Hw. unfold attempt_once. intros Hrun.
  apply bind_inv in Hrun as [(raw & wa & Hcall & Hrun)|(e & _ & [=])].
  assert (Ha : healthy wa)
    by exact (preserves_run healthy _ _ _ _
                (_callDeepSeekHTTP_preserves healthy this prompt upstream_blind_healthy)
                Hcall Hw).
  apply bind_inv in Hrun as [(result' & wa' & Hsan & Hrun)|(e & _ & [=])].
  unfold lift in Hsan. injection Hsan as Hsan <-.
  apply bind_inv in Hrun as [([] & wb & Hwrite & Hrun)|(e & _ & [=])].
  destruct (healthy_cache_write (buildCacheKey ck) (stringify result') wa Ha)
    as (wb' & Hwrite' & Hb & Hnow & Hheld).
  cbv beta iota in Hwrite. rewrite Hwrite' in Hwrite. injection Hwrite as <-.
  apply bind_inv in Hrun as [([] & wc & Hcount & Hrun)|(e & _ & [=])].
  injection Hrun as <- <-.
  set (count := if present (shop a) then incrementUsage (shop a) (Finite 1) else mret tt)
    in Hcount.
  assert (C1 : preserves healthy count)
    by (subst count; destruct (present (shop a));
        [apply incrementUsage_preserves, store_blind_healthy | apply preserves_ret]).
  assert (C2 : preserves (fun w0 => now w0 = now wa) count)
    by (subst count; destruct (present (shop a));
        [apply incrementUsage_preserves, store_blind_now | apply preserves_ret]).
  assert (C3 : preserves
                 (holds (buildCacheKey ck)
                        (Some (Redis.mk_entry (stringify result')
                                              (Some (now wa + 86400000))))) count)
    by (subst count; destruct (present (shop a));
        [apply incrementUsage_holds; intros rest; apply cache_key_not_usage
        |apply preserves_ret]).
  split.
  - exact (preserves_run _ _ _ _ _ C1 Hcount Hb).
  - rewrite (preserves_run _ _ _ _ _ C2 Hcount Hnow).
    exact (preserves_run _ _ _ _ _ C3 Hcount Hheld).
Qed.

Lemma attempt_keeps_healthy key hr w r w' :
  healthy w -> attempt_once this a key prompt hr w = (r, w') -> healthy w'.
Proof.
  intros Hw Hrun. refine (preserves_run healthy _ _ _ _ _ Hrun Hw).
  unfold attempt_once.
  apply preserves_bind;
    [apply _callDeepSeekHTTP_preserves, upstream_blind_healthy|].
  intros raw. pose proof store_blind_healthy as HS.
  repeat first [ apply incrementUsage_preserves; exact HS
               | preserves_step
               | progress unfold redis_setex ].
Qed.

Lemma loop_stores n :
  forall attempt lastErr w result w',
    healthy w ->
    retry_loop this a (buildCacheKey ck) prompt true n attempt lastErr w
    = (Ok result, w') ->
    stored ck result w'.
Proof.
  induction n as [|n IH]; intros attempt lastErr w result w' Hw Hrun.
  - discriminate Hrun.
  - rewrite retry_loop_step in Hrun.
    destruct (attempt_once this a (buildCacheKey ck) prompt true w)
      as [[res|err] w1] eqn:Hatt.
    + injection Hrun as <- <-. eapply attempt_stores; eassumption.
    + eapply IH; [|exact Hrun].
      pose proof (attempt_keeps_healthy _ _ _ _ _ Hw Hatt) as H1.
      destruct (attempt <? maxRetries this); exact H1.
Qed.

End Stores.

(** X8: with the store connected and answering, a result that
    [generateDescription] fetched is in the cache when it is returned:
    the cache key holds the result as JSON text, for 24 hours. *)
Theorem fresh_result_is_cached `{Platform}
        (env : Env) (this : DeepSeekService) (a : GenerateArgs)
        (w : World) (result : JSON) (w' : World) :
  redis_ready w = true -> faults w = [] ->
  generateDescription env this a w = (Ok result, w') ->
  List.Exists (fun ev => is_fetch ev = true) (new_events w w') ->
  exists productId,
    productId_of (product a) = Ok productId
    /\ forall gap, 0 <= gap < 86400000 ->
         Redis.lookup (now w' + gap) (redis_db w')
           (buildCacheKey (mkCacheKeyArgs productId (vibe a) (format a)
                                          (keywords a) (includeSocials a)))
         = Some (Redis.mk_entry (stringify result) (Some (now w' + 86400000))).
Proof.
  intros Hready Hfaults Hrun Hfresh. apply generateDescription_phases in Hrun.
  set (quiet := fun ev => negb (is_fetch ev)).
  set (P := fun w0 => healthy w0 /\ grown quiet (trace w) w0).
  assert (HP : store_blind P)
    by (apply store_blind_and;
        [apply store_blind_healthy | apply store_blind_grown; reflexivity]).
  assert (Hearly : forall w0, ~ (grown quiet (trace w) w0
                                 /\ List.Exists (fun ev => is_fetch ev = true)
                                                (new_events w w0))).
  { intros w0 [Hg Hex]. apply grown_new_events in Hg.
    apply List.Exists_exists in Hex as (ev & Hin & Hev).
    rewrite List.Forall_forall in Hg. specialize (Hg ev Hin).
    unfold quiet in Hg. rewrite Hev in Hg. discriminate. }
  inversion Hrun as [| | |rl w1 ml w2 pid hr w3 cached w4 r' w'' Hrl Hra Hml Hma Hpid
                        Hens Hlook Hafter]; subst.
  assert (H2 : P w2).
  { eapply (preserves_run P); [apply (checkMonthlyLimit_preserves P HP)|exact Hml|].
    eapply (preserves_run P); [apply (checkRateLimit_preserves P HP)|exact Hrl|].
    split; [split; assumption | apply grown_refl]. }
  rewrite (healthy_ensureRedis w2 (proj1 H2)) in Hens. injection Hens as <- <-.
  assert (H4 : P w4)
    by (eapply (preserves_run P); [apply (cache_lookup_preserves P HP)|exact Hlook|];
        exact H2).
  inversion Hafter as [v w5|w5 e' Hprompt|w5 prompt r' w'' Hprompt Hloop]; subst.
  - exfalso. apply (Hearly w'). split; [exact (proj2 H4) | exact Hfresh].
  - exists pid. split; [exact Hpid|]. intros gap Hgap.
    destruct (loop_stores this a _ prompt _ _ _ _ _ _ (proj1 H4) Hloop)
      as [_ Hheld].
    unfold holds in Hheld. unfold Redis.lookup. rewrite Hheld.
    unfold Redis.live. cbn [Redis.expires].
    replace (now w' + gap <=? now w' + 86400000) with true by lia. reflexivity.
Qed.

Lemma fresh_result_is_cached_witness :
  let run := generateDescription (H := scenario_platform) default_env default_service
               (simple_request tenant) answering_world in
  fst run = Ok weird_value
  /\ Redis.lookup (now (snd run) + 3600000) (redis_db (snd run)) simple_key
     = Some (Redis.mk_entry (stringify (H := scenario_platform) weird_value)
                            (Some (now (snd run) + 86400000))).
Proof.
  intros run.
  assert (Hr : fst run = Ok weird_value) by (vm_compute; reflexivity).
  split; [exact Hr|].
  destruct (fresh_result_is_cached (H := scenario_platform) default_env
              default_service (simple_request tenant) answering_world
              weird_value (snd run))
    as (pid & Hpid & Hlook).
  - reflexivity.
  - reflexivity.
  - rewrite <- Hr. subst run. apply surjective_pairing.
  - apply List.Exists_exists. eexists.
    split; [vm_compute; do 4 right; left; reflexivity | reflexivity].
  - injection Hpid as <-. apply Hlook. lia.
Defined.

(** X9: the cache answers by product id and options alone: when a
    request is served without a fetch, a request for a product with
    the same id, vibe, format, keywords and socials flag, and the same
    shop, gets the same answer in the same world, whatever its title,
    description or metafields. *)
Theorem cache_ignores_product_content `{Platform}
        (env : Env) (this : DeepSeekService) (a b : GenerateArgs)
        (w : World) (v : JSON) (w' : World) :
  same_fingerprint a b ->
  generateDescription env this a w = (Ok v, w') ->
  List.Forall (fun ev => is_fetch ev = false) (new_events w w') ->
  generateDescription env this b w = (Ok v, w').
Proof.
  intros (Hshop & (pid & Hpa & Hpb) & Hvibe & Hformat & Hkw & Hsoc) Hrun Hquiet.
  apply generateDescription_phases in Hrun. apply generateDescription_phases.
  inversion Hrun as [| | |rl w1 ml w2 pid' hr w3 cached w4 r' w'' Hrl Hra Hml Hma Hpid
                        Hens Hlook Hafter]; subst.
  rewrite Hpa in Hpid. injection Hpid as <-.
  inversion Hafter as [v' w5|w5 e' Hprompt|w5 prompt r' w'' Hprompt Hloop]; subst.
  - eapply Looked; rewrite <- ?Hshop, <- ?Hvibe, <- ?Hformat, <- ?Hkw, <- ?Hsoc;
      try eassumption.
    constructor.
  - exfalso.
    destruct (retry_loop_outcome this a _ prompt hr _ _ _ _ _ _ Hloop)
      as (evs1 & evs2 & E & _ & _ & _ & Hex).
    set (P := grown (fun _ => true) (trace w)).
    assert (HP : store_blind P) by (apply store_blind_grown; reflexivity).
    assert (H4 : P w4).
    { eapply (preserves_run P); [apply (cache_lookup_preserves P HP)|exact Hlook|].
      eapply (preserves_run P); [apply (_ensureRedis_preserves P HP)|exact Hens|].
      eapply (preserves_run P); [apply (checkMonthlyLimit_preserves P HP)|exact Hml|].
      eapply (preserves_run P); [apply (checkRateLimit_preserves P HP)|exact Hrl|].
      apply grown_refl. }
    destruct H4 as (pre & Epre & _).
    rewrite (new_events_app w w' (pre ++ evs1 ++ evs2)) in Hquiet
      by (rewrite E, Epre, <- !List.app_assoc; reflexivity).
    apply List.Exists_exists in Hex as (ev & Hin & Hev).
    rewrite List.Forall_forall in Hquiet.
    rewrite (Hquiet ev) in Hev; [discriminate|].
    apply in_or_app. right. apply in_or_app. left. exact Hin.
Qed.

Lemma cache_ignores_product_content_witness :
  let renamed :=
    mkGenerateArgs (Some (JObj [("id", JStr "gid://shopify/Product/1");
                                ("title", JStr "Teapot");
                                ("description", JStr "Now a teapot.")]))
                   "edgy" "paragraph" (Some "") false tenant in
  fst (generateDescription (H := scenario_platform) default_env default_service
         renamed cached_world) = Ok weird_value.
Proof.
  intros renamed.
  set (run := generateDescription (H := scenario_platform) default_env
                default_service (simple_request tenant) cached_world).
  rewrite (cache_ignores_product_content (H := scenario_platform) default_env
             default_service (simple_request tenant) renamed cached_world
             weird_value (snd run)).
  - reflexivity.
  - repeat split; try reflexivity. eexists. split; reflexivity.
  - subst run. vm_compute. reflexivity.
  - subst run. vm_compute. repeat constructor.
Defined.




Section Window.
Context `{Platform}.
Variable env : Env.
Variable L : Z.
Hypothesis limit : RATE_LIMIT_PER_MIN env = Finite L.
Variable shop : string.
Hypothesis named : shop <> "".





End Window.





(** *** The product as the route fetches it *)

Section Metafields.
Context `{Platform}.

Lemma map_exc_edges fields :
  map_exc metafield_line (map metafield_edge fields)
  = Ok (map (fun m => JStr (metafield_text m)) fields).
Proof.
  induction fields as [|m fields IH]; [reflexivity|].
  cbn [map map_exc]. rewrite IH. reflexivity.
Qed.

Lemma map_exc_throws {A B} (f : A -> Exc B) l x e :
  In x l -> f x = Throw e -> exists e', map_exc f l = Throw e'.
Proof.
  induction l as [|y l IH]; intros Hin Hx; [destruct Hin|].
  cbn [map_exc]. destruct Hin as [->|Hin].
  - rewrite Hx. eauto.
  - destruct (f y) as [b|e0]; [|eauto].
    destruct (IH Hin Hx) as (e' & ->). eauto.
Qed.

Lemma array_join_strings sep l :
  array_join sep (map JStr l) = Ok (join sep l).
Proof.
  induction l as [|s l IH]; [reflexivity|].
  cbn [map array_join ToString]. destruct l as [|s' l]; [reflexivity|].
  cbn [map] in *. rewrite IH. reflexivity.
Qed.

(** X11: the metafields of a product as the route fetches it
    (edges of nodes with string values) become one "key: value" text
    each, in order. *)
Theorem normalizeMetafields_graphql pid title description html fields :
  normalizeMetafields (Some (graphql_product pid title description html fields))
  = map (fun m => JStr (metafield_text m)) fields.
Proof.
  unfold normalizeMetafields, graphql_product.
  cbn [truthy_opt truthy negb opt_get get_prop lookup_key String.eqb Ascii.eqb
       Bool.eqb].
  rewrite map_exc_edges. reflexivity.
Qed.

(** X12: one null among the edges discards all the metafields: the
    exception is swallowed and the result is the empty array. *)
Theorem normalizeMetafields_null_edge (product mf : JSON) edges props :
  truthy product = true ->
  get_prop product "metafields" = Some mf ->
  is_object mf = true -> (forall items ps, mf <> JArr items ps) ->
  get_prop mf "edges" = Some (JArr edges props) ->
  In JNull edges ->
  normalizeMetafields (Some product) = [].
Proof.
  intros Ht Hmf Hobj Harr Hedges Hin.
  unfold normalizeMetafields. cbn [truthy_opt opt_get]. rewrite Ht, Hmf. cbn [negb].
  destruct mf as [| | | |items ps|members]; try discriminate Hobj.
  - exfalso. exact (Harr items ps eq_refl).
  - cbn [opt_get]. rewrite Hedges.
    destruct (map_exc_throws metafield_line edges JNull _ Hin eq_refl) as (e' & ->).
    reflexivity.
Qed.

(** X13: the prompt of a product as the route fetches it: the title,
    the metafields joined with ", " ("None" when there are none) and
    the description with its newlines turned into spaces; the id and
    the HTML description are not used. *)
Theorem buildPrompt_graphql pid title description html fields
        (vibe format : string) (keywords : option string) (includeSocials : bool) :
  let a := mkPromptArgs (Some (graphql_product pid title description html fields))
                        vibe format keywords includeSocials in
  buildPrompt a
  = Ok (join nl
          (filter_Boolean
             (instruction_lines
                title
                (match fields with
                 | [] => "None"
                 | _ => join ", " (map metafield_text fields)
                 end)
                (newlines_to_spaces description) a))).
Proof.
  intros a. unfold buildPrompt, promptLines.
  subst a. cbn [pa_product].
  assert (Hmeta : normalizeMetafields
                    (Some (graphql_product pid title description html fields))
                  = map (fun m => JStr (metafield_text m)) fields).
  { unfold normalizeMetafields, graphql_product.
    cbn [truthy_opt truthy negb opt_get get_prop lookup_key String.eqb Ascii.eqb
         Bool.eqb].
    rewrite map_exc_edges. reflexivity. }
  rewrite Hmeta.
  unfold graphql_product, oldDescription_of.
  cbn [opt_get get_prop lookup_key String.eqb Ascii.eqb Bool.eqb default
       from_option id mbind Exc_bind].
  unfold metafields_text.
  destruct fields as [|m fields].
  - reflexivity.
  - rewrite <- (map_map metafield_text JStr), array_join_strings. reflexivity.
Qed.

(** X14: [buildPrompt] fails only with a TypeError, and does so
    whenever the description of the product is neither a string nor
    null. *)
Theorem buildPrompt_fails_with_TypeError (a : PromptArgs) :
  (forall e, buildPrompt a = Throw e -> err_name e = "TypeError")
  /\ (forall p d,
        pa_product a = Some p -> p <> JNull ->
        get_prop p "description" = Some d ->
        d <> JNull -> (forall s, d <> JStr s) ->
        exists e, buildPrompt a = Throw e /\ err_name e = "TypeError").
Proof.
  split.
  - intros e. unfold buildPrompt.
    destruct (promptLines a) as [lines|e0] eqn:Hl; [discriminate|].
    intros [= <-]. destruct (promptLines_error _ _ Hl) as [-> | ->]; reflexivity.
  - intros p d Hp Hnull Hd Hdnull Hdstr.
    unfold buildPrompt, promptLines. rewrite Hp.
    replace (match Some p with Some JNull => None | p0 => p0 end) with (Some p)
      by (destruct p; congruence).
    unfold oldDescription_of. cbn [opt_get]. rewrite Hd.
    destruct d; cbn [mbind Exc_bind]; try (eexists; split; reflexivity).
    + congruence.
    + exfalso. eapply Hdstr. reflexivity.
Qed.

End Metafields.

Lemma buildPrompt_fails_with_TypeError_witness :
  exists e,
    buildPrompt (H := scenario_platform)
      (mkPromptArgs (Some (JObj [("title", JStr "Mug"); ("description", JNum "7")]))
                    "edgy" "paragraph" None false)
    = Throw e
    /\ err_name e = "TypeError".
Proof.
  apply (proj2 (buildPrompt_fails_with_TypeError (H := scenario_platform)
                  (mkPromptArgs (Some (JObj [("title", JStr "Mug");
                                             ("description", JNum "7")]))
                                "edgy" "paragraph" None false))
           (JObj [("title", JStr "Mug"); ("description", JNum "7")]) (JNum "7"));
    try reflexivity; discriminate.
Defined.

Lemma normalizeMetafields_null_edge_witness :
  normalizeMetafields (H := scenario_platform)
    (Some (JObj [("id", JStr "1");
                 ("metafields",
                  JObj [("edges",
                         JArr [metafield_edge (mkMetafield "material" "steel" "custom");
                               JNull] [])])]))
  = [].
Proof.
  apply (normalizeMetafields_null_edge (H := scenario_platform) _
           (JObj [("edges",
                   JArr [metafield_edge (mkMetafield "material" "steel" "custom");
                         JNull] [])])
           [metafield_edge (mkMetafield "material" "steel" "custom"); JNull] []);
    try reflexivity.
  - discriminate.
  - right. left. reflexivity.
Defined.

(** *** Keys *)

Lemma length_chars s : length (chars s) = String.length s.
Proof. induction s as [|c s IH]; [reflexivity|]. rewrite chars_cons. simpl. rewrite IH. reflexivity. Qed.

Lemma app_same_length {A} (l1 l2 k1 k2 : list A) :
  length l2 = length k2 -> (l1 ++ l2 = k1 ++ k2)%list -> l1 = k1 /\ l2 = k2.
Proof.
  revert k1. induction l1 as [|x l1 IH]; intros [|y k1] Hlen E; cbn [app] in E.
  - auto.
  - exfalso. apply (f_equal (@length A)) in E. cbn [length] in E.
    rewrite length_app in E. lia.
  - exfalso. apply (f_equal (@length A)) in E. cbn [length] in E.
    rewrite length_app in E. lia.
  - injection E as -> E. destruct (IH k1 Hlen E) as [-> ->]. auto.
Qed.

(** X15: the three kinds of keys never meet: no rate-limit or usage
    key is a cache key, no rate-limit key is a usage key, different
    shops have different rate-limit keys, and two usage keys whose
    month texts have the same length are equal only for the same shop
    and month. *)
Theorem key_namespaces `{Platform} (shop shop' : string) (a : CacheKeyArgs) (t t' : Z) :
  rateLimitKey shop <> buildCacheKey a
  /\ usageKey_text (Some shop) t <> buildCacheKey a
  /\ rateLimitKey shop <> usageKey_text (Some shop') t
  /\ (rateLimitKey shop = rateLimitKey shop' -> shop = shop')
  /\ (String.length (Date_isoMonth t) = String.length (Date_isoMonth t') ->
      usageKey_text (Some shop) t = usageKey_text (Some shop') t' ->
      shop = shop' /\ Date_isoMonth t = Date_isoMonth t').
Proof.
  split; [unfold rateLimitKey, buildCacheKey; cbn; discriminate|].
  split; [unfold usageKey_text, buildCacheKey; cbn; discriminate|].
  split; [unfold rateLimitKey, usageKey_text; cbn; discriminate|].
  split.
  - unfold rateLimitKey. cbn. intros [= E]. exact E.
  - intros Hlen. unfold usageKey_text. cbn. intros [= E].
    assert (E' : (chars shop ++ chars (":" +:+ Date_isoMonth t)
                  = chars shop' ++ chars (":" +:+ Date_isoMonth t'))%list)
      by (rewrite <- !chars_append; f_equal; exact E).
    apply app_same_length in E' as [E1 E2].
    + split; [apply chars_inj; exact E1|].
      apply chars_inj in E2. injection E2 as E2. exact E2.
    + rewrite !length_chars, !length_append. cbn [String.length]. lia.
Qed.

Lemma key_namespaces_witness :
  usageKey_text (H := scenario_platform) (Some "a") 0
  = usageKey_text (H := scenario_platform) (Some "a") 86400000
  /\ "a" = "a".
Proof.
  split; [reflexivity|].
  exact (proj1 (proj2 (proj2 (proj2 (proj2
           (key_namespaces (H := scenario_platform) "a" "a"
              (mkCacheKeyArgs "p" "edgy" "paragraph" None false) 0 86400000))))
           eq_refl eq_refl)).
Defined.

(** X16: the store client gives up after the fifth reconnection
    attempt; before that the delay is 200 ms times the attempt, so the
    cap of 2000 ms is never reached. *)
Theorem retryStrategy_schedule (times : Z) :
  (retryStrategy times = None <-> 5 < times)
  /\ (forall delay, retryStrategy times = Some delay ->
        delay = 200 * times /\ delay <= 1000).
Proof.
  unfold retryStrategy. destruct (5 <? times) eqn:E.
  - split; [split; [lia | reflexivity]|]. discriminate.
  - split; [split; [discriminate | lia]|].
    intros delay [= <-]. lia.
Qed.

Lemma retryStrategy_schedule_witness :
  retryStrategy 5 = Some 1000 /\ retryStrategy 6 = None.
Proof.
  split; [reflexivity|].
  exact (proj2 (proj1 (retryStrategy_schedule 6)) eq_refl).
Defined.

(** X17: the endpoint is the base URL followed by
    "/chat/completions", one trailing slash of the base URL being
    dropped. *)
Theorem endpoint_trailing_slash (this : DeepSeekService) (base : string) :
  (baseUrl this = base +:+ "/" -> endpoint this = base +:+ "/chat/completions")
  /\ (baseUrl this = base -> last_char base <> Some "/"%char ->
      endpoint this = base +:+ "/chat/completions").
Proof.
  unfold endpoint, strip_trailing_slash. split.
  - intros ->. rewrite chars_append. cbn [chars list_ascii_of_string].
    rewrite rev_app_distr. cbn [rev app]. rewrite rev_involutive.
    unfold of_chars, chars. rewrite string_of_list_ascii_of_string. reflexivity.
  - intros -> Hlast.
    assert (Hrev : forall s, last_char s = head (rev (chars s))).
    { induction s as [|c s IH]; [reflexivity|].
      rewrite chars_cons. cbn [rev last_char]. destruct s as [|c' s]; [reflexivity|].
      rewrite IH. rewrite chars_cons. cbn [rev].
      destruct (rev (chars s)); reflexivity. }
    rewrite Hrev in Hlast.
    destruct (rev (chars base)) as [|c r]; [reflexivity|].
    cbn [head] in Hlast.
    destruct (Ascii.eqb_spec c "/") as [->|Hc]; [congruence|].
    destruct c as [[] [] [] [] [] [] [] []]; try reflexivity. congruence.
Qed.

Lemma endpoint_trailing_slash_witness :
  endpoint
    (constructor (mkEnv None (Some "https://proxy.example/v1/") None None) no_opts)
  = "https://proxy.example/v1/chat/completions"
  /\ endpoint default_service
     = "https://api.deepseek.com/chat/completions".
Proof.
  split.
  - exact (proj1 (endpoint_trailing_slash
                    (constructor (mkEnv None (Some "https://proxy.example/v1/") None None)
                                 no_opts)
                    "https://proxy.example/v1") eq_refl).
  - refine (proj2 (endpoint_trailing_slash default_service
                     "https://api.deepseek.com") eq_refl _).
    vm_compute. discriminate.
Defined.

(** After the defaults, the description is that of the extracted
    object, or the empty string. *)
Lemma normalize_keys_description parsed :
  is_object parsed = true ->
  get_prop (normalize_keys parsed) "description"
  = Some (default (JStr "") (get_prop parsed "description")).
Proof.
  intros Hobj. unfold normalize_keys.
  set (p1 := if has_prop "description" parsed then parsed
             else set_prop "description" (JStr "") parsed).
  assert (H1 : is_object p1 = true)
    by (subst p1; destruct (has_prop "description" parsed);
        [exact Hobj | rewrite is_object_set_prop; exact Hobj]).
  assert (D1 : get_prop p1 "description"
               = Some (default (JStr "") (get_prop parsed "description"))).
  { subst p1. unfold has_prop.
    destruct (get_prop parsed "description") as [d|] eqn:Hd; [exact Hd|].
    rewrite get_set_prop by (auto using index_description). reflexivity. }
  destruct (has_prop "socials" p1); [exact D1|].
  rewrite get_set_prop by (auto using index_description, index_socials).
  exact D1.
Qed.

(** X18: the description of a result that [generateDescription]
    fetched is made from the description [d] of the object extracted
    from the model's text (the empty string when it has none): when [d]
    is truthy, it is the string [sanitizeHTML(String(d))]; when [d] is
    falsy (the empty string, null, 0 or false), it is [d] itself,
    unsanitized and of whatever type it has. *)
Theorem fresh_description_is_sanitized `{Platform}
        (env : Env) (this : DeepSeekService) (a : GenerateArgs)
        (w : World) (result : JSON) (w' : World) :
  generateDescription env this a w = (Ok result, w') ->
  List.Exists (fun ev => is_fetch ev = true) (new_events w w') ->
  exists latency res payload text parsed,
    In (FetchResolves latency res) (upstream w)
    /\ res_ok res = true
    /\ payload_of res = Ok payload
    /\ aiText_of payload = Ok text
    /\ extractJsonFromText text = Ok parsed
    /\ let d := default (JStr "") (get_prop parsed "description") in
       (truthy d = true ->
        exists s, ToString d = Ok s
                  /\ get_prop result "description" = Some (JStr (sanitizeHTML s)))
       /\ (truthy d = false -> get_prop result "description" = Some d).
Proof.
  intros Hrun Hfresh.
  destruct (generateDescription_completion env this a w _ _ Hrun)
    as (quiet & evs2 & Enew & Fq
        & [[-> [Fnf|[e He]]]|(result' & pid & Hres & Hpid & Hacc & F2 & _)]).
  - exfalso. rewrite Enew, app_nil_r in Hfresh.
    apply List.Exists_exists in Hfresh as (ev & Hin & Hev).
    rewrite List.Forall_forall in Fnf. rewrite (Fnf _ Hin) in Hev. discriminate.
  - discriminate He.
  - injection Hres as <-.
    destruct Hacc as (latency & res & raw & Hup & Hok & Hint & Hsan).
    destruct (interpret_response_ok _ _ Hint)
      as (payload & text & parsed & Hp & Ht & Hx & Hobj & ->).
    destruct (normalize_keys_props parsed Hobj) as (Hobj' & _ & _).
    pose proof (normalize_keys_description parsed Hobj) as Hd.
    destruct (sanitize_description_props _ _ Hobj' Hsan) as (_ & _ & _ & Hyes & Hno).
    exists latency, res, payload, text, parsed.
    repeat (split; [assumption|]). split.
    + intros Htruthy. exact (Hyes _ Hd Htruthy).
    + intros Hfalsy. rewrite (Hno _ Hd Hfalsy). exact Hd.
Qed.

(** The model writes a paragraph with an attribute and a link: the
    attribute and the link tags are gone from the description
    returned. *)
Lemma fresh_description_is_sanitized_witness :
  exists result w',
    generateDescription (H := scenario_platform) default_env default_service
                        (simple_request tenant) markup_world
    = (Ok result, w')
    /\ get_prop markup_value "description"
       = Some (JStr "<p class=x>Hi</p><a href=/x>more</a>")
    /\ sanitizeHTML (H := scenario_platform) "<p class=x>Hi</p><a href=/x>more</a>"
       = "<p>Hi</p>more"
    /\ get_prop result "description" = Some (JStr "<p>Hi</p>more").
Proof.
  set (run := generateDescription (H := scenario_platform) default_env
                default_service (simple_request tenant) markup_world).
  assert (Hrun : generateDescription (H := scenario_platform) default_env
                   default_service (simple_request tenant) markup_world
                 = (fst run, snd run)) by (subst run; apply surjective_pairing).
  assert (Hok : exists result, fst run = Ok result)
    by (eexists; subst run; vm_compute; reflexivity).
  destruct Hok as (result & Hres). rewrite Hres in Hrun.
  destruct (fresh_description_is_sanitized (H := scenario_platform) default_env
              default_service (simple_request tenant) markup_world
              result (snd run) Hrun)
    as (latency & res & payload & text & parsed
        & Hin & _ & Hp & Ht & Hx & Hyes & _).
  - apply List.Exists_exists. eexists.
    split; [subst run; vm_compute; do 4 right; left; reflexivity | reflexivity].
  - destruct Hin as [Hin|[]]. injection Hin as <- <-.
    vm_compute in Hp. injection Hp as <-.
    vm_compute in Ht. injection Ht as <-.
    assert (Hv : extractJsonFromText markup_text = Ok markup_value)
      by (vm_compute; reflexivity).
    change (extractJsonFromText markup_text = Ok parsed) in Hx.
    rewrite Hv in Hx. injection Hx as <-.
    destruct (Hyes eq_refl) as (s & Hs & Hd).
    cbn in Hs. injection Hs as <-.
    exists result, (snd run). split; [exact Hrun|]. split; [reflexivity|].
    assert (Hsan : sanitizeHTML (H := scenario_platform)
                     "<p class=x>Hi</p><a href=/x>more</a>" = "<p>Hi</p>more")
      by (vm_compute; reflexivity).
    split; [exact Hsan|]. rewrite Hd, Hsan. reflexivity.
Defined.

(** *** Fences *)

Lemma strip_fences_plain s :
  indexOf "`" s = None -> forall t, strip_fences (s +:+ t) = s +:+ strip_fences t.
Proof.
  induction s as [|a r IH]; intros Hs t; [reflexivity|].
  cbn [indexOf] in Hs. destruct (Ascii.eqb a "`") eqn:Ea; [discriminate|].
  assert (Hr : indexOf "`" r = None) by (destruct (indexOf "`" r); [discriminate|reflexivity]).
  rewrite append_cons, strip_fences_cons, Ea. cbn [andb].
  rewrite (IH Hr). destruct (r +:+ t) as [|b [|c r3]]; reflexivity.
Qed.

Lemma strip_fences_json_fence s : strip_fences ("```json" +:+ s) = strip_fences s.
Proof. reflexivity. Qed.

(** X19: a text without backticks, wrapped in a Markdown json fence or
    followed by a closing fence, is extracted as if the fence were not
    there. *)
Theorem extract_fenced (JSON_parse : string -> option JSON) (body : string) :
  body <> "" -> indexOf "`" body = None ->
  extractJsonFromText_with JSON_parse ("```json" +:+ body +:+ "```")
  = extractJsonFromText_with JSON_parse body
  /\ extractJsonFromText_with JSON_parse (body +:+ "```")
     = extractJsonFromText_with JSON_parse body.
Proof.
  intros Hne Hplain.
  assert (Hclean : strip_fences (body +:+ "```") = strip_fences body).
  { rewrite (strip_fences_plain body Hplain). cbn [strip_fences].
    rewrite <- (append_nil_r body) at 2.
    rewrite (strip_fences_plain body Hplain). reflexivity. }
  assert (Hbody : String.eqb body "" = false) by (apply String.eqb_neq; exact Hne).
  assert (Htail : String.eqb (body +:+ "```") "" = false)
    by (destruct body; [congruence | reflexivity]).
  split; unfold extractJsonFromText_with.
  - rewrite strip_fences_json_fence, Hclean, Hbody. reflexivity.
  - rewrite Hclean, Hbody, Htail. reflexivity.
Qed.

Lemma extract_fenced_witness :
  extractJsonFromText ("```json" +:+ (nl +:+ weird_text +:+ nl) +:+ "```")
  = Ok weird_value.
Proof.
  unfold extractJsonFromText.
  assert (Hne : nl +:+ weird_text +:+ nl <> "") by discriminate.
  assert (Hplain : indexOf "`" (nl +:+ weird_text +:+ nl) = None) by reflexivity.
  rewrite (proj1 (extract_fenced Json.parse (nl +:+ weird_text +:+ nl) Hne Hplain)).
  vm_compute. reflexivity.
Defined.

(** *** What the scan can return *)

Lemma bottom_obj_push f stk : bottom_obj stk = true -> bottom_obj (f :: stk) = true.
Proof. destruct stk as [|g r]; [discriminate|]. destruct f; intros Hb; exact Hb. Qed.

Lemma push_value_in_object v stk st :
  bottom_obj stk = true -> push_value v stk = Some st -> in_object st.
Proof.
  destruct stk as [|[acc|acc [k|]] r]; cbn [push_value]; try discriminate.
  - intros Hb [= <-]. cbn [in_object].
    destruct r as [|g r]; [discriminate Hb | exact Hb].
  - intros Hb [= <-]. cbn [in_object].
    destruct r as [|g r]; [reflexivity | exact Hb].
Qed.

Lemma start_value_in_object t stk st :
  bottom_obj stk = true -> start_value t stk = Some st -> in_object st.
Proof.
  intros Hb. destruct t; cbn [start_value]; try discriminate.
  - intros [= <-]. cbn [in_object]. apply bottom_obj_push. exact Hb.
  - intros [= <-]. cbn [in_object]. apply bottom_obj_push. exact Hb.
  - apply push_value_in_object. exact Hb.
  - destruct (bare_value l) as [v|]; cbn [mbind option_bind]; [|discriminate].
    apply push_value_in_object. exact Hb.
Qed.

Lemma close_in_object stk st :
  bottom_obj stk = true ->
  (close_array stk = Some st \/ close_object stk = Some st) -> in_object st.
Proof.
  intros Hb. destruct stk as [|[acc|acc [k|]] r]; cbn [close_array close_object];
    intros [Hc|Hc]; try discriminate Hc.
  - destruct r as [|g r]; [discriminate Hb|].
    eapply push_value_in_object; [|exact Hc]. exact Hb.
  - destruct r as [|g r].
    + cbn [push_value] in Hc. injection Hc as <-. cbn. eauto.
    + eapply push_value_in_object; [|exact Hc]. exact Hb.
Qed.

Lemma set_key_in_object s stk st :
  bottom_obj stk = true -> set_key s stk = Some st -> in_object st.
Proof.
  destruct stk as [|[acc|acc [k|]] r]; cbn [set_key]; try discriminate.
  intros Hb [= <-]. cbn [in_object]. destruct r; exact Hb.
Qed.

Lemma parse_step_in_object st t st' :
  in_object st -> parse_step st t = Some st' -> in_object st'.
Proof.
  destruct st as [stk|stk|stk|stk|stk|stk|v]; cbn [in_object parse_step]; intros Hb.
  - apply start_value_in_object. exact Hb.
  - destruct t; try (apply start_value_in_object; exact Hb).
    intros Hc. eapply close_in_object; [exact Hb | left; exact Hc].
  - destruct t; try discriminate.
    + intros Hc. eapply close_in_object; [exact Hb | right; exact Hc].
    + apply set_key_in_object. exact Hb.
  - destruct t; try discriminate. apply set_key_in_object. exact Hb.
  - destruct t; try discriminate. intros [= <-]. exact Hb.
  - destruct t; try (destruct stk as [|[?|? [?|]] ?]; discriminate).
    + intros Hc. eapply close_in_object; [exact Hb | right; exact Hc].
    + intros Hc. eapply close_in_object; [exact Hb | left; exact Hc].
    + destruct stk as [|[acc|acc [k|]] r]; try discriminate; intros [= <-]; exact Hb.
  - discriminate.
Qed.

Lemma parse_tokens_in_object ts :
  forall st v, in_object st -> parse_tokens st ts = Some v ->
               exists members, v = JObj members.
Proof.
  induction ts as [|t ts IH]; intros st v Hst; cbn [parse_tokens].
  - destruct st; try discriminate. intros [= <-]. exact Hst.
  - destruct (parse_step st t) as [st'|] eqn:Hstep; cbn [mbind option_bind];
      [|discriminate].
    apply IH. eapply parse_step_in_object; eassumption.
Qed.

(** A text that starts with an opening brace parses to an object, if at
    all. *)
Lemma parse_brace rest v :
  Json.parse (String "{" rest) = Some v -> exists members, v = JObj members.
Proof.
  unfold Json.parse. rewrite chars_cons.
  assert (Hlex : lex LDefault ("{"%char :: chars rest)
                 = (ts ← lex LDefault (chars rest); Some (TLBrace :: ts)))
    by reflexivity.
  rewrite Hlex.
  destruct (lex LDefault (chars rest)) as [ts|]; [|discriminate].
  change (parse_tokens (SObjStart [FObj [] None]) ts = Some v ->
          exists members, v = JObj members).
  apply parse_tokens_in_object. reflexivity.
Qed.

Lemma indexOf_drop c s n :
  indexOf c s = Some n -> exists rest, drop n s = String c rest.
Proof.
  revert n. induction s as [|a s IH]; intros n; cbn [indexOf]; [discriminate|].
  destruct (Ascii.eqb_spec a c) as [->|Hac].
  - intros [= <-]. eauto.
  - destruct (indexOf c s) as [m|]; cbn [fmap option_fmap option_map]; [|discriminate].
    intros [= <-]. cbn [drop]. apply IH. reflexivity.
Qed.

Lemma first_success_In {A B} (f : A -> option B) l b :
  first_success f l = Some b -> exists x, In x l /\ f x = Some b.
Proof.
  induction l as [|x l IH]; cbn [first_success]; [discriminate|].
  destruct (f x) as [b'|] eqn:Hx.
  - intros [= <-]. exists x. split; [left; reflexivity | exact Hx].
  - intros Hl. destruct (IH Hl) as (y & Hin & Hy). exists y. split; [right|]; assumption.
Qed.

Lemma take_brace n rest :
  (1 <= n)%nat -> exists r, JsString.take n (String "{" rest) = String "{" r.
Proof. destruct n as [|n]; [lia|]. intros _. rewrite take_cons. eauto. Qed.

(** X20: when the text as a whole is not JSON, whatever
    [extractJsonFromText] returns is an object. *)
Theorem extracted_block_is_object (text : string) (v : JSON) :
  extractJsonFromText text = Ok v ->
  Json.parse (trim (strip_fences text)) = None ->
  exists members, v = JObj members.
Proof.
  unfold extractJsonFromText, extractJsonFromText_with.
  destruct (String.eqb text ""); [discriminate|].
  set (cleaned := trim (strip_fences text)).
  intros Hx Hnone. rewrite Hnone in Hx.
  destruct (indexOf "{" cleaned) as [start|] eqn:Hstart; [|discriminate].
  destruct (indexOf_drop _ _ _ Hstart) as (rest & Hdrop).
  rewrite scan_blocks_candidates in Hx.
  destruct (first_success Json.parse (candidates cleaned start)) as [v'|] eqn:Hscan.
  - injection Hx as <-.
    apply first_success_In in Hscan as (c & Hin & Hc).
    unfold candidates, prefixes in Hin. apply filter_In in Hin as [Hin _].
    apply in_map_iff in Hin as (n & <- & Hn). apply in_seq in Hn.
    rewrite Hdrop in Hc.
    destruct (take_brace n rest) as (r & Hr); [lia|]. rewrite Hr in Hc.
    eapply parse_brace. exact Hc.
  - unfold greedy_match in Hx. rewrite Hstart, Hdrop in Hx.
    destruct (lastIndexOf "}" (String "{" rest)) as [b|]; cbn [mbind option_bind] in Hx;
      [|discriminate].
    rewrite <- Nat.add_assoc, slice_drop, Hdrop in Hx.
    destruct (take_brace (b + 1) rest) as (r & Hr); [lia|]. rewrite Hr in Hx.
    destruct (Json.parse (String "{" r)) as [v'|] eqn:Hp; [|discriminate].
    injection Hx as <-. eapply parse_brace. exact Hp.
Qed.

Lemma extracted_block_is_object_witness :
  exists members, weird_value = JObj members.
Proof.
  apply (extracted_block_is_object wrapped_weird_text weird_value);
    vm_compute; reflexivity.
Defined.

(** *** Sorting *)

Section Sorting.
Context {A : Type}.
Variable cmp : A -> A -> Z.

Lemma insert_sorted_perm x l : Permutation (History.insert_sorted cmp x l) (x :: l).
Proof.
  induction l as [|y l IH]; cbn [History.insert_sorted]; [reflexivity|].
  destruct (0 <? cmp y x); [reflexivity|].
  rewrite IH. apply perm_swap.
Qed.

Lemma sort_from_perm l :
  forall acc, Permutation (fold_left (fun acc x => History.insert_sorted cmp x acc) l acc)
                          (acc ++ l).
Proof.
  induction l as [|x l IH]; intros acc; cbn [fold_left].
  - rewrite app_nil_r. reflexivity.
  - rewrite IH, insert_sorted_perm. cbn [app]. apply Permutation_middle.
Qed.

Lemma Array_sort_perm l : Permutation (History.Array_sort cmp l) l.
Proof. unfold History.Array_sort. rewrite sort_from_perm. reflexivity. Qed.

(** The order the comparator stands for. *)
Variable key : A -> Z.
Variable dom : A -> Prop.
Hypothesis cmp_key : forall a b, dom a -> dom b -> cmp a b = key b - key a.

Local Abbreviation before := (History.before key).

Lemma insert_sorted_sorted x l :
  dom x -> List.Forall dom l ->
  StronglySorted before l -> StronglySorted before (History.insert_sorted cmp x l).
Proof.
  intros Hx Hl Hs. induction Hs as [|y l Hs IH Hy]; cbn [History.insert_sorted].
  - repeat constructor.
  - inversion Hl as [|? ? Hdy Hdl]; subst.
    rewrite (cmp_key y x Hdy Hx).
    destruct (0 <? key x - key y) eqn:E.
    + constructor; [constructor; assumption|].
      constructor; [unfold before; lia|].
      eapply List.Forall_impl; [|exact Hy]. unfold before. intros z Hz. lia.
    + constructor; [apply IH; exact Hdl|].
      rewrite (insert_sorted_perm x l). constructor; [unfold before; lia | exact Hy].
Qed.

Lemma insert_sorted_dom x l :
  dom x -> List.Forall dom l -> List.Forall dom (History.insert_sorted cmp x l).
Proof.
  intros Hx Hl. rewrite (insert_sorted_perm x l). constructor; assumption.
Qed.

Lemma sort_from_sorted l :
  forall acc,
    List.Forall dom l -> List.Forall dom acc -> StronglySorted before acc ->
    StronglySorted before
      (fold_left (fun acc x => History.insert_sorted cmp x acc) l acc).
Proof.
  induction l as [|x l IH]; intros acc Hl Ha Hs; cbn [fold_left]; [exact Hs|].
  inversion Hl as [|? ? Hx Hl']; subst.
  apply IH; [exact Hl' | apply insert_sorted_dom; assumption
            | apply insert_sorted_sorted; assumption].
Qed.

Lemma Array_sort_sorted l :
  List.Forall dom l -> StronglySorted before (History.Array_sort cmp l).
Proof. intros Hl. apply sort_from_sorted; [exact Hl | constructor | constructor]. Qed.

(** An element that sorts after all the others goes to the end. *)
Lemma insert_sorted_last x l :
  dom x -> List.Forall dom l -> List.Forall (fun y => before y x) l ->
  History.insert_sorted cmp x l = (l ++ [x])%list.
Proof.
  intros Hx Hl Hb. induction Hb as [|y l Hy Hb IH]; [reflexivity|].
  inversion Hl as [|? ? Hdy Hdl]; subst.
  cbn [History.insert_sorted app]. rewrite (cmp_key y x Hdy Hx).
  unfold before in Hy. replace (0 <? key x - key y) with false by lia.
  rewrite (IH Hdl). reflexivity.
Qed.

Lemma StronglySorted_app_inv (R : A -> A -> Prop) l1 l2 :
  StronglySorted R (l1 ++ l2) ->
  StronglySorted R l1 /\ StronglySorted R l2
  /\ List.Forall (fun a => List.Forall (R a) l2) l1.
Proof.
  induction l1 as [|a l1 IH]; cbn [app]; intros Hs.
  - repeat constructor. exact Hs.
  - inversion Hs as [|? ? Hs' Ha]; subst.
    destruct (IH Hs') as (H1 & H2 & H3).
    apply Forall_app in Ha as [Ha1 Ha2].
    repeat constructor; assumption.
Qed.

Lemma sort_from_fixed l :
  forall acc,
    List.Forall dom (acc ++ l) -> StronglySorted before (acc ++ l) ->
    fold_left (fun acc x => History.insert_sorted cmp x acc) l acc = (acc ++ l)%list.
Proof.
  induction l as [|x l IH]; intros acc Hd Hs; cbn [fold_left].
  - rewrite app_nil_r. reflexivity.
  - assert (E : (acc ++ x :: l = (acc ++ [x]) ++ l)%list)
      by (rewrite <- List.app_assoc; reflexivity).
    rewrite insert_sorted_last.
    + rewrite E in Hd, Hs. rewrite (IH (acc ++ [x])%list Hd Hs). symmetry. exact E.
    + apply Forall_app in Hd as [_ Hd]. inversion Hd; assumption.
    + apply Forall_app in Hd as [Hd _]. exact Hd.
    + apply StronglySorted_app_inv in Hs as (_ & _ & Hs).
      eapply List.Forall_impl; [|exact Hs]. intros a Ha. inversion Ha; assumption.
Qed.

(** Sorting an array that is in order changes nothing. *)
Lemma Array_sort_fixed l :
  List.Forall dom l -> StronglySorted before l -> History.Array_sort cmp l = l.
Proof. intros Hd Hs. apply (sort_from_fixed l []); assumption. Qed.

End Sorting.

(** *** The history store *)

Module HistoryFacts.
Import History.

Section Facts.
Context `{Calendar}.

Lemma newest_first_key a b :
  dated a -> dated b -> newest_first a b = time_of b - time_of a.
Proof.
  unfold dated, newest_first, time_of. intros [ta ->] [tb ->]. reflexivity.
Qed.

Lemma before_not_older l :
  List.Forall dated l -> StronglySorted (before time_of) l ->
  StronglySorted not_older l.
Proof.
  intros Hd Hs. induction Hs as [|a l Hs IH Ha]; [constructor|].
  inversion Hd as [|? ? Hda Hdl]; subst.
  constructor; [apply IH; exact Hdl|].
  rewrite List.Forall_forall in *. intros b Hb.
  destruct Hda as [ta Eta]. destruct (Hdl b Hb) as [tb Etb].
  exists ta, tb. split; [exact Eta|]. split; [exact Etb|].
  specialize (Ha b Hb). unfold before, time_of in Ha. rewrite Eta, Etb in Ha.
  exact Ha.
Qed.

Lemma not_older_before l :
  StronglySorted not_older l -> StronglySorted (before time_of) l.
Proof.
  induction 1 as [|a l Hs IH Ha]; constructor; [exact IH|].
  eapply List.Forall_impl; [|exact Ha].
  intros b (ta & tb & Eta & Etb & Hle). unfold before, time_of.
  rewrite Eta, Etb. exact Hle.
Qed.

Lemma add_store entry now random store :
  snd (addHistoryEntry entry now random store)
  = slice_last 50 (store ++ [fst (addHistoryEntry entry now random store)]).
Proof.
  unfold addHistoryEntry. cbn [fst snd].
  match goal with
  | |- (if (50 <? length ?p)%nat then _ else _) = _ =>
      destruct (Nat.ltb_spec 50 (length p)) as [Hlt|Hle]; [reflexivity|]
  end.
  unfold slice_last.
  match goal with
  | |- _ = skipn ?k _ => replace k with 0%nat by lia
  end.
  reflexivity.
Qed.

Lemma slice_last_length {A} n (l : list A) :
  length (slice_last n l) = Nat.min (length l) n.
Proof. unfold slice_last. rewrite length_skipn. lia. Qed.

Lemma slice_last_app {A} n (l1 l2 : list A) :
  slice_last n (slice_last n l1 ++ l2) = slice_last n (l1 ++ l2).
Proof.
  unfold slice_last. rewrite !length_app, length_skipn.
  destruct (Nat.le_gt_cases (length l1) n) as [Hle|Hgt].
  - replace (length l1 - n)%nat with 0%nat by lia. cbn [skipn].
    f_equal. lia.
  - rewrite (skipn_app (length l1 + length l2 - n)).
    rewrite (skipn_app (length l1 - (length l1 - n) + length l2 - n)).
    rewrite length_skipn, skipn_skipn.
    f_equal; [f_equal; lia|]. f_equal. lia.
Qed.

(** X21: [addHistoryEntry] gives the entry its fields and the
    current time, puts it last, and keeps at most 50 entries: the
    store afterwards is a suffix of the old one followed by the new
    entry, and the whole old store when that held fewer than 50. *)
Theorem addHistoryEntry_keeps_fifty entry now random store :
  let newEntry := fst (addHistoryEntry entry now random store) in
  let store' := snd (addHistoryEntry entry now random store) in
  fields newEntry = entry
  /\ createdAt newEntry = Date_toISOString now
  /\ length store' = Nat.min (S (length store)) 50
  /\ (exists kept, store' = (kept ++ [newEntry])%list
                   /\ exists dropped, store = (dropped ++ kept)%list)
  /\ ((length store < 50)%nat -> store' = (store ++ [newEntry])%list).
Proof.
  intros newEntry store'.
  assert (Hs : store' = slice_last 50 (store ++ [newEntry]))
    by (subst store' newEntry; apply add_store).
  split; [reflexivity|]. split; [reflexivity|]. split; [|split].
  - rewrite Hs, slice_last_length, length_app. cbn [length]. lia.
  - exists (slice_last 49 store). split.
    + rewrite Hs. unfold slice_last. rewrite length_app. cbn [length].
      destruct (Nat.le_gt_cases (length store) 49) as [Hle|Hgt].
      * replace (length store + 1 - 50)%nat with 0%nat by lia.
        replace (length store - 49)%nat with 0%nat by lia. reflexivity.
      * rewrite skipn_app.
        replace (length store + 1 - 50 - length store)%nat with 0%nat by lia.
        cbn [skipn]. f_equal. f_equal. lia.
    + exists (firstn (length store - 49) store). unfold slice_last.
      symmetry. apply firstn_skipn.
  - intros Hlt. rewrite Hs. unfold slice_last. rewrite length_app. cbn [length].
    replace (length store + 1 - 50)%nat with 0%nat by lia. reflexivity.
Qed.

(** X22: for entries with valid dates, [getHistory] returns the
    same entries most recent first, leaves the store in that order
    (it sorts in place), changes nothing when the store is already in
    order, and gives the same answer when called again. *)
Theorem getHistory_sorted store :
  List.Forall dated store ->
  let result := fst (getHistory store) in
  let store' := snd (getHistory store) in
  store' = result
  /\ Permutation result store
  /\ StronglySorted not_older result
  /\ (StronglySorted not_older store -> result = store)
  /\ getHistory store' = (result, result).
Proof.
  intros Hd result store'. subst result store'. unfold getHistory. cbn [fst snd].
  assert (Hp : Permutation (Array_sort newest_first store) store)
    by apply Array_sort_perm.
  assert (Hd' : List.Forall dated (Array_sort newest_first store))
    by (rewrite Hp; exact Hd).
  assert (Hs : StronglySorted (before time_of) (Array_sort newest_first store))
    by (apply (Array_sort_sorted newest_first time_of dated newest_first_key);
        exact Hd).
  split; [reflexivity|]. split; [exact Hp|].
  split; [apply before_not_older; assumption|]. split.
  - intros Hsorted.
    apply (Array_sort_fixed newest_first time_of dated newest_first_key);
      [exact Hd | apply not_older_before; exact Hsorted].
  - rewrite (Array_sort_fixed newest_first time_of dated newest_first_key _ Hd' Hs).
    reflexivity.
Qed.

(** X23: [deleteHistoryEntry] removes the entries that carry the
    id, all of them and no other, answers true exactly when there was
    one, and answers false when repeated. *)
Theorem deleteHistoryEntry_removes id0 store :
  let found := fst (deleteHistoryEntry id0 store) in
  let store' := snd (deleteHistoryEntry id0 store) in
  (found = true <-> exists e, In e store /\ id e = id0)
  /\ (forall e, In e store' <-> In e store /\ id e <> id0)
  /\ deleteHistoryEntry id0 store' = (false, store').
Proof.
  intros found store'. subst found store'. unfold deleteHistoryEntry. cbn [fst snd].
  set (keep := fun e => negb (String.eqb (id e) id0)).
  assert (Hlen : forall l : list HistoryEntry,
             (length (List.filter keep l) <= length l)%nat
             /\ ((length (List.filter keep l) < length l)%nat <->
                 exists e, In e l /\ id e = id0)).
  { induction l as [|x l [IH1 IH2]]; cbn [List.filter length].
    - split; [lia|]. split; [lia | intros (e & [] & _)].
    - destruct (keep x) eqn:Hk; unfold keep in Hk;
        [apply negb_true_iff, String.eqb_neq in Hk
        |apply negb_false_iff, String.eqb_eq in Hk]; rename Hk into Ex;
        cbn [length]; [rename Ex into Ex'|].
      2:{ split; [lia|]. split; [|lia]. intros _. exists x. split; [left|]; auto. }
      rename Ex' into Ex.
      split; [lia|]. split.
      { intros Hlt. destruct (proj1 IH2) as (e & Hin & He); [lia|].
        exists e. split; [right|]; assumption. }
      intros (e & [->|Hin] & He); [congruence|].
      assert ((length (List.filter keep l) < length l)%nat)
        by (apply IH2; eauto).
      lia. }
  split; [|split].
  - rewrite Nat.ltb_lt. apply Hlen.
  - intros e. rewrite filter_In. unfold keep. rewrite negb_true_iff, String.eqb_neq.
    reflexivity.
  - assert (Hidem : forall l : list HistoryEntry,
               List.filter keep (List.filter keep l) = List.filter keep l).
    { induction l as [|x l IH]; [reflexivity|]. cbn [List.filter].
      destruct (keep x) eqn:Hk; [|exact IH]. cbn [List.filter].
      rewrite Hk, IH. reflexivity. }
    rewrite Hidem. f_equal. apply Nat.ltb_ge. lia.
Qed.

(** X24: an entry added to a store with room is removed again by
    deleting its id, which leaves the store as it was, provided no
    other entry has that id. *)
Theorem add_then_delete entry now random store :
  let newEntry := fst (addHistoryEntry entry now random store) in
  (length store < 50)%nat ->
  (forall e, In e store -> id e <> id newEntry) ->
  deleteHistoryEntry (id newEntry) (snd (addHistoryEntry entry now random store))
  = (true, store).
Proof.
  intros newEntry Hroom Hfresh.
  rewrite add_store. fold newEntry. unfold slice_last.
  rewrite length_app. cbn [length].
  replace (length store + 1 - 50)%nat with 0%nat by lia.
  change (skipn 0 (store ++ [newEntry])) with (store ++ [newEntry])%list.
  unfold deleteHistoryEntry. rewrite List.filter_app. cbn [List.filter].
  rewrite String.eqb_refl. cbn [negb]. rewrite app_nil_r.
  assert (Hkeep : forall i (l : list HistoryEntry),
             (forall e, In e l -> id e <> i) ->
             List.filter (fun e => negb (String.eqb (id e) i)) l = l).
  { intros i l. induction l as [|x l IH]; intros Hl; [reflexivity|].
    cbn [List.filter].
    destruct (String.eqb_spec (id x) i) as [Ex|Ex].
    - exfalso. exact (Hl x (or_introl eq_refl) Ex).
    - cbn [negb]. rewrite IH; [reflexivity|].
      intros e He. apply Hl. right. exact He. }
  rewrite (Hkeep _ _ Hfresh).
  rewrite length_app. cbn [length]. f_equal. apply Nat.ltb_lt. lia.
Qed.

(** X25: after [getHistory] has sorted a full store of 50 entries
    with valid dates, the next entry added pushes out the most recent
    of the old entries, not the oldest. *)
Theorem sorted_store_evicts_newest entry now random store :
  length store = 50%nat ->
  List.Forall dated store ->
  let sorted := snd (getHistory store) in
  let newEntry := fst (addHistoryEntry entry now random sorted) in
  exists newest rest,
    sorted = newest :: rest
    /\ snd (addHistoryEntry entry now random sorted) = (rest ++ [newEntry])%list
    /\ List.Forall (fun e => not_older newest e) store.
Proof.
  intros Hlen Hd sorted newEntry.
  assert (Hperm : Permutation sorted store) by apply Array_sort_perm.
  assert (Hsorted : StronglySorted not_older sorted).
  { apply before_not_older; [rewrite Hperm; exact Hd|].
    apply (Array_sort_sorted newest_first time_of dated newest_first_key).
    exact Hd. }
  assert (Hlen' : length sorted = 50%nat)
    by (rewrite (Permutation_length Hperm); exact Hlen).
  destruct sorted as [|newest rest] eqn:Es; [discriminate|].
  exists newest, rest. split; [reflexivity|]. split.
  - rewrite add_store. fold newEntry. unfold slice_last.
    rewrite length_app, Hlen'. reflexivity.
  - rewrite <- Hperm. inversion Hsorted as [|? ? _ Hnewest]; subst.
    constructor; [|exact Hnewest].
    assert (Hdn : dated newest).
    { assert (Hin : In newest store)
        by (eapply Permutation_in; [exact Hperm | left; reflexivity]).
      rewrite List.Forall_forall in Hd. exact (Hd _ Hin). }
    destruct Hdn as [t Et]. exists t, t. repeat split; [exact Et | exact Et | lia].
Qed.

(** X26: entries added one after the other to a store of at most 50,
    with no [getHistory] in between, leave the 50 latest in the store,
    in the order they were added. *)
Theorem add_all_keeps_latest batch :
  forall store,
    (length store <= 50)%nat ->
    add_all batch store = slice_last 50 (store ++ created batch).
Proof.
  induction batch as [|[[entry now] random] batch IH]; intros store Hlen.
  - cbn [add_all created map]. rewrite app_nil_r. unfold slice_last.
    replace (length store - 50)%nat with 0%nat by lia. reflexivity.
  - cbn [add_all created map]. rewrite IH.
    + rewrite add_store. fold (created batch).
      rewrite slice_last_app, <- List.app_assoc. reflexivity.
    + rewrite add_store, slice_last_length. lia.
Qed.

End Facts.

Lemma sample_dated t : dated (H := scenario_calendar) (sample_entry t).
Proof. exists t. apply to_Z_of_Z. Qed.

Lemma sample_store_dated n :
  List.Forall (dated (H := scenario_calendar)) (sample_store n).
Proof.
  unfold sample_store. apply List.Forall_forall. intros e He.
  apply in_map_iff in He as (i & <- & _). apply sample_dated.
Qed.

Lemma addHistoryEntry_keeps_fifty_witness :
  snd (addHistoryEntry (H := scenario_calendar) (sample_fields "Cup") 4
         "0.k3x9" (sample_store 3))
  = (sample_store 3
       ++ [fst (addHistoryEntry (H := scenario_calendar) (sample_fields "Cup") 4
                  "0.k3x9" (sample_store 3))])%list.
Proof.
  apply (proj2 (proj2 (proj2 (proj2
           (addHistoryEntry_keeps_fifty (H := scenario_calendar)
              (sample_fields "Cup") 4 "0.k3x9" (sample_store 3)))))).
  vm_compute. lia.
Defined.

Lemma getHistory_sorted_witness :
  StronglySorted (not_older (H := scenario_calendar))
                 (fst (getHistory (H := scenario_calendar) (sample_store 3)))
  /\ fst (getHistory (H := scenario_calendar) (sample_store 3))
     = rev (sample_store 3).
Proof.
  split; [|vm_compute; reflexivity].
  exact (proj1 (proj2 (proj2
           (getHistory_sorted (H := scenario_calendar) (sample_store 3)
              (sample_store_dated 3))))).
Defined.

Lemma deleteHistoryEntry_removes_witness :
  fst (deleteHistoryEntry (id (sample_entry 2)) (sample_store 3)) = true.
Proof.
  apply (proj2 (proj1 (deleteHistoryEntry_removes
                         (id (sample_entry 2)) (sample_store 3)))).
  exists (sample_entry 2). split; [right; left; reflexivity | reflexivity].
Defined.

Lemma add_then_delete_witness :
  deleteHistoryEntry
    (id (fst (addHistoryEntry (H := scenario_calendar) (sample_fields "Cup") 4
                "0.k3x9" (sample_store 3))))
    (snd (addHistoryEntry (H := scenario_calendar) (sample_fields "Cup") 4
            "0.k3x9" (sample_store 3)))
  = (true, sample_store 3).
Proof.
  apply (add_then_delete (H := scenario_calendar)).
  - vm_compute. lia.
  - intros e He.
    repeat (destruct He as [<-|He]; [vm_compute; discriminate|]). destruct He.
Defined.

Lemma sorted_store_evicts_newest_witness :
  exists newest rest,
    snd (getHistory (H := scenario_calendar) (sample_store 50)) = newest :: rest
    /\ snd (addHistoryEntry (H := scenario_calendar) (sample_fields "Cup") 51
              "0.k3x9" (snd (getHistory (H := scenario_calendar) (sample_store 50))))
       = (rest ++ [fst (addHistoryEntry (H := scenario_calendar)
                          (sample_fields "Cup") 51 "0.k3x9"
                          (snd (getHistory (H := scenario_calendar)
                                  (sample_store 50))))])%list
    /\ newest = sample_entry 50.
Proof.
  destruct (sorted_store_evicts_newest (H := scenario_calendar)
              (sample_fields "Cup") 51 "0.k3x9" (sample_store 50))
    as (newest & rest & Hs & Hadd & _).
  - reflexivity.
  - apply sample_store_dated.
  - exists newest, rest. split; [exact Hs|]. split; [exact Hadd|].
    assert (Hhead : head (snd (getHistory (H := scenario_calendar) (sample_store 50)))
                    = Some (sample_entry 50)) by (vm_compute; reflexivity).
    rewrite Hs in Hhead. injection Hhead as ->. reflexivity.
Defined.

Lemma add_all_keeps_latest_witness :
  add_all (H := scenario_calendar)
    [(sample_fields "Cup", 51, "0.k3x9"); (sample_fields "Pot", 52, "0.z77q")]
    (sample_store 50)
  = (skipn 2 (sample_store 50)
       ++ created (H := scenario_calendar)
            [(sample_fields "Cup", 51, "0.k3x9");
             (sample_fields "Pot", 52, "0.z77q")])%list.
Proof.
  rewrite (add_all_keeps_latest (H := scenario_calendar)) by (vm_compute; lia).
  vm_compute. reflexivity.
Defined.

End HistoryFacts.
